(** * Tone.Time: tokenizer, parser, chained operations and evaluator

    A shallow embedding of [Tone/core/Time.js].  JavaScript numbers are IEEE
    binary64 values (Rocq's primitive floats), strings are sequences of code
    units below 256, and [Tone.Time] instances live in a store because
    [_pushExpr] mutates its receiver.  Of [Tone/instrument/Simpler.js], the
    flattening of the [urls] argument into sample names is embedded too. *)

From Stdlib Require Import ZArith String Ascii Floats.
From stdpp Require Import list strings.

Local Open Scope string_scope.
Local Open Scope list_scope.
Local Open Scope Z_scope.

(** ** JavaScript values *)

(** The values that flow through [Tone.Time]: [undefined], numbers, strings
    and arrays.  Instances of [Tone.Time] are store addresses, kept apart.
    [null], booleans and other objects, which no documented call passes,
    are not among them. *)
#[warnings="-register-all"]
Inductive jsval :=
| VUndef
| VNum (x : float)
| VStr (s : string)
| VArr (xs : list jsval).

Inductive exn :=
| SyntaxError (message : string)
| TypeError.

(** Result of running a piece of the program: a returned value, a thrown
    exception, or recursion cut off by the bound given to the model. *)
Inductive outcome (A : Type) :=
| Ret (a : A)
| Throw (e : exn)
| OutOfFuel.
Arguments Ret {A} a.
Arguments Throw {A} e.
Arguments OutOfFuel {A}.

(** [this.isUndef(x)] *)
Definition isUndef (v : jsval) : bool :=
  match v with VUndef => true | _ => false end.

(** Modelled from the spec: [defaultArg] belongs to Tone's core, which is not
    part of the sources; with a fallback that is not an object it returns the
    fallback exactly when the given value is undefined. *)
Definition defaultArg (given fallback : jsval) : jsval :=
  if isUndef given then fallback else given.

(** [v === s] for a string constant [s]. *)
Definition is_str (v : jsval) (s : string) : bool :=
  match v with VStr s' => String.eqb s' s | _ => false end.

(** ** Strings *)

Definition code (c : ascii) : Z := Z.of_N (N_of_ascii c).

Definition is_digit (c : ascii) : bool := (48 <=? code c) && (code c <=? 57).

(** White space and line terminators among the code units below 256. *)
Definition is_ws (c : ascii) : bool :=
  ((9 <=? code c) && (code c <=? 13)) || (code c =? 32) || (code c =? 160).

Fixpoint trim_left (s : string) : string :=
  match s with
  | String c s' => if is_ws c then trim_left s' else s
  | EmptyString => EmptyString
  end.

Fixpoint trim_right (s : string) : string :=
  match s with
  | String c s' =>
      match trim_right s' with
      | EmptyString => if is_ws c then EmptyString else String c EmptyString
      | r => String c r
      end
  | EmptyString => EmptyString
  end.

(** [s.trim()] *)
Definition trim (s : string) : string := trim_right (trim_left s).

(** [s.substr(n)] for [0 <= n] *)
Fixpoint substr (s : string) (n : nat) {struct n} : string :=
  match n, s with
  | S n', String _ s' => substr s' n'
  | _, _ => s
  end.

(** The first [n] code units of [s]. *)
Fixpoint prefix_of (s : string) (n : nat) {struct n} : string :=
  match n, s with
  | S n', String c s' => String c (prefix_of s' n')
  | _, _ => EmptyString
  end.

(** [s.split(sep)] for a one-character separator. *)
Fixpoint split (sep : ascii) (s : string) : list string :=
  match s with
  | EmptyString => [EmptyString]
  | String c s' =>
      if Ascii.eqb c sep then EmptyString :: split sep s'
      else match split sep s' with
           | p :: ps => String c p :: ps
           | [] => [String c EmptyString]
           end
  end.

(** Longest prefix of characters satisfying [p], and the rest. *)
Fixpoint span (p : ascii -> bool) (s : string) : string * string :=
  match s with
  | String c s' =>
      if p c then let '(a, b) := span p s' in (String c a, b)
      else (EmptyString, s)
  | EmptyString => (EmptyString, EmptyString)
  end.

(** ** Numbers from text *)

(** The number nearest to an integer (ties to even). *)
Definition Z2float (z : Z) : float :=
  SF2Prim (binary_normalize prec emax z 0 false).

(** The number nearest to [n * 10^e], for [0 <= n]. *)
Definition dec2float (n e : Z) : float :=
  match n with
  | Zpos p =>
      if 0 <=? e then Z2float (n * 10 ^ e)
      else SF2Prim (SFdiv prec emax (S754_finite false p 0)
                                    (S754_finite false (Z.to_pos (10 ^ (- e))) 0))
  | _ => 0%float
  end.

Definition digit_val (c : ascii) : Z :=
  if is_digit c then code c - 48
  else if (97 <=? code c) && (code c <=? 102) then code c - 87
  else code c - 55.

Definition is_hex_digit (c : ascii) : bool :=
  is_digit c || ((97 <=? code c) && (code c <=? 102))
             || ((65 <=? code c) && (code c <=? 70)).

Fixpoint digits_val_from (radix acc : Z) (s : string) : Z :=
  match s with
  | String c s' => digits_val_from radix (acc * radix + digit_val c) s'
  | EmptyString => acc
  end.

Definition digits_val (radix : Z) (s : string) : Z := digits_val_from radix 0 s.

(** A leading sign: [(negative, rest)]. *)
Definition strip_sign (s : string) : bool * string :=
  match s with
  | String "-" s' => (true, s')
  | String "+" s' => (false, s')
  | _ => (false, s)
  end.

Definition with_sign (neg : bool) (x : float) : float :=
  if neg then (- x)%float else x.

(** [parseInt(s)] with no radix argument. *)
Definition parseInt (s : string) : float :=
  let '(neg, s1) := strip_sign (trim_left s) in
  let '(radix, s2) :=
    match s1 with
    | String "0" (String "x" r) | String "0" (String "X" r) => (16, r)
    | _ => (10, s1)
    end in
  let '(ds, _) := span (if radix =? 16 then is_hex_digit else is_digit) s2 in
  match ds with
  | EmptyString => nan
  | _ => with_sign neg (Z2float (digits_val radix ds))
  end.

(** An exponent part [e], [e+] or [e-] followed by digits: its value, and
    the rest; absent when no digit follows. *)
Definition exponent_part (s : string) : Z * string :=
  match s with
  | String c s' =>
      if Ascii.eqb c "e" || Ascii.eqb c "E" then
        let '(neg, s1) := strip_sign s' in
        let '(ds, s2) := span is_digit s1 in
        match ds with
        | EmptyString => (0, s)
        | _ => ((if neg then - digits_val 10 ds else digits_val 10 ds), s2)
        end
      else (0, s)
  | EmptyString => (0, s)
  end.

Fixpoint starts_with (p s : string) : bool :=
  match p, s with
  | EmptyString, _ => true
  | String a p', String b s' => Ascii.eqb a b && starts_with p' s'
  | _, _ => false
  end.

(** [parseFloat(s)]: the longest prefix that is a decimal literal. *)
Definition parseFloat (s : string) : float :=
  let '(neg, s1) := strip_sign (trim_left s) in
  if starts_with "Infinity" s1 then with_sign neg infinity else
  let '(ip, s2) := span is_digit s1 in
  let '(fp, s3) :=
    match s2 with
    | String "." r =>
        let '(fp, s3) := span is_digit r in
        match ip, fp with
        | EmptyString, EmptyString => (EmptyString, s2)
        | _, _ => (fp, s3)
        end
    | _ => (EmptyString, s2)
    end in
  match ip +:+ fp with
  | EmptyString => nan
  | ds =>
      let '(e, _) := exponent_part s3 in
      with_sign neg (dec2float (digits_val 10 ds) (e - Z.of_nat (String.length fp)))
  end.

(** ** Regular expressions

    The fragment the token patterns are written in.  Every pattern is
    anchored at the start of the text, and matching is greedy with
    backtracking, as [String.prototype.match] does it. *)
Inductive regex :=
| RChar (c : ascii)            (* a literal character *)
| RDigit                       (* \d *)
| RDigits                      (* \d+ *)
| RSeq (r1 r2 : regex)         (* r1 r2 *)
| ROpt (r : regex)             (* (r)? *)
| RRep12 (r : regex).          (* (r){1,2} *)

Definition upcase (c : ascii) : ascii :=
  if (97 <=? code c) && (code c <=? 122)
  then ascii_of_N (N_of_ascii c - 32) else c.

(** Equality of a pattern character and a text character, under flag [i]
    when [ci] is set. *)
Definition char_matches (ci : bool) (p c : ascii) : bool :=
  if ci then Ascii.eqb (upcase p) (upcase c) else Ascii.eqb p c.

Definition or_else {A} (a b : option A) : option A :=
  match a with Some _ => a | None => b end.

(** [\d+] followed by the continuation [k]: the longest run first, then
    shorter ones. *)
Fixpoint match_digits (s : string) (k : string -> option string) : option string :=
  match s with
  | String c s' =>
      if is_digit c then or_else (match_digits s' k) (k s') else None
  | EmptyString => None
  end.

(** [match_re ci r s k]: match [r] at the start of [s], then [k] on the rest;
    the result is what is left of the text after the whole match. *)
Fixpoint match_re (ci : bool) (r : regex) (s : string)
    (k : string -> option string) : option string :=
  match r with
  | RChar p =>
      match s with
      | String c s' => if char_matches ci p c then k s' else None
      | EmptyString => None
      end
  | RDigit =>
      match s with
      | String c s' => if is_digit c then k s' else None
      | EmptyString => None
      end
  | RDigits => match_digits s k
  | RSeq r1 r2 => match_re ci r1 s (fun s1 => match_re ci r2 s1 k)
  | ROpt r1 => or_else (match_re ci r1 s k) (k s)
  | RRep12 r1 =>
      match_re ci r1 s (fun s1 => or_else (match_re ci r1 s1 k) (k s1))
  end.

Record pattern := { re : regex; ignore_case : bool }.

(** [s.match(p)]: [null], or the matched text [match[0]]. *)
Definition str_match (s : string) (p : pattern) : option string :=
  match match_re (ignore_case p) (re p) s Some with
  | Some rest => Some (prefix_of s (String.length s - String.length rest))
  | None => None
  end.

(** ** The expression table *)

(** [Tone.Time.Type] *)
Module TimeType.
Definition Divide := "/".
Definition Subtract := "-".
Definition Add := "+".
Definition Multiply := "*".
Definition Quantize := "@".
Definition Now := "now".
Definition Negative := "-".
End TimeType.

(** [Tone.Time.Units] *)
Module Units.
Definition Measure := "m".
Definition Duplet := "n".
Definition Triplet := "t".
Definition TransportTime := "tr".
Definition Seconds := "s".
Definition Tick := "i".
Definition Hertz := "hz".
End Units.

(** The keys of [Tone.Time._Expressions]. *)
Inductive group := Gvalue | Gglue | Gbinary | Gunary.

Definition group_eqb (a b : group) : bool :=
  match a, b with
  | Gvalue, Gvalue | Gglue, Gglue | Gbinary, Gbinary | Gunary, Gunary => true
  | _, _ => false
  end.

(** One operator of a group: its pattern, and [name] and [precedence] where
    the table gives them ([undefined] otherwise). *)
Record op := { regexp : pattern; op_name : jsval; op_precedence : option Z }.

(** [\d+(\.\d+)?] *)
Definition re_decimal : regex := RSeq RDigits (ROpt (RSeq (RChar ".") RDigits)).

(** [Tone.Time._Expressions], in the order the keys are written, which is
    the order [for ... in] visits them. *)
Definition _Expressions : list (group * list (string * op)) :=
  [ (Gvalue,
      [ ("n",  {| regexp := {| re := RSeq RDigits (RChar "n"); ignore_case := true |};
                  op_name := VStr Units.Duplet; op_precedence := None |});
        ("t",  {| regexp := {| re := RSeq RDigits (RChar "t"); ignore_case := true |};
                  op_name := VStr Units.Triplet; op_precedence := None |});
        ("m",  {| regexp := {| re := RSeq RDigits (RChar "m"); ignore_case := true |};
                  op_name := VStr Units.Measure; op_precedence := None |});
        ("i",  {| regexp := {| re := RSeq RDigits (RChar "i"); ignore_case := true |};
                  op_name := VStr Units.Tick; op_precedence := None |});
        ("hz", {| regexp := {| re := RSeq RDigits (RSeq (RChar "h") (RChar "z")); ignore_case := true |};
                  op_name := VStr Units.Hertz; op_precedence := None |});
        ("tr", {| regexp := {| re := RSeq (RRep12 (RSeq re_decimal (RChar ":")))
                                          (ROpt re_decimal);
                               ignore_case := false |};
                  op_name := VStr Units.TransportTime; op_precedence := None |});
        ("s",  {| regexp := {| re := RDigit; ignore_case := false |};
                  op_name := VStr Units.Seconds; op_precedence := None |}) ]);
    (Gglue,
      [ ("(",  {| regexp := {| re := RChar "("; ignore_case := false |};
                  op_name := VUndef; op_precedence := None |});
        (")",  {| regexp := {| re := RChar ")"; ignore_case := false |};
                  op_name := VUndef; op_precedence := None |});
        (",",  {| regexp := {| re := RChar ","; ignore_case := false |};
                  op_name := VUndef; op_precedence := None |}) ]);
    (Gbinary,
      [ ("+",  {| regexp := {| re := RChar "+"; ignore_case := false |};
                  op_name := VStr TimeType.Add; op_precedence := Some 1 |});
        ("-",  {| regexp := {| re := RChar "-"; ignore_case := false |};
                  op_name := VStr TimeType.Subtract; op_precedence := Some 1 |});
        ("*",  {| regexp := {| re := RChar "*"; ignore_case := false |};
                  op_name := VStr TimeType.Multiply; op_precedence := Some 0 |});
        ("/",  {| regexp := {| re := RChar "*"; ignore_case := false |};
                  op_name := VStr TimeType.Divide; op_precedence := Some 0 |});
        ("@",  {| regexp := {| re := RChar "@"; ignore_case := false |};
                  op_name := VStr TimeType.Quantize; op_precedence := Some 0 |}) ]);
    (Gunary,
      [ ("neg", {| regexp := {| re := RChar "-"; ignore_case := false |};
                   op_name := VStr TimeType.Negative; op_precedence := None |});
        ("now", {| regexp := {| re := RChar "+"; ignore_case := false |};
                   op_name := VStr TimeType.Now; op_precedence := None |}) ]) ].

(** ** Tokenizer *)

Module Token.
Record t := { group : group; name : jsval; precedence : option Z; value : string }.
End Token.
Abbreviation token := Token.t.

(** The inner loop of [getNextToken], over the operators of one group. *)
Fixpoint first_match (type : group) (ops : list (string * op)) (expr : string)
    : option token :=
  match ops with
  | (_, o) :: ops' =>
      match str_match expr (regexp o) with
      | Some m => Some {| Token.group := type; Token.name := op_name o;
                          Token.precedence := op_precedence o; Token.value := m |}
      | None => first_match type ops' expr
      end
  | [] => None
  end.

(** The outer loop of [getNextToken], over the groups. *)
Fixpoint first_group_match (table : list (group * list (string * op)))
    (expr : string) : option token :=
  match table with
  | (type, ops) :: table' =>
      or_else (first_match type ops expr) (first_group_match table' expr)
  | [] => None
  end.

Definition getNextToken (expr : string) : outcome token :=
  match first_group_match _Expressions expr with
  | Some tok => Ret tok
  | None => Throw (SyntaxError ("Unexpected token " +:+ expr))
  end.

(** The [while] loop of [_tokenize]; [tokens] is kept in push order. *)
Fixpoint tokenize_loop (fuel : nat) (expr : string) (tokens : list token)
    : outcome (list token) :=
  match expr with
  | EmptyString => Ret tokens
  | _ =>
      match fuel with
      | O => OutOfFuel
      | S fuel' =>
          let expr := trim expr in
          match getNextToken expr with
          | Ret tok =>
              tokenize_loop fuel'
                (substr expr (String.length (Token.value tok))) (tokens ++ [tok])
          | Throw e => Throw e
          | OutOfFuel => OutOfFuel
          end
      end
  end.

(** The object [_tokenize] returns: the token array and the cursor its two
    closures share. *)
Record lexer := { tokens : list token; position : Z }.

(** [a[i]] on an array, [undefined] out of range. *)
Definition array_get {A} (a : list A) (i : Z) : option A :=
  if i <? 0 then None else a !! Z.to_nat i.

(** [lexer.next()]: [tokens[++position]] *)
Definition lexer_next (lx : lexer) : option token * lexer :=
  let p := position lx + 1 in
  (array_get (tokens lx) p, {| tokens := tokens lx; position := p |}).

(** [lexer.peek()]: [tokens[position + 1]] *)
Definition lexer_peek (lx : lexer) : option token :=
  array_get (tokens lx) (position lx + 1).

(** Each turn of the loop removes at least one character, so the length of
    the text bounds the number of turns. *)
Definition _tokenize (expr : string) : outcome lexer :=
  match tokenize_loop (String.length expr) expr [] with
  | Ret toks => Ret {| tokens := toks; position := -1 |}
  | Throw e => Throw e
  | OutOfFuel => OutOfFuel
  end.

(** ** The store of [Tone.Time] instances *)

Abbreviation addr := nat.

(** An element of [_expressions]: [{ type, value }]. *)
Module Expr.
Record t := { type : jsval; value : addr }.
End Expr.

Record TimeObj := {
  _expressions : list Expr.t;
  _units : jsval;
  _value : jsval
}.

Abbreviation heap := (list TimeObj).

(** Computations that read and update the store and may throw. *)
Definition M (A : Type) : Type := heap -> outcome A * heap.

Definition ret {A} (a : A) : M A := fun h => (Ret a, h).

Definition bind {A B} (m : M A) (f : A -> M B) : M B :=
  fun h =>
    match m h with
    | (Ret a, h') => f a h'
    | (Throw e, h') => (Throw e, h')
    | (OutOfFuel, h') => (OutOfFuel, h')
    end.

Definition throw {A} (e : exn) : M A := fun h => (Throw e, h).

Definition out_of_fuel {A} : M A := fun h => (OutOfFuel, h).

Definition lift {A} (o : outcome A) : M A := fun h => (o, h).

Notation "'let*' x ':=' m 'in' k" := (bind m (fun x => k))
  (at level 10, x pattern, m at level 100, k at level 200).

(** Reading the fields of the object at [a]; an address outside the store
    denotes no object, and property access on it is a [TypeError]. *)
Definition read (a : addr) : M TimeObj :=
  fun h => match h !! a with
           | Some o => (Ret o, h)
           | None => (Throw TypeError, h)
           end.

Definition write (a : addr) (o : TimeObj) : M unit :=
  fun h => (Ret tt, <[a := o]> h).

(** [new]: a fresh object, at the next free address. *)
Definition alloc (o : TimeObj) : M addr :=
  fun h => (Ret (List.length h), h ++ [o]).

(** [Tone.Time(val, units)], with or without [new]. *)
Definition Tone_Time (val units : jsval) : M addr :=
  alloc {| _expressions := [];
           _units := units;
           _value := defaultArg val (VStr TimeType.Now) |}.

(** An argument that is either a [Tone.Time] instance or a plain value. *)
Inductive timearg :=
| ATime (a : addr)
| AVal (v : jsval).

Definition _pushExpr (this : addr) (val : timearg) (type units : jsval) : M addr :=
  let* v := match val with
            | ATime a => ret a
            | AVal x => Tone_Time x units
            end in
  let* obj := read this in
  let* _ := write this
              {| _expressions := _expressions obj ++ [{| Expr.type := type; Expr.value := v |}];
                 _units := _units obj;
                 _value := _value obj |} in
  ret this.

Definition add (this : addr) (val : timearg) (units : jsval) : M addr :=
  _pushExpr this val (VStr TimeType.Add) units.

Definition sub (this : addr) (val : timearg) (units : jsval) : M addr :=
  _pushExpr this val (VStr TimeType.Subtract) units.

Definition mult (this : addr) (val : timearg) (units : jsval) : M addr :=
  _pushExpr this val (VStr TimeType.Multiply) units.

Definition div (this : addr) (val : timearg) (units : jsval) : M addr :=
  _pushExpr this val (VStr TimeType.Divide) units.

Definition quantize (this : addr) (val : timearg) (units : jsval) : M addr :=
  _pushExpr this val (VStr TimeType.Quantize) units.

Definition fromNow (this : addr) : M addr :=
  _pushExpr this (AVal (VNum 0)) (VStr TimeType.Now) VUndef.

(** ** Parser *)

(** What the parser builds: a [Tone.Time] instance, a binary node
    [{ type, args : [arg0, arg1] }] or a unary node
    [{ operator, method, args : [arg0] }]. *)
Inductive tree :=
| TTime (a : addr)
| TBinary (type : jsval) (arg0 arg1 : tree)
| TUnary (operator : string) (method : jsval) (arg0 : tree).

(** [token.precedence === precedence] *)
Definition precedence_is (p : option Z) (precedence : Z) : bool :=
  match p with Some q => q =? precedence | None => false end.

(** The conversion of a value token's text in [_parsePrimary]. *)
Definition primary_value (units : jsval) (text : string) : jsval :=
  if is_str units Units.Measure || is_str units Units.Duplet
     || is_str units Units.Triplet || is_str units Units.Tick
  then VNum (parseInt text)
  else if is_str units Units.Seconds || is_str units Units.Hertz
  then VNum (parseInt text)
  else if is_str units Units.TransportTime
  then VArr (map (fun v => VNum (parseFloat v)) (split ":" text))
  else VStr text.

Fixpoint _parseExpression (fuel : nat) (lx : lexer) (precedence : option Z)
    {struct fuel} : M (tree * lexer) :=
  match fuel with
  | O => out_of_fuel
  | S fuel' =>
      let precedence := match precedence with None => 5 | Some p => p end in
      let* (expr, lx) :=
        if precedence <? 0 then _parseUnary fuel' lx
        else _parseExpression fuel' lx (Some (precedence - 1)) in
      parseExpression_while fuel' lx precedence expr
  end

(** The [while] loop of [_parseExpression]. *)
with parseExpression_while (fuel : nat) (lx : lexer) (precedence : Z) (expr : tree)
    {struct fuel} : M (tree * lexer) :=
  match fuel with
  | O => out_of_fuel
  | S fuel' =>
      match lexer_peek lx with
      | Some token =>
          if group_eqb (Token.group token) Gbinary
             && precedence_is (Token.precedence token) precedence
          then
            match lexer_next lx with
            | (Some token, lx) =>
                let* (rhs, lx) := _parseExpression fuel' lx (Some precedence) in
                parseExpression_while fuel' lx precedence
                  (TBinary (Token.name token) expr rhs)
            | (None, _) => throw TypeError
            end
          else ret (expr, lx)
      | None => ret (expr, lx)
      end
  end

with _parseUnary (fuel : nat) (lx : lexer) {struct fuel} : M (tree * lexer) :=
  match fuel with
  | O => out_of_fuel
  | S fuel' =>
      match lexer_peek lx with
      | Some token =>
          if group_eqb (Token.group token) Gunary then
            let '(token, lx) := lexer_next lx in
            let* (expr, lx) := _parseUnary fuel' lx in
            match token with
            | Some token => ret (TUnary (Token.value token) VUndef expr, lx)
            | None => throw TypeError
            end
          else _parsePrimary fuel' lx
      | None => _parsePrimary fuel' lx
      end
  end

with _parsePrimary (fuel : nat) (lx : lexer) {struct fuel} : M (tree * lexer) :=
  match fuel with
  | O => out_of_fuel
  | S fuel' =>
      match lexer_peek lx with
      | None => throw (SyntaxError "Unexpected termination of expression")
      | Some token =>
          if group_eqb (Token.group token) Gvalue then
            match lexer_next lx with
            | (Some token, lx) =>
                let units := Token.name token in
                let* a := Tone_Time (primary_value units (Token.value token)) units in
                ret (TTime a, lx)
            | (None, _) => throw TypeError
            end
          else if group_eqb (Token.group token) Gglue
                  && String.eqb (Token.value token) "("
          then
            let '(_, lx) := lexer_next lx in
            let* (expr, lx) := _parseExpression fuel' lx None in
            let '(token, lx) := lexer_next lx in
            match token with
            | Some token =>
                if group_eqb (Token.group token) Gglue
                   && String.eqb (Token.value token) ")"
                then ret (expr, lx)
                else throw (SyntaxError "Expected )")
            | None => throw (SyntaxError "Expected )")
            end
          else throw (SyntaxError
                        ("Parse error, cannot process token " +:+ Token.value token))
      end
  end.

(** ** Tree traversal *)

(** [v.args[0]], [v.args[1]] and [v.type] of a value that may be a node, a
    [Tone.Time] instance (which has no [args]) or [undefined]. *)
Definition node_parts (v : option tree) : M (option tree * option tree * jsval) :=
  match v with
  | Some (TBinary type arg0 arg1) => ret (Some arg0, Some arg1, type)
  | Some (TUnary _ _ arg0) => ret (Some arg0, None, VUndef)
  | Some (TTime _) => throw TypeError
  | None => throw TypeError
  end.

Fixpoint _traverseTree (fuel : nat) (left right : option tree) (exprType : jsval)
    : M (option tree) :=
  match fuel with
  | O => out_of_fuel
  | S fuel' =>
      match left, right with
      | Some (TTime l), Some (TTime r) =>
          let* _ := _pushExpr l (ATime r) exprType VUndef in
          ret (Some (TTime l))
      | _, _ =>
          let* (l0, l1, ltype) := node_parts left in
          let* left := _traverseTree fuel' l0 l1 ltype in
          let* (r0, r1, rtype) := node_parts right in
          let* right := _traverseTree fuel' r0 r1 rtype in
          let* _ := _traverseTree fuel' left right VUndef in
          ret None
      end
  end.

Definition _parseTree (fuel : nat) (exprString : string) : M tree :=
  let* lexer := lift (_tokenize exprString) in
  let* (tree, _) := _parseExpression fuel lexer None in
  let* res := _traverseTree fuel (Some tree) None VUndef in
  ret tree.

(** ** The surroundings of an evaluation *)

(** Modelled from the spec: [Tone.Transport] is an external collaborator, not
    part of the sources; it supplies the tempo ([bpm.value]), the pulses per
    quarter note ([PPQ]) and the time-signature numerator
    ([timeSignature]), all numbers. *)
Record Transport := { bpm : float; PPQ : float; timeSignature : float }.

(** Modelled from the spec: [Tone.Transport] may be absent, and [this.now()],
    from Tone's core, reads the external clock; [clock] is what it returns
    during one call of [eval]. *)
Record env := { Tone_Transport : option Transport; clock : float }.

Definition _beatInSeconds (E : env) : float :=
  match Tone_Transport E with
  | Some T => (60 / bpm T)%float
  | None => 0%float
  end.

Definition _tickInSeconds (E : env) : float :=
  match Tone_Transport E with
  | Some T => (_beatInSeconds E / PPQ T)%float
  | None => 0%float
  end.

Definition _timeSignature (E : env) : float :=
  match Tone_Transport E with
  | Some T => timeSignature T
  | None => 0%float
  end.

(** ** Arithmetic on JavaScript values and the evaluator *)

Section Evaluator.

(** The two conversions between strings and numbers that the arithmetic
    operators apply to operands that are not numbers. *)
Variable StringToNumber : string -> float.
Variable NumberToString : float -> string.

Fixpoint ToString (v : jsval) : string :=
  match v with
  | VUndef => "undefined"
  | VNum x => NumberToString x
  | VStr s => s
  | VArr xs =>
      String.concat ","
        (map (fun e => match e with VUndef => "" | _ => ToString e end) xs)
  end.

Definition ToPrimitive (v : jsval) : jsval :=
  match v with
  | VArr _ => VStr (ToString v)
  | _ => v
  end.

Definition ToNumber (v : jsval) : float :=
  match ToPrimitive v with
  | VNum x => x
  | VStr s => StringToNumber s
  | _ => nan
  end.

(** [a + b] *)
Definition js_add (a b : jsval) : jsval :=
  match ToPrimitive a, ToPrimitive b with
  | VStr s, pb => VStr (s +:+ ToString pb)
  | pa, VStr s => VStr (ToString pa +:+ s)
  | pa, pb => VNum (ToNumber pa + ToNumber pb)
  end.

(** [a - b], [a * b], [a / b] *)
Definition js_sub (a b : jsval) : jsval := VNum (ToNumber a - ToNumber b).
Definition js_mul (a b : jsval) : jsval := VNum (ToNumber a * ToNumber b).
Definition js_div (a b : jsval) : jsval := VNum (ToNumber a / ToNumber b).

(** [v[i]] *)
Definition js_index (v : jsval) (i : nat) : outcome jsval :=
  match v with
  | VUndef => Throw TypeError
  | VNum _ => Ret VUndef
  | VStr s =>
      match String.get i s with
      | Some c => Ret (VStr (String c EmptyString))
      | None => Ret VUndef
      end
  | VArr xs =>
      match xs !! i with
      | Some x => Ret x
      | None => Ret VUndef
      end
  end.

(** [_evalValue]; in the [Measure] case the variable [beatTime], declared
    further down in the [TransportTime] case, has not been assigned yet. *)
Definition _evalValue (E : env) (this : addr) : M jsval :=
  let* obj := read this in
  let units := _units obj in
  if is_str units Units.Seconds then
    ret (_value obj)
  else if is_str units Units.Measure then
    let beatTime := VUndef in
    let* v0 := lift (js_index (_value obj) 0) in
    ret (js_mul (js_mul (VNum (_timeSignature E)) beatTime) v0)
  else if is_str units Units.Duplet then
    ret (js_mul (VNum (_beatInSeconds E)) (_value obj))
  else if is_str units Units.Triplet then
    ret (js_mul (js_mul (VNum (_beatInSeconds E)) (_value obj)) (VNum (2 / 3)))
  else if is_str units Units.Tick then
    ret (js_mul (_value obj) (VNum (_tickInSeconds E)))
  else if is_str units Units.Hertz then
    ret (js_div (VNum 1) (_value obj))
  else if is_str units Units.TransportTime then
    let beatTime := VNum (_beatInSeconds E) in
    let* v0 := lift (js_index (_value obj) 0) in
    let bars := js_mul (js_mul (VNum (_timeSignature E)) beatTime) v0 in
    let* v1 := lift (js_index (_value obj) 1) in
    let beats := js_mul beatTime v1 in
    let* v2 := lift (js_index (_value obj) 2) in
    let sixteenths := js_div (js_mul beatTime v2) (VNum 4) in
    ret (js_add (js_add bars beats) sixteenths)
  else
    ret (VNum 0).

(** One turn of the [switch] in [eval], given how an operand is evaluated:
    the new running value. *)
Definition eval_case (E : env) (operand_eval : addr -> M jsval)
    (now val : jsval) (expr : Expr.t) : M jsval :=
  let type := Expr.type expr in
  if is_str type TimeType.Add then
    let* r := operand_eval (Expr.value expr) in ret (js_add val r)
  else if is_str type TimeType.Subtract then
    let* r := operand_eval (Expr.value expr) in ret (js_sub val r)
  else if is_str type TimeType.Multiply then
    let* r := operand_eval (Expr.value expr) in ret (js_mul val r)
  else if is_str type TimeType.Divide then
    let* r := operand_eval (Expr.value expr) in ret (js_div val r)
  else if is_str type TimeType.Now then
    ret (js_add val (defaultArg now (VNum (clock E))))
  else if is_str type TimeType.Quantize then
    let* r := operand_eval (Expr.value expr) in ret (js_div val r)
  else
    ret val.

(** [eval(now)] and its [for] loop, which reads [this._expressions] afresh
    at every turn; [fuel] bounds the calls and turns still allowed. *)
Fixpoint eval (fuel : nat) (E : env) (this : addr) (now : jsval) {struct fuel}
    : M jsval :=
  match fuel with
  | O => out_of_fuel
  | S fuel' =>
      let* val := _evalValue E this in
      eval_loop fuel' E this now 0%nat val
  end

with eval_loop (fuel : nat) (E : env) (this : addr) (now : jsval) (i : nat)
    (val : jsval) {struct fuel} : M jsval :=
  match fuel with
  | O => out_of_fuel
  | S fuel' =>
      let* obj := read this in
      match _expressions obj !! i with
      | Some expr =>
          let* val := eval_case E (fun a => eval fuel' E a VUndef) now val expr in
          eval_loop fuel' E this now (S i) val
      | None => ret val
      end
  end.

(** What one element of the chain does to the running value [val], where
    [r] is what its operand evaluates to. *)
Definition apply_chained (E : env) (now val : jsval) (expr : Expr.t) (r : jsval)
    : jsval :=
  let type := Expr.type expr in
  if is_str type TimeType.Add then js_add val r
  else if is_str type TimeType.Subtract then js_sub val r
  else if is_str type TimeType.Multiply then js_mul val r
  else if is_str type TimeType.Divide then js_div val r
  else if is_str type TimeType.Now then js_add val (defaultArg now (VNum (clock E)))
  else if is_str type TimeType.Quantize then js_div val r
  else val.

(** The chain folded from the left over a base value, in list order. *)
Definition fold_chain (E : env) (now base : jsval) (chain : list (Expr.t * jsval))
    : jsval :=
  fold_left (fun val er => apply_chained E now val (fst er) (snd er)) chain base.

End Evaluator.

(** ** Notions used to state the properties *)

(** A pattern that cannot match the empty text. *)
Fixpoint consumes (r : regex) : bool :=
  match r with
  | RChar _ | RDigit | RDigits => true
  | RSeq r1 r2 => consumes r1 || consumes r2
  | ROpt _ => false
  | RRep12 r1 => consumes r1
  end.

Fixpoint all_digits (s : string) : bool :=
  match s with
  | String c s' => is_digit c && all_digits s'
  | EmptyString => true
  end.

Definition nonempty (s : string) : bool :=
  match s with EmptyString => false | _ => true end.

(** A non-empty run of digits. *)
Definition is_count (s : string) : bool := nonempty s && all_digits s.

Definition no_digit_first (s : string) : bool :=
  match s with String c _ => negb (is_digit c) | EmptyString => true end.

(** [\d+(\.\d+)?] and nothing else. *)
Definition is_decimal (s : string) : bool :=
  let '(ip, r) := span is_digit s in
  nonempty ip &&
  match r with
  | EmptyString => true
  | String "." fp => is_count fp
  | _ => false
  end.

(** [reaches s r]: the loop of [_tokenize], started on [s], comes to the top
    of a turn with [r] left of the text. *)
Inductive reaches : string -> string -> Prop :=
| reaches_here s : reaches s s
| reaches_turn s tok r :
    s <> EmptyString ->
    getNextToken (trim s) = Ret tok ->
    reaches (substr (trim s) (String.length (Token.value tok))) r ->
    reaches s r.

(** The operator written under [key] in group [g] of the table. *)
Definition table_op (g : group) (key : string) : option op :=
  match find (fun e => group_eqb (fst e) g) _Expressions with
  | Some (_, ops) =>
      match find (fun e => String.eqb (fst e) key) ops with
      | Some (_, o) => Some o
      | None => None
      end
  | None => None
  end.

(** The unit tags [_evalValue] has a case for. *)
Definition known_unit (units : jsval) : bool :=
  is_str units Units.Seconds || is_str units Units.Measure
  || is_str units Units.Duplet || is_str units Units.Triplet
  || is_str units Units.Tick || is_str units Units.Hertz
  || is_str units Units.TransportTime.

(** The chain types whose case of [eval] evaluates the operand. *)
Definition takes_operand (type : jsval) : bool :=
  is_str type TimeType.Add || is_str type TimeType.Subtract
  || is_str type TimeType.Multiply || is_str type TimeType.Divide
  || is_str type TimeType.Quantize.

(** No relative-to-now element in the chain of the object at an address, nor
    in the chains of the operands that evaluating it evaluates. *)
#[warnings="-register-all"]
Inductive now_free (h : heap) : addr -> Prop :=
| now_free_obj a obj :
    h !! a = Some obj ->
    Forall (fun expr =>
              is_str (Expr.type expr) TimeType.Now = false /\
              (takes_operand (Expr.type expr) = true ->
               now_free h (Expr.value expr)))
           (_expressions obj) ->
    now_free h a.

(** The operands of the object at an address are free of relative-to-now
    elements; its own chain may have them. *)
Definition operands_now_free (h : heap) (a : addr) : Prop :=
  exists obj, h !! a = Some obj /\
    Forall (fun expr => takes_operand (Expr.type expr) = true ->
                        now_free h (Expr.value expr))
           (_expressions obj).

(** The literal forms of the grammar that are read back as written. *)
Inductive literal :=
| Duplet (N : string)
| Triplet (N : string)
| Tick (N : string)
| Hertz (N : string)
| TransportTime (bars beats sixteenths : string)
| Seconds (d : ascii).

Definition literal_text (l : literal) : string :=
  match l with
  | Duplet N => N +:+ "n"
  | Triplet N => N +:+ "t"
  | Tick N => N +:+ "i"
  | Hertz N => N +:+ "hz"
  | TransportTime bars beats sixteenths =>
      bars +:+ ":" +:+ beats +:+ ":" +:+ sixteenths
  | Seconds d => String d EmptyString
  end.

Definition literal_ok (l : literal) : bool :=
  match l with
  | Duplet N | Triplet N | Tick N | Hertz N => is_count N
  | TransportTime bars beats sixteenths =>
      is_decimal bars && is_decimal beats && is_decimal sixteenths
  | Seconds d => is_digit d
  end.

(** The number a run of decimal digits denotes. *)
Definition count (N : string) : float := Z2float (digits_val 10 N).

(** The documented conversion of each literal form to seconds. *)
Definition literal_seconds (E : env) (l : literal) : float :=
  match l with
  | Duplet N => _beatInSeconds E * count N
  | Triplet N => _beatInSeconds E * count N * (2 / 3)
  | Tick N => count N * _tickInSeconds E
  | Hertz N => 1 / count N
  | TransportTime bars beats sixteenths =>
      _timeSignature E * _beatInSeconds E * parseFloat bars
      + _beatInSeconds E * parseFloat beats
      + _beatInSeconds E * parseFloat sixteenths / 4
  | Seconds d => count (String d EmptyString)
  end%float.

(** The object [_parsePrimary] makes for a literal. *)
Definition literal_object (l : literal) : TimeObj :=
  match l with
  | Duplet N =>
      {| _expressions := []; _units := VStr Units.Duplet; _value := VNum (count N) |}
  | Triplet N =>
      {| _expressions := []; _units := VStr Units.Triplet; _value := VNum (count N) |}
  | Tick N =>
      {| _expressions := []; _units := VStr Units.Tick; _value := VNum (count N) |}
  | Hertz N =>
      {| _expressions := []; _units := VStr Units.Hertz; _value := VNum (count N) |}
  | TransportTime bars beats sixteenths =>
      {| _expressions := []; _units := VStr Units.TransportTime;
         _value := VArr [VNum (parseFloat bars); VNum (parseFloat beats);
                         VNum (parseFloat sixteenths)] |}
  | Seconds d =>
      {| _expressions := []; _units := VStr Units.Seconds;
         _value := VNum (count (String d EmptyString)) |}
  end.

(** The Tempo Context BPM = 120, time signature 4, PPQ = 192. *)
Definition tempo120 : Transport := {| bpm := 120; PPQ := 192; timeSignature := 4 |}.

Definition ops_consume (ops : list (string * op)) : Prop :=
  Forall (fun o => consumes (re (regexp (snd o))) = true) ops.

Definition minus_token : token :=
  {| Token.group := Gbinary; Token.name := VStr TimeType.Subtract;
     Token.precedence := Some 1; Token.value := "-" |}.

(** The object [_parsePrimary] makes for a value token. *)
Definition primary_object (tok : token) : TimeObj :=
  {| _expressions := [];
     _units := Token.name tok;
     _value := defaultArg (primary_value (Token.name tok) (Token.value tok))
                 (VStr TimeType.Now) |}.

Definition value_token (units text : string) : token :=
  {| Token.group := Gvalue; Token.name := VStr units;
     Token.precedence := None; Token.value := text |}.

(** Text that is empty or starts with a colon. *)
Definition colon_first (s : string) : bool :=
  match s with String c _ => Ascii.eqb c ":" | EmptyString => true end.

Fixpoint no_char (x : ascii) (s : string) : bool :=
  match s with
  | String c s' => negb (Ascii.eqb c x) && no_char x s'
  | EmptyString => true
  end.

Fixpoint no_ws (s : string) : bool :=
  match s with
  | String c s' => negb (is_ws c) && no_ws s'
  | EmptyString => true
  end.

(** The token of a literal. *)
Definition literal_token (l : literal) : token :=
  value_token
    match l with
    | Duplet _ => Units.Duplet
    | Triplet _ => Units.Triplet
    | Tick _ => Units.Tick
    | Hertz _ => Units.Hertz
    | TransportTime _ _ _ => Units.TransportTime
    | Seconds _ => Units.Seconds
    end
    (literal_text l).

(** Text that does not start with [x] or [X]. *)
Definition no_x_first (s : string) : bool :=
  match s with
  | String c _ => negb (Ascii.eqb c "x" || Ascii.eqb c "X")
  | EmptyString => true
  end.

(** A computation that leaves the store as it found it. *)
Definition preserves {A} (m : M A) : Prop := forall h, snd (m h) = h.

(** [m'] returns whatever [m] returns. *)
Definition extends {A} (m m' : M A) : Prop :=
  forall h v h', m h = (Ret v, h') -> m' h = (Ret v, h').

(** What the chain of an object may hold for its evaluation not to read the
    clock, given the reference time [now]. *)
Definition clock_free (h : heap) (now : jsval) (obj : TimeObj) : Prop :=
  Forall (fun expr =>
            (is_str (Expr.type expr) TimeType.Now = true -> isUndef now = false)
            /\ (takes_operand (Expr.type expr) = true ->
                now_free h (Expr.value expr)))
         (_expressions obj).

Definition with_tempo120 (c : float) : env :=
  {| Tone_Transport := Some tempo120; clock := c |}.

Definition without_transport (c : float) : env :=
  {| Tone_Transport := None; clock := c |}.

(** [Tone.Time(1, "s").add(2, "s").mult(3, "s").fromNow()] *)
Definition chain_example : M addr :=
  let* a := Tone_Time (VNum 1) (VStr "s") in
  let* _ := add a (AVal (VNum 2)) (VStr "s") in
  let* _ := mult a (AVal (VNum 3)) (VStr "s") in
  fromNow a.

Definition chain_heap : heap :=
  [ {| _expressions := [ {| Expr.type := VStr "+"; Expr.value := 1 |};
                         {| Expr.type := VStr "*"; Expr.value := 2 |};
                         {| Expr.type := VStr "now"; Expr.value := 3 |} ];
       _units := VStr "s"; _value := VNum 1 |};
    {| _expressions := []; _units := VStr "s"; _value := VNum 2 |};
    {| _expressions := []; _units := VStr "s"; _value := VNum 3 |};
    {| _expressions := []; _units := VUndef; _value := VNum 0 |} ].

(** [Tone.Time(0, "hz")] *)
Definition zero_hertz_heap : heap :=
  [ {| _expressions := []; _units := VStr "hz"; _value := VNum 0 |} ].

(** [Tone.Time(1, "s").div(0, "s")] *)
Definition div_zero_example : M addr :=
  let* a := Tone_Time (VNum 1) (VStr "s") in
  div a (AVal (VNum 0)) (VStr "s").

Definition div_zero_heap : heap :=
  [ {| _expressions := [ {| Expr.type := VStr "/"; Expr.value := 1 |} ];
       _units := VStr "s"; _value := VNum 1 |};
    {| _expressions := []; _units := VStr "s"; _value := VNum 0 |} ].

(** [Tone.Time(1, "s").add(5, "s").div(0, "s").mult(-2, "s")] *)
Definition sum_div_zero_example : M addr :=
  let* a := Tone_Time (VNum 1) (VStr "s") in
  let* _ := add a (AVal (VNum 5)) (VStr "s") in
  let* _ := div a (AVal (VNum 0)) (VStr "s") in
  mult a (AVal (VNum (-2))) (VStr "s").

Definition sum_div_zero_heap : heap :=
  [ {| _expressions := [ {| Expr.type := VStr "+"; Expr.value := 1 |};
                         {| Expr.type := VStr "/"; Expr.value := 2 |};
                         {| Expr.type := VStr "*"; Expr.value := 3 |} ];
       _units := VStr "s"; _value := VNum 1 |};
    {| _expressions := []; _units := VStr "s"; _value := VNum 5 |};
    {| _expressions := []; _units := VStr "s"; _value := VNum 0 |};
    {| _expressions := []; _units := VStr "s"; _value := VNum (-2) |} ].

(** [Tone.Time(0, "s").quantize(0, "s")] *)
Definition quantize_zero_example : M addr :=
  let* a := Tone_Time (VNum 0) (VStr "s") in
  quantize a (AVal (VNum 0)) (VStr "s").

Definition quantize_zero_heap : heap :=
  [ {| _expressions := [ {| Expr.type := VStr "@"; Expr.value := 1 |} ];
       _units := VStr "s"; _value := VNum 0 |};
    {| _expressions := []; _units := VStr "s"; _value := VNum 0 |} ].

(** [a = Tone.Time(1, "s")], [b = Tone.Time(0, "s").fromNow()], [a.add(b)] *)
Definition nested_now_example : M addr :=
  let* a := Tone_Time (VNum 1) (VStr "s") in
  let* b := Tone_Time (VNum 0) (VStr "s") in
  let* _ := fromNow b in
  add a (ATime b) VUndef.

Definition nested_now_heap : heap :=
  [ {| _expressions := [ {| Expr.type := VStr "+"; Expr.value := 1 |} ];
       _units := VStr "s"; _value := VNum 1 |};
    {| _expressions := [ {| Expr.type := VStr "now"; Expr.value := 2 |} ];
       _units := VStr "s"; _value := VNum 0 |};
    {| _expressions := []; _units := VUndef; _value := VNum 0 |} ].

(** The documented conversion of a magnitude to seconds, by unit: the
    base value of an evaluation as the documentation gives it, for a
    magnitude that is a number, or three numbers for a transport position. *)
Definition documented_seconds (E : env) (units : string) (value : jsval)
    : option float :=
  match value with
  | VNum x =>
      if String.eqb units Units.Seconds then Some x
      else if String.eqb units Units.Hertz then Some (1 / x)%float
      else if String.eqb units Units.Measure
      then Some (_timeSignature E * _beatInSeconds E * x)%float
      else if String.eqb units Units.Duplet then Some (_beatInSeconds E * x)%float
      else if String.eqb units Units.Triplet
      then Some (_beatInSeconds E * x * (2 / 3))%float
      else if String.eqb units Units.Tick then Some (x * _tickInSeconds E)%float
      else None
  | VArr [VNum bars; VNum beats; VNum sixteenths] =>
      if String.eqb units Units.TransportTime
      then Some (_timeSignature E * _beatInSeconds E * bars
                 + _beatInSeconds E * beats
                 + _beatInSeconds E * sixteenths / 4)%float
      else None
  | _ => None
  end.

(** The reference time given to [eval], or none. *)
Definition reference_now (reference : option float) : jsval :=
  match reference with Some t => VNum t | None => VUndef end.

(** What the documentation says a chained operation of type [type] does to
    the running number [val], [r] being the number its operand evaluates
    to: add, subtract, multiply, divide; relative to now adds the reference
    time, or the clock when there is none; quantize divides.  An element of
    any other type leaves the running number as it is. *)
Definition chained_number (E : env) (reference : option float) (type : jsval)
    (val r : float) : float :=
  if is_str type TimeType.Add then (val + r)%float
  else if is_str type TimeType.Subtract then (val - r)%float
  else if is_str type TimeType.Multiply then (val * r)%float
  else if is_str type TimeType.Divide then (val / r)%float
  else if is_str type TimeType.Now
  then (val + match reference with Some t => t | None => clock E end)%float
  else if is_str type TimeType.Quantize then (val / r)%float
  else val.

(** [Tone.Time(1, "m").add(1, "s")] *)
Definition measure_sum_example : M addr :=
  let* a := Tone_Time (VNum 1) (VStr "m") in
  add a (AVal (VNum 1)) (VStr "s").

Definition measure_sum_heap : heap :=
  [ {| _expressions := [ {| Expr.type := VStr "+"; Expr.value := 1 |} ];
       _units := VStr "m"; _value := VNum 1 |};
    {| _expressions := []; _units := VStr "s"; _value := VNum 1 |} ].

(** ** The unit of a text *)

(** [$]: the end of the text. *)
Definition at_end (s : string) : option string :=
  match s with EmptyString => Some "" | String _ _ => None end.

(** [RegExp(p).test(s)] for the pattern [p] followed by [$]. *)
Definition test_to_end (p : pattern) (s : string) : bool :=
  match match_re (ignore_case p) (re p) s at_end with
  | Some _ => true
  | None => false
  end.

Section UnitsOfText.

(** [isNumber] and [isString] belong to Tone's core, which is not part of
    the sources: they are left open here, as are the two conversions
    between strings and numbers. *)
Variable isNumber : jsval -> bool.
Variable isString : jsval -> bool.
Variable StringToNumber : string -> float.
Variable NumberToString : float -> string.

(** [_parseUnits]; [parseFloat(val) == val] compares a number with [val]
    converted to a number, and the patterns are tested on [val] converted to
    a string. *)
Definition _parseUnits (val : jsval) : jsval :=
  let text := ToString NumberToString val in
  if isNumber val then VStr Units.Seconds
  else if isString val then
    if PrimFloat.eqb (parseFloat text) (ToNumber StringToNumber NumberToString val)
    then VStr Units.Seconds
    else if test_to_end {| re := RSeq RDigits (RChar "n"); ignore_case := true |} text
    then VStr Units.Duplet
    else if test_to_end {| re := RSeq RDigits (RChar "t"); ignore_case := true |} text
    then VStr Units.Triplet
    else if test_to_end {| re := RSeq RDigits (RChar "m"); ignore_case := true |} text
    then VStr Units.Measure
    else if test_to_end {| re := RSeq RDigits (RChar "i"); ignore_case := true |} text
    then VStr Units.Tick
    else if test_to_end {| re := RSeq RDigits (RSeq (RChar "h") (RChar "z"));
                           ignore_case := true |} text
    then VStr Units.Hertz
    else if test_to_end {| re := RSeq RDigits (RChar "n"); ignore_case := true |} text
    then VStr Units.Duplet
    else if test_to_end {| re := RSeq (RRep12 (RSeq re_decimal (RChar ":")))
                                      (ROpt re_decimal);
                           ignore_case := true |} text
    then VStr Units.TransportTime
    else VUndef
  else VUndef.

End UnitsOfText.

(** ** The sample names of [Tone.Simpler] *)

(** A value inside the [urls] argument: an object, that is a value
    [isObject] of Tone's core accepts, given by its own enumerable
    properties in the order in which they were made, or any other value
    (none of these values is a function). *)
#[warnings="-register-all"]
Inductive urlval :=
| UObject (props : list (string * urlval))
| UOther (v : jsval).

(** [o.hasOwnProperty(k)] for an own property, and [o[k]], on an object
    kept as the list of its properties. *)
Definition has_key {A} (k : string) (o : list (string * A)) : bool :=
  existsb (fun e => String.eqb (fst e) k) o.

Fixpoint get {A} (k : string) (o : list (string * A)) : option A :=
  match o with
  | [] => None
  | (k', v) :: o' => if String.eqb k' k then Some v else get k o'
  end.

(** A property is overwritten in place, or added last. *)
Fixpoint assign {A} (k : string) (v : A) (o : list (string * A)) : list (string * A) :=
  match o with
  | [] => [(k, v)]
  | (k', v') :: o' =>
      if String.eqb k' k then (k, v) :: o' else (k', v') :: assign k v o'
  end.

(** [o[k] = v] on an object made by [{}]: [__proto__] is the accessor of
    the prototype, and the assignment makes no property of the object
    (the prototype it may set has no part in what follows, which reads own
    properties only); any other name is assigned. *)
Definition store_property {A} (k : string) (v : A) (o : list (string * A))
    : list (string * A) :=
  if String.eqb k "__proto__" then o else assign k v o.

(** An array index: the decimal numeral, without sign or leading zero, of
    an integer below [2^32 - 1]. *)
Definition is_index (k : string) : bool :=
  is_count k
  && match k with String "0" (String _ _) => false | _ => true end
  && (digits_val 10 k <? 2 ^ 32 - 1).

Fixpoint insert_index {A} (e : string * A) (l : list (string * A))
    : list (string * A) :=
  match l with
  | [] => [e]
  | e' :: l' =>
      if digits_val 10 (fst e) <=? digits_val 10 (fst e')
      then e :: l else e' :: insert_index e l'
  end.

(** The order in which [for ... in] visits the own properties: the array
    indices in ascending order, then the other names in the order in which
    they were made. *)
Definition for_in_order {A} (o : list (string * A)) : list (string * A) :=
  fold_right insert_index [] (List.filter (fun e => is_index (fst e)) o)
  ++ List.filter (fun e => negb (is_index (fst e))) o.

(** The inner loop of [_flattenUrls]:
    [toReturn[i + "." + x] = flatObject[x]] for every [x]. *)
Definition flatten_into (i : string) (flatObject toReturn : list (string * jsval))
    : list (string * jsval) :=
  fold_left (fun toReturn e => store_property (i +:+ "." +:+ fst e) (snd e) toReturn)
            (for_in_order flatObject) toReturn.

(** The outer loop of [_flattenUrls] over the properties still to visit.
    [own_hasOwnProperty] tells that [ob] has a property of its own named
    [hasOwnProperty]: [ob.hasOwnProperty(i)] then calls a value that is no
    function, which is a TypeError; otherwise the call is that of
    [Object.prototype] and holds of every property visited here.
    [recurse] is the call of [_flattenUrls] on an inner object. *)
Fixpoint flatten_loop
    (recurse : list (string * urlval) -> outcome (list (string * jsval)))
    (own_hasOwnProperty : bool) (rest : list (string * urlval))
    (toReturn : list (string * jsval)) : outcome (list (string * jsval)) :=
  match rest with
  | [] => Ret toReturn
  | (i, obi) :: rest' =>
      if own_hasOwnProperty then Throw TypeError
      else
        match obi with
        | UObject props =>
            match recurse props with
            | Ret flatObject =>
                flatten_loop recurse own_hasOwnProperty rest'
                  (flatten_into i flatObject toReturn)
            | Throw e => Throw e
            | OutOfFuel => OutOfFuel
            end
        | UOther v =>
            flatten_loop recurse own_hasOwnProperty rest' (store_property i v toReturn)
        end
  end.

(** [_flattenUrls(ob)], [ob] given by its own enumerable properties;
    [fuel] bounds the depth of the recursion. *)
Fixpoint _flattenUrls (fuel : nat) (ob : list (string * urlval))
    : outcome (list (string * jsval)) :=
  match fuel with
  | O => OutOfFuel
  | S fuel' =>
      flatten_loop (_flattenUrls fuel') (has_key "hasOwnProperty" ob)
                   (for_in_order ob) []
  end.

(** ** Notions used by the further properties *)

(** The text without its white space. *)
Fixpoint strip_ws (s : string) : string :=
  match s with
  | String c s' => if is_ws c then strip_ws s' else String c (strip_ws s')
  | EmptyString => EmptyString
  end.

(** The texts of the tokens, one after the other. *)
Fixpoint token_text (toks : list token) : string :=
  match toks with
  | tok :: toks' => Token.value tok +:+ token_text toks'
  | [] => EmptyString
  end.

(** A pattern none of whose characters is white space, in either case. *)
Fixpoint re_no_ws (r : regex) : bool :=
  match r with
  | RChar p => negb (is_ws p) && negb (is_ws (upcase p))
  | RDigit | RDigits => true
  | RSeq r1 r2 => re_no_ws r1 && re_no_ws r2
  | ROpt r1 | RRep12 r1 => re_no_ws r1
  end.

Definition plus_token : token :=
  {| Token.group := Gbinary; Token.name := VStr TimeType.Add;
     Token.precedence := Some 1; Token.value := "+" |}.

Definition open_paren : token :=
  {| Token.group := Gglue; Token.name := VUndef;
     Token.precedence := None; Token.value := "(" |}.

Definition close_paren : token :=
  {| Token.group := Gglue; Token.name := VUndef;
     Token.precedence := None; Token.value := ")" |}.

Definition times_token : token :=
  {| Token.group := Gbinary; Token.name := VStr TimeType.Multiply;
     Token.precedence := Some 0; Token.value := "*" |}.

(** Every object has a magnitude, and every element of a chain points into
    the store. *)
Definition wf_obj (h : heap) (obj : TimeObj) : Prop :=
  isUndef (_value obj) = false
  /\ Forall (fun expr => (Expr.value expr < List.length h)%nat) (_expressions obj).

Definition wf_heap (h : heap) : Prop := Forall (wf_obj h) h.

(** The operands that evaluation evaluates are ranked below their
    receivers: no object is, through its chain, an operand of itself. *)
Definition ranked (h : heap) (rank : addr -> nat) : Prop :=
  forall a obj expr,
    h !! a = Some obj -> In expr (_expressions obj) ->
    takes_operand (Expr.type expr) = true ->
    (rank (Expr.value expr) < rank a)%nat.

(** The receiver after [_pushExpr]. *)
Definition pushed (obj : TimeObj) (type : jsval) (v : addr) : TimeObj :=
  {| _expressions := _expressions obj ++ [{| Expr.type := type; Expr.value := v |}];
     _units := _units obj;
     _value := _value obj |}.

(** The object the constructor makes. *)
Definition constructed (val units : jsval) : TimeObj :=
  {| _expressions := []; _units := units;
     _value := defaultArg val (VStr TimeType.Now) |}.

(** A rank for [chain_heap] and the like: the receiver above its operands. *)
Definition receiver_first (a : addr) : nat :=
  match a with O => 1%nat | _ => 0%nat end.

(** [a = Tone.Time(1, "s")], [a.add(a)] *)
Definition self_add_example : M addr :=
  let* a := Tone_Time (VNum 1) (VStr "s") in
  add a (ATime a) VUndef.

Definition self_add_heap : heap :=
  [ {| _expressions := [ {| Expr.type := VStr "+"; Expr.value := 0%nat |} ];
       _units := VStr "s"; _value := VNum 1 |} ].

(** [Tone.Time(1, "s").add(2, "s")], and then [.mult(3, "s")] *)
Definition sum_example : M addr :=
  let* a := Tone_Time (VNum 1) (VStr "s") in
  add a (AVal (VNum 2)) (VStr "s").

Definition sum_heap : heap :=
  [ {| _expressions := [ {| Expr.type := VStr "+"; Expr.value := 1 |} ];
       _units := VStr "s"; _value := VNum 1 |};
    {| _expressions := []; _units := VStr "s"; _value := VNum 2 |} ].

(** The tokens the cursor has not passed. *)
Definition remaining (lx : lexer) : nat :=
  Z.to_nat (Z.of_nat (List.length (tokens lx)) - 1 - position lx).

(** The descents of [_parseExpression] from a tier to [_parseUnary]. *)
Definition levels (precedence : Z) : nat := Z.to_nat (precedence + 1).

(** The precedences [_parseExpression] is called with by the code itself:
    none, which stands for 5, and the integers from 5 down to -1. *)
Definition code_precedence (precedence : option Z) : Prop :=
  match precedence with
  | None => True
  | Some p => -1 <= p <= 5
  end.

(** A depth of calls that [_parseExpression] does not exceed. *)
Definition parse_fuel (lx : lexer) (precedence : option Z) : nat :=
  9 * remaining lx + levels (match precedence with None => 5 | Some p => p end) + 3.

(** The outcome of a parsing function started at [lx] on store [h]: a tree
    with the cursor moved forward inside the tokens, or a syntax error; the
    store has only grown. *)
Definition advances (strict : bool) (lx : lexer) (h : heap)
    (r : outcome (tree * lexer) * heap) : Prop :=
  (exists t lx' new,
      r = (Ret (t, lx'), h ++ new) /\ tokens lx' = tokens lx
      /\ (if strict then position lx < position lx' else position lx <= position lx')
      /\ position lx' < Z.of_nat (List.length (tokens lx)))
  \/ (exists m new, r = (Throw (SyntaxError m), h ++ new)).

Definition finished {A} (r : outcome A) : Prop := r <> OutOfFuel.

Fixpoint depth (t : tree) : nat :=
  match t with
  | TTime _ => 0
  | TBinary _ arg0 arg1 => S (Nat.max (depth arg0) (depth arg1))
  | TUnary _ _ arg0 => S (depth arg0)
  end.

Definition depth_of (v : option tree) : nat :=
  match v with Some t => depth t | None => 0%nat end.

(** What a call of [_traverseTree] returns: an instance or [undefined]. *)
Definition instance_or_undefined (v : option tree) : bool :=
  match v with
  | Some (TTime _) | None => true
  | Some _ => false
  end.

(** A computation that returns a value with property [P] or fails on a
    property access, and makes no object. *)
Definition keeps {A} (P : A -> Prop) (h : heap) (r : outcome A * heap) : Prop :=
  List.length (snd r) = List.length h
  /\ ((exists v, fst r = Ret v /\ P v) \/ fst r = Throw TypeError).

(** The arguments of a node are less deep than the node. *)
Definition parts_of (v : option tree) (x : option tree * option tree * jsval) : Prop :=
  (S (Nat.max (depth_of (fst (fst x))) (depth_of (snd (fst x)))) <= depth_of v)%nat.

(** What may stand after the colon that ends a part of a transport
    position: nothing, or a decimal. *)
Definition last_part (s : string) : Prop := s = "" \/ is_decimal s = true.

(** The texts of the transport pattern, after the first part and its
    colon. *)
Definition later_parts (s : string) : Prop :=
  last_part s
  \/ exists d rest, s = d +:+ String ":" rest /\ is_decimal d = true /\ last_part rest.

(** The letters that may follow a count, in either case, with the unit. *)
Definition unit_suffixes : list (string * string) :=
  [ ("n", "n"); ("N", "n"); ("t", "t"); ("T", "t"); ("m", "m"); ("M", "m");
    ("i", "i"); ("I", "i");
    ("hz", "hz"); ("hZ", "hz"); ("Hz", "hz"); ("HZ", "hz") ].

(** The calls the parser is made of: [_parseExpression] at a precedence,
    its [while] loop with the expression read so far, [_parseUnary] and
    [_parsePrimary]. *)
Inductive call :=
| CExpression (precedence : option Z)
| CWhile (precedence : Z) (expr : tree)
| CUnary
| CPrimary.

Definition run (c : call) (fuel : nat) (lx : lexer) : M (tree * lexer) :=
  match c with
  | CExpression precedence => _parseExpression fuel lx precedence
  | CWhile precedence expr => parseExpression_while fuel lx precedence expr
  | CUnary => _parseUnary fuel lx
  | CPrimary => _parsePrimary fuel lx
  end.

(** The precedence [_parseExpression] works at. *)
Definition tier_of (precedence : option Z) : Z :=
  match precedence with None => 5 | Some p => p end.

(** The operator the loop of [_parseExpression] at [precedence] goes on
    with. *)
Definition operator_of (precedence : Z) (token : token) : bool :=
  group_eqb (Token.group token) Gbinary
  && precedence_is (Token.precedence token) precedence.

Definition is_open_paren (token : token) : bool :=
  negb (group_eqb (Token.group token) Gvalue)
  && group_eqb (Token.group token) Gglue && String.eqb (Token.value token) "(".

Definition is_close_paren (token : option token) : bool :=
  match token with
  | Some token =>
      group_eqb (Token.group token) Gglue && String.eqb (Token.value token) ")"
  | None => false
  end.

(** [calls (c, fuel, lx, h) (c', fuel', lx', h')]: in the course of the call
    [c], started with the cursor of [lx] on the store [h], the parser makes
    the call [c'] with the cursor of [lx'] on the store [h'], what was
    called before having returned. *)
Inductive calls : call * nat * lexer * heap -> call * nat * lexer * heap -> Prop :=
| calls_next_tier precedence fuel lx h :
    0 <= tier_of precedence ->
    calls (CExpression precedence, S fuel, lx, h)
          (CExpression (Some (tier_of precedence - 1)), fuel, lx, h)
| calls_unary precedence fuel lx h :
    tier_of precedence < 0 ->
    calls (CExpression precedence, S fuel, lx, h) (CUnary, fuel, lx, h)
| calls_loop precedence fuel lx h expr lx1 h1 :
    run (if tier_of precedence <? 0 then CUnary
         else CExpression (Some (tier_of precedence - 1))) fuel lx h
    = (Ret (expr, lx1), h1) ->
    calls (CExpression precedence, S fuel, lx, h)
          (CWhile (tier_of precedence) expr, fuel, lx1, h1)
| calls_operand precedence expr fuel lx h token :
    lexer_peek lx = Some token -> operator_of precedence token = true ->
    calls (CWhile precedence expr, S fuel, lx, h)
          (CExpression (Some precedence), fuel, snd (lexer_next lx), h)
| calls_next_turn precedence expr fuel lx h token rhs lx1 h1 :
    lexer_peek lx = Some token -> operator_of precedence token = true ->
    _parseExpression fuel (snd (lexer_next lx)) (Some precedence) h
    = (Ret (rhs, lx1), h1) ->
    calls (CWhile precedence expr, S fuel, lx, h)
          (CWhile precedence (TBinary (Token.name token) expr rhs), fuel, lx1, h1)
| calls_operand_of_unary fuel lx h token :
    lexer_peek lx = Some token -> group_eqb (Token.group token) Gunary = true ->
    calls (CUnary, S fuel, lx, h) (CUnary, fuel, snd (lexer_next lx), h)
| calls_primary fuel lx h :
    match lexer_peek lx with
    | Some token => group_eqb (Token.group token) Gunary = false
    | None => True
    end ->
    calls (CUnary, S fuel, lx, h) (CPrimary, fuel, lx, h)
| calls_parenthesized fuel lx h token :
    lexer_peek lx = Some token -> is_open_paren token = true ->
    calls (CPrimary, S fuel, lx, h) (CExpression None, fuel, snd (lexer_next lx), h).

(** A chain of such calls. *)
Inductive comes_to : call * nat * lexer * heap -> call * nat * lexer * heap -> Prop :=
| comes_to_here s : comes_to s s
| comes_to_call s1 s2 s3 : calls s1 s2 -> comes_to s2 s3 -> comes_to s1 s3.

Definition comma_token : token :=
  {| Token.group := Gglue; Token.name := VUndef;
     Token.precedence := None; Token.value := "," |}.

(** The paths from a value to the values in it that are no objects. *)
Fixpoint paths_of (u : urlval) : list (list string * jsval) :=
  match u with
  | UObject props =>
      flat_map (fun e =>
                  let '(i, obi) := e in
                  match obi with
                  | UObject _ => map (fun q => (i :: fst q, snd q)) (paths_of obi)
                  | UOther v => [([i], v)]
                  end)
               props
  | UOther _ => []
  end.

Definition paths (ob : list (string * urlval)) : list (list string * jsval) :=
  paths_of (UObject ob).

(** The paths through one property. *)
Definition path_step (e : string * urlval) : list (list string * jsval) :=
  match snd e with
  | UObject props => map (fun q => (fst e :: fst q, snd q)) (paths props)
  | UOther v => [([fst e], v)]
  end.

(** The names of a path, joined by dots. *)
Definition dotted (p : list string) : string := String.concat "." p.


(** The objects nested in a value, the value itself included when it is
    one: how deep they go, and whether none of them has a property of its
    own named [hasOwnProperty]. *)
Fixpoint urls_depth (u : urlval) : nat :=
  match u with
  | UObject props => S (fold_right (fun e d => Nat.max (urls_depth (snd e)) d) 0%nat props)
  | UOther _ => 0%nat
  end.

Fixpoint hasOwnProperty_free (u : urlval) : bool :=
  match u with
  | UObject props =>
      negb (has_key "hasOwnProperty" props)
      && forallb (fun e => hasOwnProperty_free (snd e)) props
  | UOther _ => true
  end.

(** [{ kick : "kick.mp3", snare : { hard : "sh.mp3", soft : "ss.mp3" } }] *)
Definition drum_urls : list (string * urlval) :=
  [ ("kick", UOther (VStr "kick.mp3"));
    ("snare", UObject [ ("hard", UOther (VStr "sh.mp3"));
                        ("soft", UOther (VStr "ss.mp3")) ]) ].

(** [{ kick : "kick.mp3", hasOwnProperty : "own.mp3" }] *)
Definition shadowing_urls : list (string * urlval) :=
  [ ("kick", UOther (VStr "kick.mp3"));
    ("hasOwnProperty", UOther (VStr "own.mp3")) ].

(** * Properties *)

(** ** Strings *)

Lemma substr_length s : forall n,
  String.length (substr s n) = (String.length s - n)%nat.
Proof.
  induction s as [|c s IH]; intros [|n]; simpl; auto.
Qed.

Lemma prefix_of_length s : forall n,
  String.length (prefix_of s n) = Nat.min n (String.length s).
Proof.
  induction s as [|c s IH]; intros [|n]; simpl; auto.
Qed.

Lemma prefix_of_all s : prefix_of s (String.length s) = s.
Proof.
  induction s as [|c s IH]; simpl; [reflexivity | now rewrite IH].
Qed.

Lemma trim_left_length s : (String.length (trim_left s) <= String.length s)%nat.
Proof.
  induction s as [|c s IH]; simpl; [lia|].
  destruct (is_ws c); simpl; lia.
Qed.

Lemma trim_right_length s : (String.length (trim_right s) <= String.length s)%nat.
Proof.
  induction s as [|c s IH]; simpl; [lia|].
  destruct (trim_right s); [destruct (is_ws c)|]; simpl in *; lia.
Qed.

Lemma trim_length s : (String.length (trim s) <= String.length s)%nat.
Proof.
  unfold trim. pose proof (trim_right_length (trim_left s)).
  pose proof (trim_left_length s). lia.
Qed.

Lemma append_cons c s t : String c s +:+ t = String c (s +:+ t).
Proof. reflexivity. Qed.

Lemma append_nil s : "" +:+ s = s.
Proof. reflexivity. Qed.

Lemma append_length s t :
  String.length (s +:+ t) = (String.length s + String.length t)%nat.
Proof.
  induction s as [|c s IH]; [reflexivity|].
  rewrite append_cons. simpl. now rewrite IH.
Qed.

Lemma append_empty_r s : s +:+ "" = s.
Proof.
  induction s as [|c s IH]; [reflexivity|].
  rewrite append_cons. now rewrite IH.
Qed.

Lemma append_assoc s t u : (s +:+ t) +:+ u = s +:+ (t +:+ u).
Proof.
  induction s as [|c s IH]; [reflexivity|].
  rewrite !append_cons. now rewrite IH.
Qed.

(** ** Matching *)

Lemma match_digits_rest s k x :
  match_digits s k = Some x ->
  exists s1, k s1 = Some x /\ (String.length s1 < String.length s)%nat.
Proof.
  induction s as [|c s IH]; simpl; [discriminate|].
  destruct (is_digit c); [|discriminate].
  destruct (match_digits s k) as [y|] eqn:Hd; simpl; intros Hx.
  - injection Hx as ->. destruct (IH eq_refl) as (s1 & Hk & Hl).
    exists s1. split; [exact Hk | lia].
  - exists s. split; [exact Hx | lia].
Qed.

Lemma match_re_rest r : forall ci s k x,
  match_re ci r s k = Some x ->
  exists s1, k s1 = Some x /\ (String.length s1 <= String.length s)%nat /\
             (consumes r = true -> (String.length s1 < String.length s)%nat).
Proof.
  induction r as [p| | |r1 IH1 r2 IH2|r1 IH1|r1 IH1]; intros ci s k x; simpl.
  - destruct s as [|c s]; [discriminate|].
    destruct (char_matches ci p c); [|discriminate].
    intros Hk. exists s. simpl. repeat split; [exact Hk | lia | lia].
  - destruct s as [|c s]; [discriminate|].
    destruct (is_digit c); [|discriminate].
    intros Hk. exists s. simpl. repeat split; [exact Hk | lia | lia].
  - intros Hm. destruct (match_digits_rest _ _ _ Hm) as (s1 & Hk & Hl).
    exists s1. repeat split; [exact Hk | lia | lia].
  - intros Hm. destruct (IH1 _ _ _ _ Hm) as (s1 & Hm2 & Hle1 & Hlt1).
    destruct (IH2 _ _ _ _ Hm2) as (s2 & Hk & Hle2 & Hlt2).
    exists s2. repeat split; [exact Hk | lia |].
    intros Hc. apply orb_prop in Hc as [Hc|Hc];
      [specialize (Hlt1 Hc)|specialize (Hlt2 Hc)]; lia.
  - destruct (match_re ci r1 s k) as [y|] eqn:Hm; simpl; intros Hx.
    + injection Hx as ->. destruct (IH1 _ _ _ _ Hm) as (s1 & Hk & Hle & _).
      exists s1. repeat split; [exact Hk | lia | discriminate].
    + exists s. repeat split; [exact Hx | lia | discriminate].
  - intros Hm. destruct (IH1 _ _ _ _ Hm) as (s1 & Hm2 & Hle1 & Hlt1).
    destruct (match_re ci r1 s1 k) as [y|] eqn:Hm3; simpl in Hm2.
    + injection Hm2 as ->. destruct (IH1 _ _ _ _ Hm3) as (s2 & Hk & Hle2 & _).
      exists s2. repeat split; [exact Hk | lia |].
      intros Hc. specialize (Hlt1 Hc). lia.
    + exists s1. repeat split; [exact Hm2 | lia | exact Hlt1].
Qed.

(** A match of a consuming pattern is a non-empty piece of the text. *)
Lemma str_match_length s p m :
  consumes (re p) = true -> str_match s p = Some m ->
  (1 <= String.length m <= String.length s)%nat.
Proof.
  intros Hc. unfold str_match.
  destruct (match_re _ _ _ _) as [rest|] eqn:Hm; [|discriminate].
  intros [= <-]. destruct (match_re_rest _ _ _ _ _ Hm) as (s1 & [= ->] & Hle & Hlt).
  specialize (Hlt Hc). rewrite prefix_of_length. lia.
Qed.

Lemma first_match_length type ops expr tok :
  ops_consume ops -> first_match type ops expr = Some tok ->
  (1 <= String.length (Token.value tok) <= String.length expr)%nat.
Proof.
  induction 1 as [|[nm o] ops Ho _ IH]; simpl; [discriminate|].
  destruct (str_match expr (regexp o)) as [m|] eqn:Hm; [|exact IH].
  intros [= <-]. simpl. eapply str_match_length; eauto.
Qed.

Lemma first_group_match_length table expr tok :
  Forall (fun g => ops_consume (snd g)) table ->
  first_group_match table expr = Some tok ->
  (1 <= String.length (Token.value tok) <= String.length expr)%nat.
Proof.
  induction 1 as [|[type ops] table Hg _ IH]; simpl; [discriminate|].
  destruct (first_match type ops expr) as [t|] eqn:Hm; simpl; [|exact IH].
  intros [= <-]. eapply first_match_length; eauto.
Qed.

Lemma _Expressions_consume : Forall (fun g => ops_consume (snd g)) _Expressions.
Proof.
  unfold _Expressions, ops_consume. repeat constructor.
Qed.

(** Every token takes at least one character of the text. *)
Lemma getNextToken_length expr tok :
  getNextToken expr = Ret tok ->
  (1 <= String.length (Token.value tok) <= String.length expr)%nat.
Proof.
  unfold getNextToken.
  destruct (first_group_match _Expressions expr) as [t|] eqn:Hm; [|discriminate].
  intros [= <-]. eapply first_group_match_length; eauto using _Expressions_consume.
Qed.

Lemma tokenize_turn_length s tok :
  getNextToken (trim s) = Ret tok ->
  (String.length (substr (trim s) (String.length (Token.value tok)))
   < String.length s)%nat.
Proof.
  intros Ht. apply getNextToken_length in Ht.
  rewrite substr_length. pose proof (trim_length s). lia.
Qed.

(** The loop of the tokenizer ends within as many turns as the text has
    characters. *)
Lemma tokenize_loop_enough fuel : forall expr toks,
  (String.length expr <= fuel)%nat -> tokenize_loop fuel expr toks <> OutOfFuel.
Proof.
  induction fuel as [|fuel IH]; intros expr toks Hl.
  - destruct expr; simpl in *; [discriminate | lia].
  - destruct expr as [|c expr]; [discriminate|].
    cbn [tokenize_loop].
    destruct (getNextToken (trim (String c expr))) as [tok|e|] eqn:Ht.
    + apply IH. apply tokenize_turn_length in Ht. simpl in *. lia.
    + discriminate.
    + unfold getNextToken in Ht. destruct (first_group_match _ _); discriminate.
Qed.

(** The tokenizer always comes to an end: it returns the tokens or throws. *)
Lemma _tokenize_total expr : _tokenize expr <> OutOfFuel.
Proof.
  unfold _tokenize.
  pose proof (tokenize_loop_enough (String.length expr) expr [] (le_n _)).
  destruct (tokenize_loop _ _ _); congruence.
Qed.

(** More fuel than the text has characters changes nothing. *)
Lemma tokenize_loop_fuel fuel : forall fuel' expr toks,
  (String.length expr <= fuel)%nat -> (String.length expr <= fuel')%nat ->
  tokenize_loop fuel expr toks = tokenize_loop fuel' expr toks.
Proof.
  induction fuel as [|fuel IH]; intros fuel' expr toks Hl Hl'.
  - destruct expr; simpl in *; [destruct fuel'; reflexivity | lia].
  - destruct expr as [|c expr]; [destruct fuel'; reflexivity|].
    destruct fuel' as [|fuel']; [simpl in Hl'; lia|].
    cbn [tokenize_loop].
    destruct (getNextToken (trim (String c expr))) as [tok|e|] eqn:Ht; try reflexivity.
    apply tokenize_turn_length in Ht. apply IH; simpl in *; lia.
Qed.

(** ** The tokenizer never yields a divide token *)

Lemma first_group_match_not_divide expr tok :
  first_group_match _Expressions expr = Some tok ->
  Token.name tok <> VStr TimeType.Divide.
Proof.
  unfold _Expressions.
  cbn [first_group_match first_match regexp op_name op_precedence].
  repeat (destruct (str_match expr _);
          [cbn [or_else]; intros [= <-]; cbn; discriminate|]).
  cbn. discriminate.
Qed.

Lemma tokenize_loop_not_divide fuel : forall expr toks toks',
  Forall (fun tok => Token.name tok <> VStr TimeType.Divide) toks ->
  tokenize_loop fuel expr toks = Ret toks' ->
  Forall (fun tok => Token.name tok <> VStr TimeType.Divide) toks'.
Proof.
  induction fuel as [|fuel IH]; intros expr toks toks' Hall.
  - destruct expr; simpl; [intros [= <-]; exact Hall | discriminate].
  - destruct expr as [|c expr]; [intros [= <-]; exact Hall|].
    cbn [tokenize_loop].
    destruct (getNextToken (trim (String c expr))) as [tok|e|] eqn:Ht;
      [|discriminate..].
    apply IH. apply Forall_app. split; [exact Hall|].
    constructor; [|constructor].
    unfold getNextToken in Ht.
    destruct (first_group_match _ _) as [t|] eqn:Hm; [|discriminate].
    injection Ht as <-. eapply first_group_match_not_divide; eauto.
Qed.

Lemma getNextToken_star rest :
  getNextToken (String "*" rest)
  = Ret {| Token.group := Gbinary; Token.name := VStr TimeType.Multiply;
           Token.precedence := Some 0; Token.value := "*" |}.
Proof.
  unfold getNextToken. cbv -[Nat.sub String.length].
  change (String.length (String "*" rest)) with (S (String.length rest)).
  replace (S (String.length rest) - String.length rest)%nat with 1%nat by lia.
  reflexivity.
Qed.

Lemma getNextToken_slash rest :
  getNextToken (String "/" rest)
  = Throw (SyntaxError ("Unexpected token " +:+ String "/" rest)).
Proof. reflexivity. Qed.

(** C8: the pattern written for divide is the pattern of multiply, which
    comes first in the table; so no token of any tokenized text is a divide
    token, a text starting with a star gives the multiply token, and a
    text starting with a slash matches no pattern at all. *)
Theorem divide_unreachable (s : string) (lx : lexer) :
  _tokenize s = Ret lx ->
  (regexp <$> table_op Gbinary "/") = (regexp <$> table_op Gbinary "*")
  /\ Forall (fun tok => Token.name tok <> VStr TimeType.Divide) (tokens lx)
  /\ (forall rest,
        getNextToken (String "*" rest)
        = Ret {| Token.group := Gbinary; Token.name := VStr TimeType.Multiply;
                 Token.precedence := Some 0; Token.value := "*" |})
  /\ (forall rest,
        getNextToken (String "/" rest)
        = Throw (SyntaxError ("Unexpected token " +:+ String "/" rest))).
Proof.
  intros Ht. split; [reflexivity|]. split.
  - unfold _tokenize in Ht.
    destruct (tokenize_loop _ _ _) as [toks| |] eqn:Hl; [|discriminate..].
    injection Ht as <-. cbn [tokens].
    eapply tokenize_loop_not_divide; [|exact Hl]. constructor.
  - split; [exact getNextToken_star | exact getNextToken_slash].
Qed.

Lemma divide_unreachable_witness :
  _tokenize "2n*3n"
  = Ret {| tokens :=
             [ {| Token.group := Gvalue; Token.name := VStr Units.Duplet;
                  Token.precedence := None; Token.value := "2n" |};
               {| Token.group := Gbinary; Token.name := VStr TimeType.Multiply;
                  Token.precedence := Some 0; Token.value := "*" |};
               {| Token.group := Gvalue; Token.name := VStr Units.Duplet;
                  Token.precedence := None; Token.value := "3n" |} ];
           position := -1 |}
  /\ Forall (fun tok => Token.name tok <> VStr TimeType.Divide)
       [ {| Token.group := Gvalue; Token.name := VStr Units.Duplet;
            Token.precedence := None; Token.value := "2n" |};
         {| Token.group := Gbinary; Token.name := VStr TimeType.Multiply;
            Token.precedence := Some 0; Token.value := "*" |};
         {| Token.group := Gvalue; Token.name := VStr Units.Duplet;
            Token.precedence := None; Token.value := "3n" |} ].
Proof.
  split; [reflexivity|].
  exact (proj1 (proj2 (divide_unreachable "2n*3n" _ eq_refl))).
Defined.

(** ** Text that no pattern matches *)

Lemma tokenize_loop_unmatched s r :
  reaches s r ->
  r <> EmptyString ->
  first_group_match _Expressions (trim r) = None ->
  forall fuel toks, (String.length s <= fuel)%nat ->
  tokenize_loop fuel s toks = Throw (SyntaxError ("Unexpected token " +:+ trim r)).
Proof.
  induction 1 as [s|s tok r Hne Htok Hreach IH]; intros Hr Hnone fuel toks Hl.
  - destruct s as [|c s]; [congruence|].
    destruct fuel as [|fuel]; [simpl in Hl; lia|].
    cbn [tokenize_loop]. unfold getNextToken. now rewrite Hnone.
  - destruct s as [|c s]; [congruence|].
    destruct fuel as [|fuel]; [simpl in Hl; lia|].
    cbn [tokenize_loop]. rewrite Htok.
    apply IH; auto. apply tokenize_turn_length in Htok. simpl in *. lia.
Qed.

(** C6 (amended): when the loop of the tokenizer comes to a remainder that
    is not empty and that, once trimmed, no pattern matches, [_tokenize]
    throws a SyntaxError whose message names that trimmed remainder, and
    returns no tokens. *)
Theorem tokenize_unmatched (s r : string) :
  reaches s r ->
  r <> EmptyString ->
  first_group_match _Expressions (trim r) = None ->
  _tokenize s = Throw (SyntaxError ("Unexpected token " +:+ trim r)).
Proof.
  intros Hreach Hr Hnone. unfold _tokenize.
  now rewrite (tokenize_loop_unmatched s r Hreach Hr Hnone _ [] (le_n _)).
Qed.

Lemma reaches_4x : reaches "4x" "x".
Proof.
  eapply reaches_turn with (tok := {| Token.group := Gvalue;
    Token.name := VStr Units.Seconds; Token.precedence := None; Token.value := "4" |}).
  - discriminate.
  - reflexivity.
  - apply reaches_here.
Defined.

Lemma tokenize_unmatched_witness :
  _tokenize "4x" = Throw (SyntaxError "Unexpected token x").
Proof.
  apply (tokenize_unmatched "4x" "x" reaches_4x).
  - discriminate.
  - reflexivity.
Defined.

(** C6, as stated, fails on its own example: for ["4x"] the leading digit is
    a token of its own (seconds), and the message names ["x"], not ["4x"]. *)
Lemma tokenize_4x_names_x :
  _tokenize "4x" = Throw (SyntaxError ("Unexpected token " +:+ "x"))
  /\ _tokenize "4x" <> Throw (SyntaxError ("Unexpected token " +:+ "4x")).
Proof.
  split; [reflexivity | discriminate].
Qed.

(** ** A leading minus sign *)

Lemma tokenize_loop_extends fuel : forall expr toks toks',
  tokenize_loop fuel expr toks = Ret toks' -> exists more, toks' = toks ++ more.
Proof.
  induction fuel as [|fuel IH]; intros expr toks toks'.
  - destruct expr; simpl; [|discriminate].
    intros [= <-]. exists []. now rewrite app_nil_r.
  - destruct expr as [|c expr].
    + intros [= <-]. exists []. now rewrite app_nil_r.
    + cbn [tokenize_loop].
      destruct (getNextToken (trim (String c expr))) as [tok|e|]; [|discriminate..].
      intros Hl. apply IH in Hl as [more ->].
      exists (tok :: more). now rewrite <- app_assoc.
Qed.

Lemma trim_minus s : exists r, trim (String "-" s) = String "-" r.
Proof.
  unfold trim. cbn [trim_left]. change (is_ws "-") with false. cbn iota.
  cbn [trim_right]. destruct (trim_right s); eauto.
Qed.

Lemma getNextToken_minus rest : getNextToken (String "-" rest) = Ret minus_token.
Proof.
  unfold getNextToken. cbv -[Nat.sub String.length].
  change (String.length (String "-" rest)) with (S (String.length rest)).
  replace (S (String.length rest) - String.length rest)%nat with 1%nat by lia.
  reflexivity.
Qed.

(** A text that starts with a minus sign starts with the token of binary
    subtraction: the binary group comes before the unary one in the table. *)
Lemma tokenize_minus s lx :
  _tokenize (String "-" s) = Ret lx ->
  exists more, lx = {| tokens := minus_token :: more; position := -1 |}.
Proof.
  unfold _tokenize. cbn [String.length tokenize_loop].
  destruct (trim_minus s) as [r ->]. rewrite getNextToken_minus.
  destruct (tokenize_loop _ _ _) as [toks| |] eqn:Hl; [|discriminate..].
  intros [= <-]. apply tokenize_loop_extends in Hl as [more ->].
  exists more. reflexivity.
Qed.

Lemma parse_minus_first more h k :
  _parseExpression (9 + k) {| tokens := minus_token :: more; position := -1 |} None h
  = (Throw (SyntaxError "Parse error, cannot process token -"), h).
Proof. reflexivity. Qed.

(** C7: a text that starts with a minus sign is never negated: whatever
    follows the sign, parsing the tokens throws a SyntaxError at the sign,
    and allocates nothing. *)
Theorem leading_minus_rejected (s : string) (lx : lexer) (h : heap) (k : nat) :
  _tokenize (String "-" s) = Ret lx ->
  _parseExpression (9 + k) lx None h
  = (Throw (SyntaxError "Parse error, cannot process token -"), h).
Proof.
  intros Ht. apply tokenize_minus in Ht as [more ->]. apply parse_minus_first.
Qed.

Lemma leading_minus_rejected_witness :
  _tokenize "-4n"
  = Ret {| tokens := [ minus_token;
                       {| Token.group := Gvalue; Token.name := VStr Units.Duplet;
                          Token.precedence := None; Token.value := "4n" |} ];
           position := -1 |}
  /\ _parseExpression 9
       {| tokens := [ minus_token;
                      {| Token.group := Gvalue; Token.name := VStr Units.Duplet;
                         Token.precedence := None; Token.value := "4n" |} ];
          position := -1 |} None []
     = (Throw (SyntaxError "Parse error, cannot process token -"), []).
Proof.
  split; [reflexivity|].
  exact (leading_minus_rejected "4n" _ [] 0 eq_refl).
Defined.

(** The whole of [_parseTree] on ["-4n"]. *)
Lemma parseTree_minus_4n :
  _parseTree 9 "-4n" [] = (Throw (SyntaxError "Parse error, cannot process token -"), []).
Proof. reflexivity. Qed.

(** No text gives a token of the unary group: both unary patterns are the
    patterns of binary operators that come first. *)
Lemma first_group_match_not_unary expr tok :
  first_group_match _Expressions expr = Some tok -> Token.group tok <> Gunary.
Proof.
  unfold _Expressions.
  cbn [first_group_match first_match regexp op_name op_precedence].
  repeat (destruct (str_match expr _);
          [cbn [or_else]; intros [= <-]; cbn; discriminate|]).
  cbn. discriminate.
Qed.

(** ** Operators of one tier *)

Lemma alloc3 (h : heap) (A B C : TimeObj) :
  ((h ++ [A]) ++ [B]) ++ [C] = h ++ [A; B; C].
Proof. now rewrite <- !app_assoc. Qed.

(** The addresses [length h + 1] and [length h + 2], written as the lengths
    of the store after one and two allocations. *)
Ltac name_addresses h A B :=
  replace (List.length h + 1)%nat with (List.length (h ++ [A]))
    by (rewrite length_app; reflexivity);
  replace (List.length h + 2)%nat with (List.length ((h ++ [A]) ++ [B]))
    by (rewrite !length_app; cbn [List.length]; lia).

Lemma parse_same_tier (a b c op1 op2 : token) (p : Z) (h : heap) (k : nat) :
  Token.group a = Gvalue -> Token.group b = Gvalue -> Token.group c = Gvalue ->
  Token.group op1 = Gbinary -> Token.group op2 = Gbinary ->
  Token.precedence op1 = Some p -> Token.precedence op2 = Some p ->
  p = 0 \/ p = 1 ->
  _parseExpression (30 + k) {| tokens := [a; op1; b; op2; c]; position := -1 |} None h
  = (Ret (TBinary (Token.name op1) (TTime (List.length h))
            (TBinary (Token.name op2) (TTime (List.length h + 1))
                                      (TTime (List.length h + 2))),
          {| tokens := [a; op1; b; op2; c]; position := 4 |}),
     h ++ [primary_object a; primary_object b; primary_object c]).
Proof.
  destruct a as [ga na pa va], b as [gb nb pb vb], c as [gc nc pc vc],
           op1 as [g1 n1 p1 v1], op2 as [g2 n2 p2 v2].
  cbn [Token.group Token.precedence Token.name Token.value].
  intros -> -> -> -> -> -> -> Hp.
  rewrite <- alloc3.
  name_addresses h (primary_object (Token.Build_t Gvalue na pa va))
                   (primary_object (Token.Build_t Gvalue nb pb vb)).
  destruct Hp as [-> | ->]; reflexivity.
Qed.

(** C4: three values joined by two operators of one tier are not grouped to
    the left as the claim has it: the right operand is parsed at the same
    tier, so the tree is [a op1 (b op2 c)]. *)
Theorem same_tier_nests_right (a b c op1 op2 : token) (p : Z) (h : heap) (k : nat) :
  Token.group a = Gvalue -> Token.group b = Gvalue -> Token.group c = Gvalue ->
  Token.group op1 = Gbinary -> Token.group op2 = Gbinary ->
  Token.precedence op1 = Some p -> Token.precedence op2 = Some p ->
  p = 0 \/ p = 1 ->
  fst (_parseExpression (30 + k)
         {| tokens := [a; op1; b; op2; c]; position := -1 |} None h)
  = Ret (TBinary (Token.name op1) (TTime (List.length h))
           (TBinary (Token.name op2) (TTime (List.length h + 1))
                                     (TTime (List.length h + 2))),
         {| tokens := [a; op1; b; op2; c]; position := 4 |}).
Proof.
  intros. now erewrite parse_same_tier by eassumption.
Qed.

Lemma same_tier_nests_right_witness :
  _tokenize "8n-4n-2n"
  = Ret {| tokens := [ value_token "n" "8n"; minus_token; value_token "n" "4n";
                       minus_token; value_token "n" "2n" ];
           position := -1 |}
  /\ fst (_parseExpression 30
            {| tokens := [ value_token "n" "8n"; minus_token; value_token "n" "4n";
                           minus_token; value_token "n" "2n" ];
               position := -1 |} None [])
     = Ret (TBinary (VStr "-") (TTime 0) (TBinary (VStr "-") (TTime 1) (TTime 2)),
            {| tokens := [ value_token "n" "8n"; minus_token; value_token "n" "4n";
                           minus_token; value_token "n" "2n" ];
               position := 4 |}).
Proof.
  split; [reflexivity|].
  exact (same_tier_nests_right (value_token "n" "8n") (value_token "n" "4n")
           (value_token "n" "2n") minus_token minus_token 1 [] 0
           eq_refl eq_refl eq_refl eq_refl eq_refl eq_refl eq_refl
           (or_intror eq_refl)).
Defined.

(** The tighter tier does bind first: with a tier-1 operator followed by a
    tier-0 operator the tier-0 node is the right child, and the other way
    round it is the left child. *)
Lemma parse_tier0_after_tier1 (a b c op1 op2 : token) (h : heap) (k : nat) :
  Token.group a = Gvalue -> Token.group b = Gvalue -> Token.group c = Gvalue ->
  Token.group op1 = Gbinary -> Token.group op2 = Gbinary ->
  Token.precedence op1 = Some 1 -> Token.precedence op2 = Some 0 ->
  fst (_parseExpression (30 + k)
         {| tokens := [a; op1; b; op2; c]; position := -1 |} None h)
  = Ret (TBinary (Token.name op1) (TTime (List.length h))
           (TBinary (Token.name op2) (TTime (List.length h + 1))
                                     (TTime (List.length h + 2))),
         {| tokens := [a; op1; b; op2; c]; position := 4 |}).
Proof.
  destruct a as [ga na pa va], b as [gb nb pb vb], c as [gc nc pc vc],
           op1 as [g1 n1 p1 v1], op2 as [g2 n2 p2 v2].
  cbn [Token.group Token.precedence Token.name Token.value].
  intros -> -> -> -> -> -> ->.
  name_addresses h (primary_object (Token.Build_t Gvalue na pa va))
                   (primary_object (Token.Build_t Gvalue nb pb vb)).
  reflexivity.
Qed.

Lemma parse_tier1_after_tier0 (a b c op1 op2 : token) (h : heap) (k : nat) :
  Token.group a = Gvalue -> Token.group b = Gvalue -> Token.group c = Gvalue ->
  Token.group op1 = Gbinary -> Token.group op2 = Gbinary ->
  Token.precedence op1 = Some 0 -> Token.precedence op2 = Some 1 ->
  fst (_parseExpression (30 + k)
         {| tokens := [a; op1; b; op2; c]; position := -1 |} None h)
  = Ret (TBinary (Token.name op2)
           (TBinary (Token.name op1) (TTime (List.length h))
                                     (TTime (List.length h + 1)))
           (TTime (List.length h + 2)),
         {| tokens := [a; op1; b; op2; c]; position := 4 |}).
Proof.
  destruct a as [ga na pa va], b as [gb nb pb vb], c as [gc nc pc vc],
           op1 as [g1 n1 p1 v1], op2 as [g2 n2 p2 v2].
  cbn [Token.group Token.precedence Token.name Token.value].
  intros -> -> -> -> -> -> ->.
  name_addresses h (primary_object (Token.Build_t Gvalue na pa va))
                   (primary_object (Token.Build_t Gvalue nb pb vb)).
  reflexivity.
Qed.

(** ["1m+2n*3n"]: the star node is the right child of the plus node. *)
Lemma parse_1m_plus_2n_times_3n :
  exists lx lx',
    _tokenize "1m+2n*3n" = Ret lx /\
    fst (_parseExpression 30 lx None [])
    = Ret (TBinary (VStr "+") (TTime 0) (TBinary (VStr "*") (TTime 1) (TTime 2)), lx').
Proof. do 2 eexists. split; reflexivity. Qed.

(** ** Tokens of the literal forms *)

Lemma upcase_digit c : is_digit c = true -> upcase c = c.
Proof.
  destruct c as [[] [] [] [] [] [] [] []]; try discriminate; reflexivity.
Qed.

Lemma char_matches_digit ci p c :
  is_digit c = true -> is_digit (upcase p) = false -> is_digit p = false ->
  char_matches ci p c = false.
Proof.
  intros Hc Hup Hp. unfold char_matches. destruct ci.
  - rewrite (upcase_digit c Hc).
    destruct (Ascii.eqb_spec (upcase p) c); [congruence | reflexivity].
  - destruct (Ascii.eqb_spec p c); [congruence | reflexivity].
Qed.

Lemma match_digits_no_digit rest k :
  no_digit_first rest = true -> match_digits rest k = None.
Proof.
  destruct rest as [|c rest]; simpl; [reflexivity|].
  now destruct (is_digit c).
Qed.

(** The longest run of digits is tried first. *)
Lemma match_digits_app N : forall rest k x,
  is_count N = true -> no_digit_first rest = true -> k rest = Some x ->
  match_digits (N +:+ rest) k = Some x.
Proof.
  unfold is_count.
  induction N as [|c N IH]; intros rest k x HN Hrest Hk; [discriminate|].
  rewrite append_cons. cbn [match_digits nonempty all_digits andb] in *.
  apply andb_prop in HN as [Hc HN]. rewrite Hc.
  destruct N as [|c' N].
  - rewrite append_nil, (match_digits_no_digit _ _ Hrest). exact Hk.
  - now rewrite (IH rest k x HN Hrest Hk).
Qed.

Lemma match_digits_none N : forall rest k,
  all_digits N = true -> no_digit_first rest = true ->
  (forall N', all_digits N' = true -> k (N' +:+ rest) = None) ->
  match_digits (N +:+ rest) k = None.
Proof.
  induction N as [|c N IH]; intros rest k HN Hrest Hk.
  - rewrite append_nil. now apply match_digits_no_digit.
  - rewrite append_cons. cbn [match_digits all_digits] in *.
    apply andb_prop in HN as [Hc HN]. rewrite Hc.
    now rewrite (IH rest k HN Hrest Hk), (Hk N HN).
Qed.

(** After digits, a pattern that starts with a character that is not a
    digit fails unless the digits are over. *)
Lemma match_char_after_digits ci p tail rest k N' :
  is_digit (upcase p) = false -> is_digit p = false ->
  all_digits N' = true ->
  match_re ci (RSeq (RChar p) tail) rest k = None ->
  match_re ci (RSeq (RChar p) tail) (N' +:+ rest) k = None.
Proof.
  intros Hup Hp HN Hrest. destruct N' as [|c N']; [exact Hrest|].
  rewrite append_cons. cbn [match_re all_digits] in *.
  apply andb_prop in HN as [Hc _].
  now rewrite (char_matches_digit ci p c Hc Hup Hp).
Qed.

Lemma match_char_after_digits1 ci p rest k N' :
  is_digit (upcase p) = false -> is_digit p = false ->
  all_digits N' = true ->
  match_re ci (RChar p) rest k = None ->
  match_re ci (RChar p) (N' +:+ rest) k = None.
Proof.
  intros Hup Hp HN Hrest. destruct N' as [|c N']; [exact Hrest|].
  rewrite append_cons. cbn [match_re all_digits] in *.
  apply andb_prop in HN as [Hc _].
  now rewrite (char_matches_digit ci p c Hc Hup Hp).
Qed.

Lemma str_match_whole s p :
  match_re (ignore_case p) (re p) s Some = Some "" -> str_match s p = Some s.
Proof.
  unfold str_match. intros ->. cbn [String.length].
  now rewrite Nat.sub_0_r, prefix_of_all.
Qed.

Lemma str_match_none s p :
  match_re (ignore_case p) (re p) s Some = None -> str_match s p = None.
Proof. unfold str_match. now intros ->. Qed.

Lemma is_count_all_digits N : is_count N = true -> all_digits N = true.
Proof. unfold is_count. now intros [_ ?]%andb_prop. Qed.

(** The pattern of a unit letter on a count followed by something else. *)
Lemma unit_pattern_none N p rest :
  all_digits N = true -> no_digit_first rest = true ->
  is_digit (upcase p) = false -> is_digit p = false ->
  match_re true (RChar p) rest Some = None ->
  str_match (N +:+ rest) {| re := RSeq RDigits (RChar p); ignore_case := true |} = None.
Proof.
  intros HN Hrest Hup Hp Hnone. apply str_match_none. cbn [re ignore_case match_re].
  apply match_digits_none; auto.
  intros N' HN'. now apply (match_char_after_digits1 true p rest Some N').
Qed.

Lemma unit_pattern_whole N p u :
  is_count N = true -> is_digit u = false -> char_matches true p u = true ->
  str_match (N +:+ String u "")
    {| re := RSeq RDigits (RChar p); ignore_case := true |}
  = Some (N +:+ String u "").
Proof.
  intros HN Hu Hpu. apply str_match_whole. cbn [re ignore_case match_re].
  apply match_digits_app; auto.
  - cbn. now rewrite Hu.
  - now rewrite Hpu.
Qed.

Lemma hz_pattern_none N rest :
  all_digits N = true -> no_digit_first rest = true ->
  match_re true (RSeq (RChar "h") (RChar "z")) rest Some = None ->
  str_match (N +:+ rest)
    {| re := RSeq RDigits (RSeq (RChar "h") (RChar "z")); ignore_case := true |}
  = None.
Proof.
  intros HN Hrest Hnone. apply str_match_none.
  cbn [re ignore_case]. change (match_re true (RSeq RDigits ?t) ?s ?k)
    with (match_digits s (fun s1 => match_re true t s1 k)).
  apply match_digits_none; auto.
  intros N' HN'. now apply (match_char_after_digits true "h" (RChar "z") rest Some N').
Qed.

Lemma hz_pattern_whole N :
  is_count N = true ->
  str_match (N +:+ "hz")
    {| re := RSeq RDigits (RSeq (RChar "h") (RChar "z")); ignore_case := true |}
  = Some (N +:+ "hz").
Proof.
  intros HN. apply str_match_whole. cbn [re ignore_case].
  change (match_re true (RSeq RDigits ?t) ?s ?k)
    with (match_digits s (fun s1 => match_re true t s1 k)).
  now apply match_digits_app.
Qed.

Ltac table_step :=
  unfold getNextToken, _Expressions;
  cbn [first_group_match first_match regexp op_name op_precedence].

Ltac skip_unit_pattern :=
  rewrite unit_pattern_none by (auto using is_count_all_digits).

Lemma getNextToken_duplet N :
  is_count N = true -> getNextToken (N +:+ "n") = Ret (value_token "n" (N +:+ "n")).
Proof.
  intros HN. table_step.
  now rewrite unit_pattern_whole by auto.
Qed.

Lemma getNextToken_triplet N :
  is_count N = true -> getNextToken (N +:+ "t") = Ret (value_token "t" (N +:+ "t")).
Proof.
  intros HN. table_step. skip_unit_pattern.
  now rewrite unit_pattern_whole by auto.
Qed.

Lemma getNextToken_tick N :
  is_count N = true -> getNextToken (N +:+ "i") = Ret (value_token "i" (N +:+ "i")).
Proof.
  intros HN. table_step. do 3 skip_unit_pattern.
  now rewrite unit_pattern_whole by auto.
Qed.

Lemma getNextToken_hertz N :
  is_count N = true -> getNextToken (N +:+ "hz") = Ret (value_token "hz" (N +:+ "hz")).
Proof.
  intros HN. table_step. do 4 skip_unit_pattern.
  now rewrite hz_pattern_whole by auto.
Qed.

Lemma colon_first_no_digit rest : colon_first rest = true -> no_digit_first rest = true.
Proof.
  destruct rest as [|c rest]; [reflexivity|]. cbn.
  intros ->%Ascii.eqb_eq. reflexivity.
Qed.

Lemma span_digits s : forall ip r,
  span is_digit s = (ip, r) ->
  s = ip +:+ r /\ all_digits ip = true /\ no_digit_first r = true.
Proof.
  induction s as [|c s IH]; intros ip r; cbn [span].
  - intros [= <- <-]. auto.
  - destruct (is_digit c) eqn:Hc.
    + destruct (span is_digit s) as [a b]. intros [= <- <-].
      destruct (IH a b eq_refl) as (-> & Ha & Hb).
      rewrite append_cons. cbn. rewrite Hc. auto.
    + intros [= <- <-]. cbn. rewrite Hc. auto.
Qed.

(** A decimal is a count, or a count, a dot and a count. *)
Lemma is_decimal_inv c :
  is_decimal c = true ->
  exists ip, is_count ip = true /\
    (c = ip \/ exists fp, is_count fp = true /\ c = ip +:+ String "." fp).
Proof.
  unfold is_decimal. destruct (span is_digit c) as [ip r] eqn:Hs.
  apply span_digits in Hs as (-> & Hip & Hr).
  intros [Hne Hrest]%andb_prop. exists ip. split.
  - unfold is_count. now rewrite Hne, Hip.
  - destruct r as [|d r]; [left; apply append_empty_r|].
    right. exists r.
    destruct (Ascii.eqb_spec d "."%char) as [->|Hd]; [auto|].
    exfalso. revert Hrest Hd.
    destruct d as [[] [] [] [] [] [] [] []]; try discriminate; congruence.
Qed.

Lemma match_decimal c rest k x :
  is_decimal c = true -> colon_first rest = true -> k rest = Some x ->
  match_re false re_decimal (c +:+ rest) k = Some x.
Proof.
  intros Hc Hrest Hk. unfold re_decimal.
  change (match_re false (RSeq RDigits ?t) ?s ?k)
    with (match_digits s (fun s1 => match_re false t s1 k)).
  destruct (is_decimal_inv c Hc) as (ip & Hip & [-> | (fp & Hfp & ->)]).
  - apply match_digits_app; auto using colon_first_no_digit.
    cbn [match_re]. destruct rest as [|d rest]; cbn; [exact Hk|].
    cbn in Hrest. apply Ascii.eqb_eq in Hrest as ->. exact Hk.
  - rewrite append_assoc, append_cons. apply match_digits_app; auto.
    cbn [match_re]. change (char_matches false "." ".") with true. cbn iota.
    now rewrite (match_digits_app fp rest k x Hfp (colon_first_no_digit _ Hrest) Hk).
Qed.

(** The pattern of a transport position on [bars:beats:sixteenths]. *)
Lemma transport_pattern_whole bars beats sixteenths :
  is_decimal bars = true -> is_decimal beats = true -> is_decimal sixteenths = true ->
  str_match (bars +:+ ":" +:+ beats +:+ ":" +:+ sixteenths)
    {| re := RSeq (RRep12 (RSeq re_decimal (RChar ":"))) (ROpt re_decimal);
       ignore_case := false |}
  = Some (bars +:+ ":" +:+ beats +:+ ":" +:+ sixteenths).
Proof.
  intros Hb Hq Hs. apply str_match_whole. cbn [re ignore_case].
  change (bars +:+ ":" +:+ beats +:+ ":" +:+ sixteenths)
    with (bars +:+ String ":" (beats +:+ String ":" sixteenths)).
  cbn [match_re].
  apply match_decimal; [exact Hb | reflexivity |].
  change (char_matches false ":" ":") with true. cbn iota.
  rewrite (match_decimal beats (String ":" sixteenths) _ ""); auto.
  change (char_matches false ":" ":") with true. cbn iota.
  rewrite <- (append_empty_r sixteenths) at 1.
  now rewrite (match_decimal sixteenths "" Some "").
Qed.

Lemma decimal_unit_pattern_none c rest p :
  is_decimal c = true -> colon_first rest = true ->
  is_digit (upcase p) = false -> is_digit p = false ->
  char_matches true p "." = false -> char_matches true p ":" = false ->
  str_match (c +:+ rest) {| re := RSeq RDigits (RChar p); ignore_case := true |} = None.
Proof.
  intros Hc Hrest Hup Hp Hdot Hcolon.
  destruct (is_decimal_inv c Hc) as (ip & Hip & [-> | (fp & Hfp & ->)]).
  - apply unit_pattern_none; auto using is_count_all_digits, colon_first_no_digit.
    destruct rest as [|d rest]; [reflexivity|].
    cbn in Hrest. apply Ascii.eqb_eq in Hrest as ->. cbn [match_re]. now rewrite Hcolon.
  - rewrite append_assoc, append_cons.
    apply unit_pattern_none; auto using is_count_all_digits.
    cbn [match_re]. now rewrite Hdot.
Qed.

Lemma decimal_hz_pattern_none c rest :
  is_decimal c = true -> colon_first rest = true ->
  str_match (c +:+ rest)
    {| re := RSeq RDigits (RSeq (RChar "h") (RChar "z")); ignore_case := true |}
  = None.
Proof.
  intros Hc Hrest.
  destruct (is_decimal_inv c Hc) as (ip & Hip & [-> | (fp & Hfp & ->)]).
  - apply hz_pattern_none; auto using is_count_all_digits, colon_first_no_digit.
    destruct rest as [|d rest]; [reflexivity|].
    cbn in Hrest. apply Ascii.eqb_eq in Hrest as ->. reflexivity.
  - rewrite append_assoc, append_cons.
    apply hz_pattern_none; auto using is_count_all_digits.
Qed.

Lemma getNextToken_transport bars beats sixteenths :
  is_decimal bars = true -> is_decimal beats = true -> is_decimal sixteenths = true ->
  getNextToken (bars +:+ ":" +:+ beats +:+ ":" +:+ sixteenths)
  = Ret (value_token "tr" (bars +:+ ":" +:+ beats +:+ ":" +:+ sixteenths)).
Proof.
  intros Hb Hq Hs. table_step.
  rewrite (transport_pattern_whole bars beats sixteenths Hb Hq Hs).
  change (bars +:+ ":" +:+ beats +:+ ":" +:+ sixteenths)
    with (bars +:+ String ":" (beats +:+ String ":" sixteenths)).
  do 4 (rewrite decimal_unit_pattern_none by auto).
  now rewrite decimal_hz_pattern_none by auto.
Qed.

Lemma getNextToken_seconds d :
  is_digit d = true ->
  getNextToken (String d "") = Ret (value_token "s" (String d "")).
Proof.
  destruct d as [[] [] [] [] [] [] [] []]; try discriminate; reflexivity.
Qed.

(** ** A text that is one token *)

Lemma trim_left_no_ws s : no_ws s = true -> trim_left s = s.
Proof.
  destruct s as [|c s]; [reflexivity|]. cbn.
  now intros [->%negb_true_iff _]%andb_prop.
Qed.

Lemma trim_right_no_ws s : no_ws s = true -> trim_right s = s.
Proof.
  induction s as [|c s IH]; [reflexivity|]. cbn.
  intros [Hc Hs]%andb_prop. rewrite (IH Hs).
  apply negb_true_iff in Hc. rewrite Hc. now destruct s.
Qed.

Lemma trim_no_ws s : no_ws s = true -> trim s = s.
Proof.
  intros Hs. unfold trim. now rewrite trim_left_no_ws, trim_right_no_ws.
Qed.

Lemma no_ws_app s t : no_ws (s +:+ t) = no_ws s && no_ws t.
Proof.
  induction s as [|c s IH]; [reflexivity|].
  rewrite append_cons. cbn. rewrite IH. now rewrite andb_assoc.
Qed.

Lemma digit_not_ws c : is_digit c = true -> is_ws c = false.
Proof.
  destruct c as [[] [] [] [] [] [] [] []]; try discriminate; reflexivity.
Qed.

Lemma all_digits_no_ws N : all_digits N = true -> no_ws N = true.
Proof.
  induction N as [|c N IH]; [reflexivity|]. cbn.
  intros [Hc HN]%andb_prop. now rewrite (digit_not_ws c Hc), IH.
Qed.

Lemma is_decimal_no_ws c : is_decimal c = true -> no_ws c = true.
Proof.
  intros Hc. destruct (is_decimal_inv c Hc) as (ip & Hip & [-> | (fp & Hfp & ->)]).
  - auto using all_digits_no_ws, is_count_all_digits.
  - rewrite no_ws_app. cbn.
    now rewrite !all_digits_no_ws by auto using is_count_all_digits.
Qed.

Lemma substr_all s : substr s (String.length s) = "".
Proof. induction s as [|c s IH]; [reflexivity | exact IH]. Qed.

(** A text without white space that one token covers is tokenized to that
    token alone. *)
Lemma tokenize_single s tok :
  no_ws s = true -> getNextToken s = Ret tok -> Token.value tok = s ->
  _tokenize s = Ret {| tokens := [tok]; position := -1 |}.
Proof.
  intros Hws Htok Hval. unfold _tokenize.
  destruct s as [|c s].
  - apply getNextToken_length in Htok. rewrite Hval in Htok. cbn in Htok. lia.
  - cbn [String.length tokenize_loop].
    rewrite (trim_no_ws _ Hws), Htok, Hval, substr_all.
    now destruct (String.length s).
Qed.

Lemma literal_no_ws l : literal_ok l = true -> no_ws (literal_text l) = true.
Proof.
  destruct l as [N|N|N|N|b q s|d]; cbn [literal_ok literal_text]; intros Hok;
    try (rewrite no_ws_app, all_digits_no_ws by auto using is_count_all_digits;
         reflexivity).
  - apply andb_prop in Hok as [[Hb Hq]%andb_prop Hs].
    change (b +:+ ":" +:+ q +:+ ":" +:+ s) with (b +:+ String ":" (q +:+ String ":" s)).
    rewrite no_ws_app. cbn. rewrite no_ws_app. cbn.
    now rewrite !is_decimal_no_ws by auto.
  - cbn. now rewrite (digit_not_ws d Hok).
Qed.

Lemma getNextToken_literal l :
  literal_ok l = true -> getNextToken (literal_text l) = Ret (literal_token l).
Proof.
  destruct l as [N|N|N|N|b q s|d]; cbn [literal_ok literal_text]; intros Hok.
  - now apply getNextToken_duplet.
  - now apply getNextToken_triplet.
  - now apply getNextToken_tick.
  - now apply getNextToken_hertz.
  - apply andb_prop in Hok as [[Hb Hq]%andb_prop Hs].
    now apply getNextToken_transport.
  - now apply getNextToken_seconds.
Qed.

Lemma tokenize_literal l :
  literal_ok l = true ->
  _tokenize (literal_text l) = Ret {| tokens := [literal_token l]; position := -1 |}.
Proof.
  intros Hok. apply tokenize_single; auto using literal_no_ws, getNextToken_literal.
Qed.

(** ** Reading the numbers of a literal *)

Lemma span_digits_app N : forall rest,
  all_digits N = true -> no_digit_first rest = true ->
  span is_digit (N +:+ rest) = (N, rest).
Proof.
  induction N as [|c N IH]; intros rest HN Hrest.
  - rewrite append_nil. destruct rest as [|d rest]; [reflexivity|].
    cbn in *. now destruct (is_digit d).
  - rewrite append_cons. cbn in *. apply andb_prop in HN as [-> HN].
    now rewrite (IH rest HN Hrest).
Qed.

Lemma parseInt_count N rest :
  is_count N = true -> no_digit_first rest = true -> no_x_first rest = true ->
  parseInt (N +:+ rest) = count N.
Proof.
  intros HN Hrest Hx. unfold parseInt, count.
  pose proof (is_count_all_digits N HN) as Hall.
  destruct N as [|c N]; [discriminate|].
  rewrite append_cons. cbn in Hall. apply andb_prop in Hall as [Hc Hall].
  cbn [trim_left]. rewrite (digit_not_ws c Hc).
  assert (Hsign : strip_sign (String c (N +:+ rest)) = (false, String c (N +:+ rest))).
  { revert Hc. destruct c as [[] [] [] [] [] [] [] []]; try discriminate; reflexivity. }
  rewrite Hsign.
  assert (Hradix :
    match String c (N +:+ rest) with
    | String "0" (String "x" r) | String "0" (String "X" r) => (16, r)
    | _ => (10, String c (N +:+ rest))
    end = (10, String c (N +:+ rest))).
  { destruct N as [|c' N].
    - rewrite append_nil. destruct rest as [|d rest].
      + revert Hc. destruct c as [[] [] [] [] [] [] [] []]; try discriminate; reflexivity.
      + cbn in Hx. revert Hc Hx.
        destruct c as [[] [] [] [] [] [] [] []]; try discriminate; try reflexivity;
          destruct d as [[] [] [] [] [] [] [] []]; try discriminate; reflexivity.
    - rewrite append_cons. cbn in Hall. apply andb_prop in Hall as [Hc' _].
      revert Hc Hc'.
      destruct c as [[] [] [] [] [] [] [] []]; try discriminate; try reflexivity;
        destruct c' as [[] [] [] [] [] [] [] []]; try discriminate; reflexivity. }
  rewrite Hradix. change (10 =? 16) with false. cbn iota.
  rewrite <- append_cons.
  rewrite (span_digits_app (String c N) rest); [reflexivity | | exact Hrest].
  cbn. now rewrite Hc, Hall.
Qed.

Lemma split_no_char x s : no_char x s = true -> split x s = [s].
Proof.
  induction s as [|c s IH]; [reflexivity|]. cbn.
  intros [Hc Hs]%andb_prop. apply negb_true_iff in Hc. rewrite Hc.
  now rewrite (IH Hs).
Qed.

Lemma split_app x s rest :
  no_char x s = true -> split x (s +:+ String x rest) = s :: split x rest.
Proof.
  induction s as [|c s IH].
  - intros _. rewrite append_nil. cbn. now rewrite Ascii.eqb_refl.
  - rewrite append_cons. cbn.
    intros [Hc Hs]%andb_prop. apply negb_true_iff in Hc. rewrite Hc.
    now rewrite (IH Hs).
Qed.

Lemma no_char_app x s t : no_char x (s +:+ t) = no_char x s && no_char x t.
Proof.
  induction s as [|c s IH]; [reflexivity|].
  rewrite append_cons. cbn. rewrite IH. now rewrite andb_assoc.
Qed.

Lemma all_digits_no_colon N : all_digits N = true -> no_char ":" N = true.
Proof.
  induction N as [|c N IH]; [reflexivity|]. cbn.
  intros [Hc HN]%andb_prop. rewrite (IH HN), andb_true_r.
  revert Hc. destruct c as [[] [] [] [] [] [] [] []]; try discriminate; reflexivity.
Qed.

Lemma is_decimal_no_colon c : is_decimal c = true -> no_char ":" c = true.
Proof.
  intros Hc. destruct (is_decimal_inv c Hc) as (ip & Hip & [-> | (fp & Hfp & ->)]).
  - auto using all_digits_no_colon, is_count_all_digits.
  - rewrite no_char_app. cbn.
    now rewrite !all_digits_no_colon by auto using is_count_all_digits.
Qed.

Lemma split_transport bars beats sixteenths :
  is_decimal bars = true -> is_decimal beats = true -> is_decimal sixteenths = true ->
  split ":" (bars +:+ ":" +:+ beats +:+ ":" +:+ sixteenths) = [bars; beats; sixteenths].
Proof.
  intros Hb Hq Hs.
  change (bars +:+ ":" +:+ beats +:+ ":" +:+ sixteenths)
    with (bars +:+ String ":" (beats +:+ String ":" sixteenths)).
  now rewrite !split_app, split_no_char by auto using is_decimal_no_colon.
Qed.

(** What [_parsePrimary] stores for the token of a literal. *)
Lemma primary_object_literal l :
  literal_ok l = true -> primary_object (literal_token l) = literal_object l.
Proof.
  destruct l as [N|N|N|N|b q s|d]; cbn [literal_ok]; intros Hok;
    unfold primary_object, literal_token, literal_object, value_token, primary_value;
    cbn [Token.name Token.value literal_text is_str String.eqb Ascii.eqb
         Units.Duplet Units.Triplet Units.Tick Units.Hertz Units.TransportTime
         Units.Seconds Units.Measure orb Bool.eqb defaultArg isUndef].
  - now rewrite parseInt_count.
  - now rewrite parseInt_count.
  - now rewrite parseInt_count.
  - now rewrite parseInt_count.
  - apply andb_prop in Hok as [[Hb Hq]%andb_prop Hs].
    now rewrite split_transport.
  - rewrite <- (append_empty_r (String d "")) at 1.
    rewrite parseInt_count; auto. cbn. now rewrite Hok.
Qed.

(** ** The evaluator *)

Lemma preserves_ret {A} (a : A) : preserves (ret a).
Proof. now intros h. Qed.

Lemma preserves_throw {A} e : preserves (@throw A e).
Proof. now intros h. Qed.

Lemma preserves_out_of_fuel {A} : preserves (@out_of_fuel A).
Proof. now intros h. Qed.

Lemma preserves_lift {A} (o : outcome A) : preserves (lift o).
Proof. now intros h. Qed.

Lemma preserves_read a : preserves (read a).
Proof. intros h. unfold read. now destruct (h !! a). Qed.

Lemma preserves_bind {A B} (m : M A) (f : A -> M B) :
  preserves m -> (forall a, preserves (f a)) -> preserves (bind m f).
Proof.
  intros Hm Hf h. unfold bind. specialize (Hm h).
  destruct (m h) as [[a|e|] h1]; cbn in *; subst; auto.
  apply Hf.
Qed.

Lemma extends_refl {A} (m : M A) : extends m m.
Proof. now intros h v h'. Qed.

Lemma extends_bind {A B} (m m' : M A) (f f' : A -> M B) :
  extends m m' -> (forall a, extends (f a) (f' a)) ->
  extends (bind m f) (bind m' f').
Proof.
  intros Hm Hf h v h'. unfold bind.
  destruct (m h) as [[a|e|] h1] eqn:Hmh; try discriminate.
  rewrite (Hm _ _ _ Hmh). apply Hf.
Qed.

Create HintDb evaluator.

#[local] Hint Resolve preserves_ret preserves_throw preserves_out_of_fuel
  preserves_lift preserves_read extends_refl : evaluator.

Ltac preserves_step :=
  first [ apply preserves_bind; [|intros ?]
        | match goal with
          | |- preserves (if ?b then _ else _) => destruct b
          | |- preserves (match ?x with _ => _ end) => destruct x
          | |- preserves (let _ := _ in _) => cbv zeta
          end
        | solve [auto with evaluator] ].

Section EvaluatorFacts.

Variable StringToNumber : string -> float.
Variable NumberToString : float -> string.

Abbreviation _evalValue := (_evalValue StringToNumber NumberToString).
Abbreviation eval_case := (eval_case StringToNumber NumberToString).
Abbreviation eval := (eval StringToNumber NumberToString).
Abbreviation eval_loop := (eval_loop StringToNumber NumberToString).
Abbreviation apply_chained := (apply_chained StringToNumber NumberToString).
Abbreviation fold_chain := (fold_chain StringToNumber NumberToString).
Abbreviation js_div := (js_div StringToNumber NumberToString).
Abbreviation ToNumber := (ToNumber StringToNumber NumberToString).

Lemma _evalValue_preserves E this : preserves (_evalValue E this).
Proof. unfold _evalValue. repeat preserves_step. Qed.

Lemma eval_case_preserves E operand_eval now val expr :
  (forall a, preserves (operand_eval a)) ->
  preserves (eval_case E operand_eval now val expr).
Proof. intros Hop. unfold eval_case. repeat preserves_step; apply Hop. Qed.

Lemma eval_preserves_both fuel :
  (forall E this now, preserves (eval fuel E this now)) /\
  (forall E this now i val, preserves (eval_loop fuel E this now i val)).
Proof.
  induction fuel as [|fuel [IHe IHl]]; split; intros; cbn [eval eval_loop];
    auto with evaluator.
  - apply preserves_bind; [apply _evalValue_preserves | intros; apply IHl].
  - apply preserves_bind; [apply preserves_read | intros obj].
    destruct (_expressions obj !! i); auto with evaluator.
    apply preserves_bind; [|intros; apply IHl].
    apply eval_case_preserves. intros; apply IHe.
Qed.

(** Evaluation writes nothing to the store. *)
Lemma eval_preserves fuel E this now : preserves (eval fuel E this now).
Proof. apply eval_preserves_both. Qed.

Lemma eval_case_extends E operand_eval operand_eval' now val expr :
  (forall a, extends (operand_eval a) (operand_eval' a)) ->
  extends (eval_case E operand_eval now val expr)
          (eval_case E operand_eval' now val expr).
Proof.
  intros Hop. unfold eval_case.
  repeat match goal with
         | |- extends (if ?b then _ else _) _ => destruct b
         | |- extends (bind _ _) _ =>
             apply extends_bind; [apply Hop | intros; apply extends_refl]
         end; apply extends_refl.
Qed.

Lemma eval_extends_both fuel :
  (forall E this now, extends (eval fuel E this now) (eval (S fuel) E this now)) /\
  (forall E this now i val,
      extends (eval_loop fuel E this now i val) (eval_loop (S fuel) E this now i val)).
Proof.
  induction fuel as [|fuel [IHe IHl]]; split; intros;
    try (intros h v h'; discriminate).
  - change (extends (bind (_evalValue E this)
                       (fun val => eval_loop fuel E this now 0%nat val))
                    (bind (_evalValue E this)
                       (fun val => eval_loop (S fuel) E this now 0%nat val))).
    apply extends_bind; [apply extends_refl | intros; apply IHl].
  - cbn [eval_loop]. apply extends_bind; [apply extends_refl | intros obj].
    destruct (_expressions obj !! i); [|apply extends_refl].
    apply extends_bind; [|intros; apply IHl].
    apply eval_case_extends. intros; apply IHe.
Qed.

(** A result obtained within some bound is obtained within any larger one. *)
Lemma eval_more_fuel fuel k E this now h v h' :
  eval fuel E this now h = (Ret v, h') -> eval (fuel + k) E this now h = (Ret v, h').
Proof.
  intros He. induction k as [|k IH].
  - now rewrite Nat.add_0_r.
  - rewrite Nat.add_succ_r. now apply eval_extends_both.
Qed.

Lemma eval_case_apply E operand_eval now val expr r h :
  (takes_operand (Expr.type expr) = true ->
   operand_eval (Expr.value expr) h = (Ret r, h)) ->
  eval_case E operand_eval now val expr h
  = (Ret (apply_chained E now val expr r), h).
Proof.
  unfold eval_case, apply_chained, takes_operand, bind, ret.
  destruct (is_str (Expr.type expr) TimeType.Add);
    [intros ->; reflexivity|].
  destruct (is_str (Expr.type expr) TimeType.Subtract);
    [intros ->; reflexivity|].
  destruct (is_str (Expr.type expr) TimeType.Multiply);
    [intros ->; reflexivity|].
  destruct (is_str (Expr.type expr) TimeType.Divide);
    [intros ->; reflexivity|].
  destruct (is_str (Expr.type expr) TimeType.Now); [reflexivity|].
  destruct (is_str (Expr.type expr) TimeType.Quantize);
    [intros ->; reflexivity|].
  reflexivity.
Qed.

(** One turn of the loop, once the receiver is known. *)
Lemma eval_loop_turn E fuel this now i val h obj :
  h !! this = Some obj ->
  eval_loop (S fuel) E this now i val h
  = match _expressions obj !! i with
    | Some expr =>
        bind (eval_case E (fun a => eval fuel E a VUndef) now val expr)
             (fun val => eval_loop fuel E this now (S i) val) h
    | None => (Ret val, h)
    end.
Proof.
  intros Hobj. cbn [eval_loop]. unfold bind at 1, read. rewrite Hobj.
  now destruct (_expressions obj !! i).
Qed.

(** The loop from turn [i] on is the fold over the elements from [i] on. *)
Lemma eval_loop_fold E h this obj now F k :
  h !! this = Some obj ->
  forall rest rs, 
  Forall2 (fun expr r => takes_operand (Expr.type expr) = true ->
                         eval F E (Expr.value expr) VUndef h = (Ret r, h)) rest rs ->
  forall i val, drop i (_expressions obj) = rest ->
  eval_loop (List.length rest + 1 + F + k) E this now i val h
  = (Ret (fold_chain E now val (combine rest rs)), h).
Proof.
  intros Hobj rest rs Hall.
  induction Hall as [|expr r rest rs Hr _ IH]; intros i val Hdrop.
  - cbn [List.length Nat.add eval_loop]. unfold bind, read. rewrite Hobj.
    rewrite lookup_ge_None_2; [reflexivity|].
    apply drop_nil_inv in Hdrop. exact Hdrop.
  - cbn [List.length Nat.add eval_loop]. unfold bind at 1, read. rewrite Hobj.
    assert (Hi : _expressions obj !! i = Some expr).
    { rewrite <- (Nat.add_0_r i), <- lookup_drop, Hdrop. reflexivity. }
    rewrite Hi. unfold bind.
    rewrite (eval_case_apply E _ now val expr r h).
    + apply IH. rewrite <- Nat.add_1_r, <- drop_drop, Hdrop. reflexivity.
    + intros Ht. replace (List.length rest + 1 + F + k)%nat
        with (F + (List.length rest + 1 + k))%nat by lia.
      apply eval_more_fuel. auto.
Qed.

(** The evaluation of an object is the fold of its chain over its base
    value, once the operands the chain evaluates have their values. *)
Lemma eval_fold E h this obj now base rs F k :
  h !! this = Some obj ->
  _evalValue E this h = (Ret base, h) ->
  Forall2 (fun expr r => takes_operand (Expr.type expr) = true ->
                         eval F E (Expr.value expr) VUndef h = (Ret r, h))
          (_expressions obj) rs ->
  eval (S (List.length (_expressions obj) + 1 + F + k)) E this now h
  = (Ret (fold_chain E now base (combine (_expressions obj) rs)), h).
Proof.
  intros Hobj Hbase Hall. cbn [eval]. unfold bind. rewrite Hbase.
  now apply (eval_loop_fold E h this obj now F k Hobj _ rs Hall).
Qed.

Lemma common_fuel E h (exprs : list Expr.t) rs :
  Forall2 (fun expr r => takes_operand (Expr.type expr) = true ->
             exists f, eval f E (Expr.value expr) VUndef h = (Ret r, h)) exprs rs ->
  exists F,
  Forall2 (fun expr r => takes_operand (Expr.type expr) = true ->
             eval F E (Expr.value expr) VUndef h = (Ret r, h)) exprs rs.
Proof.
  induction 1 as [|expr r exprs rs Hr _ [F IH]].
  - exists 0%nat. constructor.
  - destruct (takes_operand (Expr.type expr)) eqn:Ht.
    + destruct (Hr eq_refl) as [f Hf]. exists (f + F)%nat. constructor.
      * intros _. now apply eval_more_fuel.
      * eapply Forall2_impl; [exact IH|]. cbn. intros e r' He Hte.
        rewrite Nat.add_comm. apply eval_more_fuel. auto.
    + exists F. constructor; [intros Hx; congruence | exact IH].
Qed.

(** An object without chained operations evaluates to its base value. *)
Lemma eval_no_chain E h this obj now k :
  h !! this = Some obj -> _expressions obj = [] ->
  eval (2 + k) E this now h = _evalValue E this h.
Proof.
  intros Hobj Hnil. cbn [Nat.add eval eval_loop]. unfold bind.
  pose proof (_evalValue_preserves E this h) as Hh.
  destruct (_evalValue E this h) as [[v|e|] h1]; cbn in Hh; subst h1; try reflexivity.
  unfold read. now rewrite Hobj, Hnil.
Qed.

Lemma parse_single_value tok h k :
  Token.group tok = Gvalue ->
  _parseExpression (9 + k) {| tokens := [tok]; position := -1 |} None h
  = (Ret (TTime (List.length h), {| tokens := [tok]; position := 0 |}),
     h ++ [primary_object tok]).
Proof.
  destruct tok as [g n p v]. cbn [Token.group]. intros ->. reflexivity.
Qed.

Lemma read_new (h : heap) obj : read (List.length h) (h ++ [obj]) = (Ret obj, h ++ [obj]).
Proof. unfold read. now rewrite list_lookup_middle. Qed.

Lemma _evalValue_literal E l (h : heap) :
  _evalValue E (List.length h) (h ++ [literal_object l])
  = (Ret (VNum (literal_seconds E l)), h ++ [literal_object l]).
Proof.
  unfold _evalValue, bind. rewrite read_new. now destruct l.
Qed.

Lemma eval_literal E l (h : heap) k :
  eval (2 + k) E (List.length h) VUndef (h ++ [literal_object l])
  = (Ret (VNum (literal_seconds E l)), h ++ [literal_object l]).
Proof.
  rewrite (eval_no_chain E _ _ (literal_object l));
    [apply _evalValue_literal | apply list_lookup_middle; reflexivity
    | now destruct l].
Qed.

(** C1 (amended): for a duplet, triplet, tick or hertz literal, a
    three-part transport position, or a one-digit number, the tokenizer
    returns exactly one token, the value token of the unit with the whole
    text as its value and the cursor before it; the parser reads that token
    (the cursor ends on it) and turns it into one new Time Value holding the
    number read from the text, the tree being that Time Value itself; and
    evaluating that value gives the documented conversion to seconds, under
    any Tempo Context. *)
Theorem literal_evaluates (l : literal) (E : env) (h : heap) (k : nat) :
  literal_ok l = true ->
  _tokenize (literal_text l)
  = Ret {| tokens := [literal_token l]; position := -1 |}
  /\ _parseExpression (9 + k) {| tokens := [literal_token l]; position := -1 |} None h
     = (Ret (TTime (List.length h), {| tokens := [literal_token l]; position := 0 |}),
        h ++ [literal_object l])
  /\ eval (2 + k) E (List.length h) VUndef (h ++ [literal_object l])
     = (Ret (VNum (literal_seconds E l)), h ++ [literal_object l]).
Proof.
  intros Hok. split; [apply tokenize_literal, Hok|]. split.
  - rewrite parse_single_value by reflexivity.
    now rewrite primary_object_literal.
  - apply eval_literal.
Qed.

(** C2: the constructor stores [val] as it is, or the now sentinel when it
    is undefined, with an empty chain, and that one new object is its whole
    effect: a text is kept as a string, never tokenized or parsed; and when
    the units tag is none of the known units the new value evaluates to 0. *)
Theorem constructor_stores_unparsed (val units : jsval) (h : heap) :
  let obj := {| _expressions := []; _units := units;
                _value := if isUndef val then VStr TimeType.Now else val |} in
  Tone_Time val units h = (Ret (List.length h), h ++ [obj])
  /\ (forall s, val = VStr s -> _value obj = VStr s)
  /\ (known_unit units = false ->
      forall E now k,
        eval (2 + k) E (List.length h) now (h ++ [obj]) = (Ret (VNum 0), h ++ [obj])).
Proof.
  intros obj. split; [reflexivity|]. split; [now intros s ->|].
  intros Hunits E now k.
  assert (Hobj : (h ++ [obj]) !! List.length h = Some obj)
    by (apply list_lookup_middle; reflexivity).
  rewrite (eval_no_chain E _ _ obj now k Hobj eq_refl).
  unfold _evalValue, bind. rewrite read_new. cbn [_units obj].
  unfold known_unit in Hunits.
  repeat (apply orb_false_elim in Hunits as [Hunits ?]).
  now repeat match goal with H : is_str _ _ = false |- _ => rewrite H; clear H end.
Qed.

Lemma mul_nan_r (x : float) : (x * nan)%float = nan.
Proof.
  rewrite <- (SF2Prim_Prim2SF (x * nan)), mul_spec.
  change (Prim2SF nan) with S754_nan.
  now destruct (Prim2SF x) as [| | |[] m e].
Qed.

(** The base value the code computes is the documented one, but for a
    measure, where it is NaN. *)
Lemma _evalValue_documented E (h : heap) this obj units documented :
  h !! this = Some obj ->
  _units obj = VStr units ->
  documented_seconds E units (_value obj) = Some documented ->
  _evalValue E this h
  = (Ret (VNum (if String.eqb units Units.Measure then nan else documented)), h).
Proof.
  intros Hobj Hunits Hdoc.
  unfold _evalValue, bind, read. rewrite Hobj, Hunits. unfold is_str.
  unfold documented_seconds in Hdoc.
  destruct (_value obj) as [|x|?|[|[|bars|?|?] [|[|beats|?|?] [|[|six|?|?] [|? ?]]]]];
    try discriminate.
  - destruct (String.eqb_spec units Units.Seconds) as [->|];
      [now injection Hdoc as <-|].
    destruct (String.eqb_spec units Units.Hertz) as [->|];
      [now injection Hdoc as <-|].
    destruct (String.eqb_spec units Units.Measure) as [->|].
    { cbn. unfold js_mul. cbn. now rewrite !mul_nan_r. }
    destruct (String.eqb_spec units Units.Duplet) as [->|];
      [now injection Hdoc as <-|].
    destruct (String.eqb_spec units Units.Triplet) as [->|];
      [now injection Hdoc as <-|].
    destruct (String.eqb_spec units Units.Tick) as [->|];
      [now injection Hdoc as <-|discriminate].
  - destruct (String.eqb_spec units Units.TransportTime) as [->|]; [|discriminate].
    now injection Hdoc as <-.
Qed.

Lemma apply_chained_number E reference (x r : float) expr :
  apply_chained E (reference_now reference) (VNum x) expr (VNum r)
  = VNum (chained_number E reference (Expr.type expr) x r).
Proof.
  unfold apply_chained, chained_number.
  repeat match goal with
         | |- context [is_str ?t ?u] => destruct (is_str t u)
         end; try reflexivity.
  now destruct reference.
Qed.

Lemma fold_chain_numbers E reference (chain : list Expr.t) : forall (rs : list float) base,
  fold_chain E (reference_now reference) (VNum base) (combine chain (map VNum rs))
  = VNum (fold_left (fun val er =>
                       chained_number E reference (Expr.type (fst er)) val (snd er))
                    (combine chain rs) base).
Proof.
  unfold fold_chain.
  induction chain as [|expr chain IH]; intros [|r rs] base; try reflexivity.
  cbn [map combine fold_left fst snd]. now rewrite apply_chained_number, IH.
Qed.

(** C3: for a Time Value whose magnitude is a number (three numbers for a
    transport position) and whose operands evaluate to numbers, [eval]
    folds the chain from the left, in insertion order, over the base value:
    add adds, subtract subtracts, multiply multiplies, divide and quantize
    divide, relative to now adds the reference time, or the clock when
    there is none, and each operand is evaluated by its own [eval] with no
    reference time.  The base value is the documented conversion of the
    magnitude, but for a measure, where the code computes NaN. *)
Theorem eval_folds_chain (E : env) (h : heap) (this : addr) (obj : TimeObj)
    (reference : option float) (units : string) (documented : float)
    (rs : list float) :
  h !! this = Some obj ->
  _units obj = VStr units ->
  documented_seconds E units (_value obj) = Some documented ->
  Forall2 (fun expr r =>
             takes_operand (Expr.type expr) = true ->
             exists f, eval f E (Expr.value expr) VUndef h = (Ret (VNum r), h))
          (_expressions obj) rs ->
  let base := if String.eqb units Units.Measure then nan else documented in
  exists f, forall k,
    eval (f + k) E this (reference_now reference) h
    = (Ret (VNum (fold_left
                    (fun val er =>
                       chained_number E reference (Expr.type (fst er)) val (snd er))
                    (combine (_expressions obj) rs) base)), h).
Proof.
  intros Hobj Hunits Hdoc Hall base.
  pose proof (_evalValue_documented E h this obj units documented Hobj Hunits Hdoc)
    as Hbase. fold base in Hbase.
  assert (Hall' : Forall2 (fun expr r =>
                     takes_operand (Expr.type expr) = true ->
                     exists f, eval f E (Expr.value expr) VUndef h = (Ret r, h))
                  (_expressions obj) (map VNum rs))
    by (apply Forall2_fmap_r; exact Hall).
  apply common_fuel in Hall' as [F Hall'].
  exists (S (List.length (_expressions obj) + 1 + F)). intros k.
  rewrite Nat.add_succ_l.
  rewrite (eval_fold E h this obj _ (VNum base) _ F k Hobj Hbase Hall').
  now rewrite fold_chain_numbers.
Qed.

(** What each kind of chained operation does to a running number. *)
Lemma apply_chained_numbers E now (x y : float) (v : addr) :
  apply_chained E now (VNum x) {| Expr.type := VStr "+"; Expr.value := v |} (VNum y)
  = VNum (x + y)
  /\ apply_chained E now (VNum x) {| Expr.type := VStr "-"; Expr.value := v |} (VNum y)
     = VNum (x - y)
  /\ apply_chained E now (VNum x) {| Expr.type := VStr "*"; Expr.value := v |} (VNum y)
     = VNum (x * y)
  /\ apply_chained E now (VNum x) {| Expr.type := VStr "/"; Expr.value := v |} (VNum y)
     = VNum (x / y)
  /\ apply_chained E now (VNum x) {| Expr.type := VStr "@"; Expr.value := v |} (VNum y)
     = VNum (x / y)
  /\ apply_chained E (VNum y) (VNum x) {| Expr.type := VStr "now"; Expr.value := v |} now
     = VNum (x + y)
  /\ apply_chained E VUndef (VNum x) {| Expr.type := VStr "now"; Expr.value := v |} now
     = VNum (x + clock E).
Proof. repeat split. Qed.

(** ** Division by zero *)

Lemma fold_chain_middle E now base (pre post : list Expr.t) expr
    (before after : list jsval) r :
  List.length pre = List.length before ->
  fold_chain E now base (combine (pre ++ expr :: post) (before ++ r :: after))
  = fold_chain E now
      (apply_chained E now (fold_chain E now base (combine pre before)) expr r)
      (combine post after).
Proof.
  unfold fold_chain. revert before base.
  induction pre as [|e pre IH]; intros [|b before] base Hlen; try discriminate.
  - reflexivity.
  - cbn in Hlen. injection Hlen as Hlen. cbn. now apply IH.
Qed.

(** A quotient by zero is Infinity, -Infinity or NaN. *)
Lemma div_zero_cases (x : float) :
  (x / 0)%float = infinity \/ (x / 0)%float = neg_infinity \/ (x / 0)%float = nan.
Proof.
  rewrite <- (SF2Prim_Prim2SF (x / 0)), div_spec.
  change (Prim2SF 0) with (S754_zero false).
  destruct (Prim2SF x) as [[]|[]| |[] m e]; cbn; auto.
Qed.

(** C9 (amended): no ArithmeticError is ever raised.  A hertz value of
    magnitude 0 evaluates to [1 / 0], which is Infinity; and a chained
    divide or quantize whose operand evaluates to 0, wherever it stands in
    the chain, turns the running value [v] (the fold of the elements before
    it over the base value) into the quotient [v / 0], which is Infinity,
    -Infinity or NaN; [eval] goes on with the elements after it and returns
    (the quotient itself when the element is the last). *)
Theorem zero_divisor_gives_quotient (E : env) (h : heap) (this : addr)
    (obj : TimeObj) (now : jsval) :
  h !! this = Some obj ->
  (_units obj = VStr Units.Hertz -> _value obj = VNum 0 -> _expressions obj = [] ->
   forall k, eval (2 + k) E this now h = (Ret (VNum infinity), h))
  /\ (forall pre expr post base before after,
        _expressions obj = pre ++ expr :: post ->
        Expr.type expr = VStr TimeType.Divide \/ Expr.type expr = VStr TimeType.Quantize ->
        _evalValue E this h = (Ret base, h) ->
        Forall2 (fun expr r =>
                   takes_operand (Expr.type expr) = true ->
                   exists f, eval f E (Expr.value expr) VUndef h = (Ret r, h))
                pre before ->
        Forall2 (fun expr r =>
                   takes_operand (Expr.type expr) = true ->
                   exists f, eval f E (Expr.value expr) VUndef h = (Ret r, h))
                post after ->
        (exists f, eval f E (Expr.value expr) VUndef h = (Ret (VNum 0), h)) ->
        let v := fold_chain E now base (combine pre before) in
        ((ToNumber v / 0)%float = infinity \/ (ToNumber v / 0)%float = neg_infinity
         \/ (ToNumber v / 0)%float = nan)
        /\ exists f', forall k,
             eval (f' + k) E this now h
             = (Ret (fold_chain E now (VNum (ToNumber v / 0)) (combine post after)), h)).
Proof.
  intros Hobj. split.
  - intros Hunits Hvalue Hnil k. rewrite (eval_no_chain E h this obj now k Hobj Hnil).
    unfold _evalValue, bind, read. now rewrite Hobj, Hunits, Hvalue.
  - intros pre expr post base before after Hchain Htype Hbase Hpre Hpost Hop v.
    split; [apply div_zero_cases|].
    assert (Hall : Forall2 (fun expr r =>
                      takes_operand (Expr.type expr) = true ->
                      exists f, eval f E (Expr.value expr) VUndef h = (Ret r, h))
                   (_expressions obj) (before ++ VNum 0 :: after)).
    { rewrite Hchain. apply Forall2_app; [exact Hpre|].
      constructor; [intros _; exact Hop | exact Hpost]. }
    apply common_fuel in Hall as [F Hall].
    exists (S (List.length (_expressions obj) + 1 + F)). intros k.
    rewrite Nat.add_succ_l.
    rewrite (eval_fold E h this obj now base _ F k Hobj Hbase Hall).
    rewrite Hchain, fold_chain_middle by (eapply Forall2_length; exact Hpre).
    fold v. unfold apply_chained at 1.
    now destruct Htype as [-> | ->].
Qed.

(** ** The measure unit *)

(** A measure value whose magnitude is a number evaluates to NaN under any
    Tempo Context: [beatTime] is still undefined where it is used, and the
    magnitude is indexed as if it were an array. *)
Lemma measure_is_nan E (h : heap) this obj now x k :
  h !! this = Some obj ->
  _units obj = VStr Units.Measure -> _value obj = VNum x -> _expressions obj = [] ->
  eval (2 + k) E this now h = (Ret (VNum nan), h).
Proof.
  intros Hobj Hunits Hvalue Hnil.
  rewrite (eval_no_chain E h this obj now k Hobj Hnil).
  unfold _evalValue, bind, read. rewrite Hobj, Hunits, Hvalue. cbn.
  unfold js_mul. cbn. now rewrite !mul_nan_r.
Qed.

(** ** Evaluating twice *)

Lemma _evalValue_transport E E' this :
  Tone_Transport E = Tone_Transport E' -> _evalValue E this = _evalValue E' this.
Proof.
  intros HT. unfold _evalValue, _beatInSeconds, _tickInSeconds, _timeSignature,
    _beatInSeconds. now rewrite HT.
Qed.

Lemma now_free_clock_free h a :
  now_free h a -> exists obj, h !! a = Some obj /\ clock_free h VUndef obj.
Proof.
  intros [a' obj Hobj Hall]. exists obj. split; [exact Hobj|].
  unfold clock_free. eapply Forall_impl; [exact Hall|].
  cbn. intros expr [Hnow Hop]. split; [congruence | exact Hop].
Qed.

Lemma eval_case_clock E E' (operand_eval operand_eval' : addr -> M jsval)
    now val expr h :
  ((is_str (Expr.type expr) TimeType.Now = true -> isUndef now = false)
   /\ (takes_operand (Expr.type expr) = true ->
       operand_eval (Expr.value expr) h = operand_eval' (Expr.value expr) h)) ->
  eval_case E operand_eval now val expr h = eval_case E' operand_eval' now val expr h.
Proof.
  unfold eval_case, takes_operand, bind. intros [Hnow Hop].
  destruct (is_str (Expr.type expr) TimeType.Add); [now rewrite Hop|].
  destruct (is_str (Expr.type expr) TimeType.Subtract); [now rewrite Hop|].
  destruct (is_str (Expr.type expr) TimeType.Multiply); [now rewrite Hop|].
  destruct (is_str (Expr.type expr) TimeType.Divide); [now rewrite Hop|].
  destruct (is_str (Expr.type expr) TimeType.Now).
  { unfold defaultArg. now rewrite Hnow. }
  destruct (is_str (Expr.type expr) TimeType.Quantize); [now rewrite Hop|].
  reflexivity.
Qed.

Lemma eval_clock_both E E' h fuel :
  Tone_Transport E = Tone_Transport E' ->
  (forall this now obj,
      h !! this = Some obj -> clock_free h now obj ->
      eval fuel E this now h = eval fuel E' this now h)
  /\ (forall this now obj i val,
        h !! this = Some obj -> clock_free h now obj ->
        eval_loop fuel E this now i val h = eval_loop fuel E' this now i val h).
Proof.
  intros HT. induction fuel as [|fuel [IHe IHl]]; split; intros; try reflexivity.
  - cbn [eval]. unfold bind. rewrite (_evalValue_transport E E' this HT).
    pose proof (_evalValue_preserves E' this h) as Hh.
    destruct (_evalValue E' this h) as [[v|e|] h1]; cbn in Hh; subst h1;
      try reflexivity.
    eapply IHl; eauto.
  - rewrite (eval_loop_turn E fuel this now i val h obj H),
            (eval_loop_turn E' fuel this now i val h obj H).
    destruct (_expressions obj !! i) as [expr|] eqn:Hi; [|reflexivity].
    unfold bind.
    assert (Hcase : eval_case E (fun a => eval fuel E a VUndef) now val expr h
                    = eval_case E' (fun a => eval fuel E' a VUndef) now val expr h).
    { apply eval_case_clock.
      unfold clock_free in H0. rewrite Forall_lookup in H0.
      destruct (H0 i expr Hi) as [Hnow Hop]. split; [exact Hnow|].
      intros Ht. destruct (now_free_clock_free h _ (Hop Ht)) as (obj' & Hobj' & Hfree).
      eapply IHe; eauto. }
    rewrite Hcase.
    pose proof (eval_case_preserves E' (fun a => eval fuel E' a VUndef) now val expr
                  (fun a => eval_preserves fuel E' a VUndef) h) as Hh.
    destruct (eval_case E' _ now val expr h) as [[v|e|] h1]; cbn in Hh; subst h1;
      try reflexivity.
    eapply IHl; eauto.
Qed.

(** C10 (amended): [eval] leaves the store as it was, and a second
    evaluation with the same Tempo Context and the same reference time gives
    the same outcome as the first, provided the clock reads the same, or a
    reference time is supplied and no operand carries a relative-to-now
    element. *)
Theorem eval_twice (E E' : env) (fuel : nat) (this : addr) (now : jsval) (h : heap) :
  Tone_Transport E = Tone_Transport E' ->
  clock E = clock E' \/ (isUndef now = false /\ operands_now_free h this) ->
  snd (eval fuel E this now h) = h
  /\ eval fuel E' this now (snd (eval fuel E this now h)) = eval fuel E this now h.
Proof.
  intros HT Hclock. pose proof (eval_preserves fuel E this now h) as Hh.
  split; [exact Hh|]. rewrite Hh.
  destruct Hclock as [Hc | [Hnow (obj & Hobj & Hall)]].
  - destruct E, E'; cbn in *; now subst.
  - symmetry. eapply (eval_clock_both E E' h fuel HT); [exact Hobj|].
    unfold clock_free. eapply Forall_impl; [exact Hall|].
    cbn. intros expr Hop. split; [intros _; exact Hnow | exact Hop].
Qed.

End EvaluatorFacts.

(** ** Instances *)

(** ["4n"] under BPM = 120: one beat lasts 0.5 s, and the value is 4 beats. *)
Lemma literal_evaluates_witness :
  literal_ok (Duplet "4") = true
  /\ forall sn ns c,
       _tokenize "4n" = Ret {| tokens := [value_token "n" "4n"]; position := -1 |}
       /\ _parseExpression 9 {| tokens := [value_token "n" "4n"]; position := -1 |} None []
          = (Ret (TTime 0, {| tokens := [value_token "n" "4n"]; position := 0 |}),
             [literal_object (Duplet "4")])
       /\ eval sn ns 2 (with_tempo120 c) 0 VUndef [literal_object (Duplet "4")]
          = (Ret (VNum 2), [literal_object (Duplet "4")]).
Proof.
  split; [reflexivity|]. intros sn ns c.
  exact (literal_evaluates sn ns (Duplet "4") (with_tempo120 c) [] 0 eq_refl).
Defined.

(** C1, as stated, fails on its own example: ["4n"] is tokenized and parsed
    into a duplet of magnitude 4, which evaluates to 2 seconds, not 0.5; and
    [_parseTree], which goes on to traverse the tree, throws a TypeError. *)
Lemma literal_4n_is_not_half_a_second :
  (forall sn ns c, exists lx lx',
      _tokenize "4n" = Ret lx
      /\ _parseExpression 9 lx None []
         = (Ret (TTime 0, lx'),
            [{| _expressions := []; _units := VStr "n"; _value := VNum 4 |}])
      /\ eval sn ns 2 (with_tempo120 c) 0 VUndef
           [{| _expressions := []; _units := VStr "n"; _value := VNum 4 |}]
         = (Ret (VNum 2),
            [{| _expressions := []; _units := VStr "n"; _value := VNum 4 |}]))
  /\ VNum 2 <> VNum 0.5
  /\ _parseTree 9 "4n" []
     = (Throw TypeError, [{| _expressions := []; _units := VStr "n"; _value := VNum 4 |}]).
Proof.
  split; [|split; [discriminate | reflexivity]].
  intros sn ns c. do 2 eexists. repeat split.
Qed.

(** The other literal forms under BPM = 120, time signature 4, PPQ = 192. *)
Lemma literals_at_tempo120 c :
  literal_seconds (with_tempo120 c) (Triplet "4") = (2 * (2 / 3))%float
  /\ literal_seconds (with_tempo120 c) (Tick "192") = 0.5%float
  /\ literal_seconds (with_tempo120 c) (Hertz "4") = 0.25%float
  /\ literal_seconds (with_tempo120 c) (TransportTime "1" "2" "0") = 3%float
  /\ literal_seconds (with_tempo120 c) (Seconds "7") = 7%float.
Proof. repeat split. Qed.

Lemma constructor_stores_unparsed_witness :
  known_unit VUndef = false
  /\ forall sn ns E now,
       Tone_Time (VStr "4n+1m") VUndef []
       = (Ret 0%nat, [{| _expressions := []; _units := VUndef; _value := VStr "4n+1m" |}])
       /\ eval sn ns 2 E 0 now
            [{| _expressions := []; _units := VUndef; _value := VStr "4n+1m" |}]
          = (Ret (VNum 0),
             [{| _expressions := []; _units := VUndef; _value := VStr "4n+1m" |}]).
Proof.
  split; [reflexivity|]. intros sn ns E now.
  pose proof (constructor_stores_unparsed sn ns (VStr "4n+1m") VUndef []) as (H1 & _ & H3).
  split; [exact H1 | exact (H3 eq_refl E now 0%nat)].
Defined.

(** [(1 + 2) * 3 + 10]: the operations apply in the order they were added;
    and the measure of [Tone.Time(1, "m").add(1, "s")], documented as 2
    seconds at BPM = 120 in 4, makes the sum NaN. *)
Lemma eval_folds_chain_witness :
  chain_example [] = (Ret 0%nat, chain_heap)
  /\ (forall sn ns E, exists f, forall k,
        eval sn ns (f + k) E 0 (VNum 10) chain_heap = (Ret (VNum 19), chain_heap))
  /\ measure_sum_example [] = (Ret 0%nat, measure_sum_heap)
  /\ (forall c, documented_seconds (with_tempo120 c) "m" (VNum 1) = Some 2%float)
  /\ (forall sn ns c, exists f, forall k,
        eval sn ns (f + k) (with_tempo120 c) 0 VUndef measure_sum_heap
        = (Ret (VNum nan), measure_sum_heap)).
Proof.
  split; [reflexivity|]. split.
  { intros sn ns E.
    refine (eval_folds_chain sn ns E chain_heap 0 _ (Some 10%float) "s" 1%float
              [2; 3; 0]%float eq_refl eq_refl eq_refl _).
    repeat constructor; cbn; try discriminate; intros _; exists 2%nat; reflexivity. }
  split; [reflexivity|]. split; [reflexivity|].
  intros sn ns c.
  refine (eval_folds_chain sn ns (with_tempo120 c) measure_sum_heap 0 _ None "m" 2%float
            [1%float] eq_refl eq_refl eq_refl _).
  repeat constructor. intros _. exists 2%nat. reflexivity.
Defined.

Lemma zero_divisor_gives_quotient_witness :
  zero_hertz_heap !! 0%nat
  = Some {| _expressions := []; _units := VStr "hz"; _value := VNum 0 |}
  /\ (forall sn ns E now k,
        eval sn ns (2 + k) E 0 now zero_hertz_heap = (Ret (VNum infinity), zero_hertz_heap))
  /\ sum_div_zero_example [] = (Ret 0%nat, sum_div_zero_heap)
  /\ (forall sn ns E now, exists f, forall k,
        eval sn ns (f + k) E 0 now sum_div_zero_heap
        = (Ret (VNum neg_infinity), sum_div_zero_heap)).
Proof.
  split; [reflexivity|]. split.
  - intros sn ns E now.
    exact (proj1 (zero_divisor_gives_quotient sn ns E zero_hertz_heap 0 _ now eq_refl)
             eq_refl eq_refl eq_refl).
  - split; [reflexivity|]. intros sn ns E now.
    refine (proj2 (proj2 (zero_divisor_gives_quotient sn ns E sum_div_zero_heap 0 _ now
                            eq_refl)
                     [ {| Expr.type := VStr "+"; Expr.value := 1 |} ]
                     {| Expr.type := VStr "/"; Expr.value := 2 |}
                     [ {| Expr.type := VStr "*"; Expr.value := 3 |} ]
                     (VNum 1) [VNum 5] [VNum (-2)]
                     eq_refl (or_introl eq_refl) eq_refl _ _ _)).
    + repeat constructor. intros _. exists 2%nat. reflexivity.
    + repeat constructor. intros _. exists 2%nat. reflexivity.
    + exists 2%nat. reflexivity.
Defined.

(** C9, as stated, fails: a hertz value of magnitude 0, a division by a
    value that evaluates to 0 and a quantization of 0 by 0 all return, with
    Infinity, Infinity and NaN; nothing is thrown. *)
Lemma zero_divisors_return :
  (forall sn ns E now,
      eval sn ns 2 E 0 now zero_hertz_heap = (Ret (VNum infinity), zero_hertz_heap))
  /\ div_zero_example [] = (Ret 0%nat, div_zero_heap)
  /\ (forall sn ns E now,
        eval sn ns 5 E 0 now div_zero_heap = (Ret (VNum infinity), div_zero_heap))
  /\ quantize_zero_example [] = (Ret 0%nat, quantize_zero_heap)
  /\ (forall sn ns E now,
        eval sn ns 5 E 0 now quantize_zero_heap = (Ret (VNum nan), quantize_zero_heap)).
Proof. repeat split. Qed.

(** C10, as stated, fails: the operand [b] is evaluated with no reference
    time, so it reads the clock; with the same Tempo Context and the same
    reference time 0 supplied, the value is 2 when the clock reads 1 and 3
    when it reads 2. *)
Lemma nested_now_reads_the_clock :
  nested_now_example [] = (Ret 0%nat, nested_now_heap)
  /\ Tone_Transport (with_tempo120 1) = Tone_Transport (with_tempo120 2)
  /\ (forall sn ns,
        eval sn ns 6 (with_tempo120 1) 0 (VNum 0) nested_now_heap
        = (Ret (VNum 2), nested_now_heap))
  /\ (forall sn ns,
        eval sn ns 6 (with_tempo120 2) 0 (VNum 0) nested_now_heap
        = (Ret (VNum 3), nested_now_heap)).
Proof. repeat split. Qed.

Lemma chain_heap_operands_now_free : operands_now_free chain_heap 0.
Proof.
  eexists. split; [reflexivity|].
  repeat constructor; intros _; econstructor; try reflexivity; constructor.
Defined.

(** The chain of [chain_heap] ends with a relative-to-now element of its
    own, and its operands have none: with the reference time 10 supplied,
    the clock does not matter. *)
Lemma eval_twice_witness :
  Tone_Transport (with_tempo120 1) = Tone_Transport (with_tempo120 2)
  /\ isUndef (VNum 10) = false
  /\ forall sn ns,
       snd (eval sn ns 8 (with_tempo120 1) 0 (VNum 10) chain_heap) = chain_heap
       /\ eval sn ns 8 (with_tempo120 2) 0 (VNum 10)
            (snd (eval sn ns 8 (with_tempo120 1) 0 (VNum 10) chain_heap))
          = eval sn ns 8 (with_tempo120 1) 0 (VNum 10) chain_heap.
Proof.
  split; [reflexivity|]. split; [reflexivity|]. intros sn ns.
  exact (eval_twice sn ns (with_tempo120 1) (with_tempo120 2) 8 0 (VNum 10) chain_heap
           eq_refl (or_intror (conj eq_refl chain_heap_operands_now_free))).
Defined.

(** C5: with no transport, the measure literal ["1m"] is tokenized and
    parsed into a measure of magnitude 1, which evaluates to NaN, not 0. *)
Theorem measure_without_transport_is_nan (sn : string -> float) (ns : float -> string)
    (c : float) :
  exists lx lx',
    _tokenize "1m" = Ret lx
    /\ _parseExpression 9 lx None []
       = (Ret (TTime 0, lx'),
          [{| _expressions := []; _units := VStr "m"; _value := VNum 1 |}])
    /\ eval sn ns 2 (without_transport c) 0 VUndef
         [{| _expressions := []; _units := VStr "m"; _value := VNum 1 |}]
       = (Ret (VNum nan),
          [{| _expressions := []; _units := VStr "m"; _value := VNum 1 |}]).
Proof. do 2 eexists. repeat split. Qed.

(** The rest of what C5 says does hold: with no transport a duplet and a
    tick literal evaluate to 0, and 2 seconds stay 2 seconds. *)
Lemma others_without_transport sn ns c :
  (forall h k, eval sn ns (2 + k) (without_transport c) (List.length h) VUndef
                 (h ++ [literal_object (Duplet "4")])
               = (Ret (VNum 0), h ++ [literal_object (Duplet "4")]))
  /\ (forall h k, eval sn ns (2 + k) (without_transport c) (List.length h) VUndef
                    (h ++ [literal_object (Tick "3")])
                  = (Ret (VNum 0), h ++ [literal_object (Tick "3")]))
  /\ (forall h k, eval sn ns (2 + k) (without_transport c) (List.length h) VUndef
                    (h ++ [{| _expressions := []; _units := VStr "s"; _value := VNum 2 |}])
                  = (Ret (VNum 2),
                     h ++ [{| _expressions := []; _units := VStr "s"; _value := VNum 2 |}])).
Proof.
  repeat split; intros h k.
  - exact (eval_literal sn ns (without_transport c) (Duplet "4") h k).
  - exact (eval_literal sn ns (without_transport c) (Tick "3") h k).
  - set (obj := {| _expressions := []; _units := VStr "s"; _value := VNum 2 |}).
    assert (Hobj : (h ++ [obj]) !! List.length h = Some obj)
      by (apply list_lookup_middle; reflexivity).
    rewrite (eval_no_chain sn ns _ _ _ obj VUndef k Hobj eq_refl).
    unfold _evalValue, bind. now rewrite read_new.
Qed.

(** ["2s"] is no literal of the tokenizer: the digit is a token, and the
    letter matches no pattern. *)
Lemma tokenize_2s : _tokenize "2s" = Throw (SyntaxError "Unexpected token s").
Proof. reflexivity. Qed.

(** ** Traversal of the tree *)

Lemma traverse_alone_never_returns fuel t type h :
  forall v h', _traverseTree fuel (Some t) None type h <> (Ret v, h').
Proof.
  intros v h'. destruct fuel as [|fuel]; [discriminate|].
  destruct t as [a|ty l r|op m l]; cbn; try discriminate; unfold bind;
    destruct (_traverseTree fuel _ _ _ h) as [[x|e|] h1]; discriminate.
Qed.

(** [_parseTree] calls [_traverseTree] with the tree alone, and so never
    returns: whatever the text, it throws (or the bound of the model is
    reached). *)
Lemma _parseTree_never_returns fuel exprString h :
  forall t h', _parseTree fuel exprString h <> (Ret t, h').
Proof.
  intros t h'. unfold _parseTree, bind, lift.
  destruct (_tokenize exprString) as [lx|e|]; try discriminate.
  destruct (_parseExpression fuel lx None h) as [[[tr lx']|e|] h1]; try discriminate.
  pose proof (traverse_alone_never_returns fuel tr VUndef h1) as Hn.
  destruct (_traverseTree fuel (Some tr) None VUndef h1) as [[x|e|] h2];
    try discriminate.
  exfalso. exact (Hn x h2 eq_refl).
Qed.

(** * Further properties of the code *)

(** ** What the tokenizer keeps of the text *)

Lemma upcase_ws c : is_ws c = true -> upcase c = c.
Proof.
  destruct c as [[] [] [] [] [] [] [] []]; try discriminate; reflexivity.
Qed.

Lemma char_matches_no_ws ci p c :
  negb (is_ws p) && negb (is_ws (upcase p)) = true ->
  char_matches ci p c = true -> is_ws c = false.
Proof.
  intros [Hp Hup]%andb_prop Hm.
  apply negb_true_iff in Hp. apply negb_true_iff in Hup.
  destruct (is_ws c) eqn:Hc; [|reflexivity].
  unfold char_matches in Hm. destruct ci.
  - rewrite (upcase_ws c Hc) in Hm. apply Ascii.eqb_eq in Hm. congruence.
  - apply Ascii.eqb_eq in Hm. congruence.
Qed.

Lemma match_digits_prefix s k x :
  match_digits s k = Some x ->
  exists pre s1, s = pre +:+ s1 /\ k s1 = Some x /\ no_ws pre = true.
Proof.
  induction s as [|c s IH]; simpl; [discriminate|].
  destruct (is_digit c) eqn:Hc; [|discriminate].
  destruct (match_digits s k) as [y|] eqn:Hd; simpl; intros Hx.
  - injection Hx as ->. destruct (IH eq_refl) as (pre & s1 & -> & Hk & Hws).
    exists (String c pre), s1. repeat split; [exact Hk|].
    cbn. now rewrite (digit_not_ws c Hc), Hws.
  - exists (String c ""), s. repeat split; [exact Hx|].
    cbn. now rewrite (digit_not_ws c Hc).
Qed.

(** What a pattern takes from the front of the text holds no white space. *)
Lemma match_re_prefix r : forall ci s k x,
  re_no_ws r = true ->
  match_re ci r s k = Some x ->
  exists pre s1, s = pre +:+ s1 /\ k s1 = Some x /\ no_ws pre = true.
Proof.
  induction r as [p| | |r1 IH1 r2 IH2|r1 IH1|r1 IH1]; intros ci s k x Hr; simpl.
  - destruct s as [|c s]; [discriminate|].
    destruct (char_matches ci p c) eqn:Hm; [|discriminate].
    intros Hk. exists (String c ""), s. repeat split; [exact Hk|].
    cbn. now rewrite (char_matches_no_ws ci p c Hr Hm).
  - destruct s as [|c s]; [discriminate|].
    destruct (is_digit c) eqn:Hc; [|discriminate].
    intros Hk. exists (String c ""), s. repeat split; [exact Hk|].
    cbn. now rewrite (digit_not_ws c Hc).
  - apply match_digits_prefix.
  - cbn in Hr. apply andb_prop in Hr as [Hr1 Hr2]. intros Hm.
    destruct (IH1 _ _ _ _ Hr1 Hm) as (pre1 & s1 & -> & Hm2 & Hws1).
    destruct (IH2 _ _ _ _ Hr2 Hm2) as (pre2 & s2 & -> & Hk & Hws2).
    exists (pre1 +:+ pre2), s2. rewrite append_assoc. repeat split; [exact Hk|].
    now rewrite no_ws_app, Hws1, Hws2.
  - cbn in Hr. destruct (match_re ci r1 s k) as [y|] eqn:Hm; simpl; intros Hx.
    + injection Hx as ->. exact (IH1 _ _ _ _ Hr Hm).
    + exists "", s. repeat split. exact Hx.
  - cbn in Hr. intros Hm.
    destruct (IH1 _ _ _ _ Hr Hm) as (pre1 & s1 & -> & Hm2 & Hws1).
    destruct (match_re ci r1 s1 k) as [y|] eqn:Hm3; simpl in Hm2.
    + injection Hm2 as ->.
      destruct (IH1 _ _ _ _ Hr Hm3) as (pre2 & s2 & -> & Hk & Hws2).
      exists (pre1 +:+ pre2), s2. rewrite append_assoc. repeat split; [exact Hk|].
      now rewrite no_ws_app, Hws1, Hws2.
    + exists pre1, s1. repeat split; [exact Hm2 | exact Hws1].
Qed.

Lemma prefix_of_app pre rest :
  prefix_of (pre +:+ rest) (String.length (pre +:+ rest) - String.length rest) = pre.
Proof.
  rewrite append_length.
  replace (String.length pre + String.length rest - String.length rest)%nat
    with (String.length pre) by lia.
  induction pre as [|c pre IH]; [now destruct rest|].
  rewrite append_cons. cbn. now rewrite IH.
Qed.

Lemma substr_app pre rest : substr (pre +:+ rest) (String.length pre) = rest.
Proof.
  induction pre as [|c pre IH]; [now destruct rest|].
  rewrite append_cons. exact IH.
Qed.

Lemma str_match_prefix s p m :
  re_no_ws (re p) = true -> str_match s p = Some m ->
  no_ws m = true /\ s = m +:+ substr s (String.length m).
Proof.
  intros Hr. unfold str_match.
  destruct (match_re _ _ _ _) as [rest|] eqn:Hm; [|discriminate].
  intros [= <-].
  destruct (match_re_prefix _ _ _ _ _ Hr Hm) as (pre & s1 & -> & [= ->] & Hws).
  now rewrite prefix_of_app, substr_app.
Qed.

Lemma getNextToken_prefix expr tok :
  getNextToken expr = Ret tok ->
  no_ws (Token.value tok) = true
  /\ expr = Token.value tok +:+ substr expr (String.length (Token.value tok)).
Proof.
  unfold getNextToken, _Expressions.
  cbn [first_group_match first_match regexp op_name op_precedence].
  repeat (destruct (str_match expr _) as [m|] eqn:Hm;
          [cbn [or_else]; intros [= <-]; cbn [Token.value];
           eapply str_match_prefix; [|exact Hm]; reflexivity | clear Hm]).
  cbn. discriminate.
Qed.

Lemma strip_ws_app s t : strip_ws (s +:+ t) = strip_ws s +:+ strip_ws t.
Proof.
  induction s as [|c s IH]; [reflexivity|].
  rewrite append_cons. cbn. destruct (is_ws c); [exact IH|].
  now rewrite append_cons, IH.
Qed.

Lemma strip_ws_no_ws s : no_ws s = true -> strip_ws s = s.
Proof.
  induction s as [|c s IH]; [reflexivity|]. cbn.
  intros [Hc Hs]%andb_prop. apply negb_true_iff in Hc. now rewrite Hc, IH.
Qed.

Lemma strip_ws_trim_left s : strip_ws (trim_left s) = strip_ws s.
Proof.
  induction s as [|c s IH]; [reflexivity|]. cbn.
  destruct (is_ws c) eqn:Hc; [exact IH|]. cbn. now rewrite Hc.
Qed.

Lemma strip_ws_trim_right s : strip_ws (trim_right s) = strip_ws s.
Proof.
  induction s as [|c s IH]; [reflexivity|]. cbn.
  destruct (trim_right s) as [|d r] eqn:Hr.
  - destruct (is_ws c) eqn:Hc; cbn; rewrite ?Hc; now rewrite <- IH.
  - cbn [strip_ws] in *. now rewrite IH.
Qed.

Lemma strip_ws_trim s : strip_ws (trim s) = strip_ws s.
Proof. unfold trim. now rewrite strip_ws_trim_right, strip_ws_trim_left. Qed.

Lemma token_text_app toks toks' :
  token_text (toks ++ toks') = token_text toks +:+ token_text toks'.
Proof.
  induction toks as [|tok toks IH]; [reflexivity|].
  cbn. now rewrite IH, append_assoc.
Qed.

Lemma tokenize_loop_text fuel : forall expr toks toks',
  tokenize_loop fuel expr toks = Ret toks' ->
  token_text toks' = token_text toks +:+ strip_ws expr.
Proof.
  induction fuel as [|fuel IH]; intros expr toks toks'.
  - destruct expr; simpl; [|discriminate].
    intros [= <-]. now rewrite append_empty_r.
  - destruct expr as [|c expr].
    + intros [= <-]. now rewrite append_empty_r.
    + cbn [tokenize_loop].
      destruct (getNextToken (trim (String c expr))) as [tok|e|] eqn:Ht;
        [|discriminate..].
      intros Hl. rewrite (IH _ _ _ Hl), token_text_app. cbn [token_text].
      rewrite append_empty_r, append_assoc. f_equal.
      rewrite <- (strip_ws_trim (String c expr)).
      destruct (getNextToken_prefix _ _ Ht) as [Hws Heq].
      rewrite Heq at 2. now rewrite strip_ws_app, (strip_ws_no_ws _ Hws).
Qed.

(** X1: no character is lost or invented: the texts of the tokens, put one
    after the other, are the text given, less its white space. *)
Theorem tokens_cover_text (s : string) (lx : lexer) :
  _tokenize s = Ret lx -> token_text (tokens lx) = strip_ws s.
Proof.
  unfold _tokenize.
  destruct (tokenize_loop _ _ _) as [toks| |] eqn:Hl; [|discriminate..].
  intros [= <-]. cbn [tokens]. now rewrite (tokenize_loop_text _ _ _ _ Hl).
Qed.

Lemma tokens_cover_text_witness :
  _tokenize " 4n + (1:2:0 @ 8t) "
  = Ret {| tokens := [ value_token "n" "4n";
                       {| Token.group := Gbinary; Token.name := VStr "+";
                          Token.precedence := Some 1; Token.value := "+" |};
                       {| Token.group := Gglue; Token.name := VUndef;
                          Token.precedence := None; Token.value := "(" |};
                       value_token "tr" "1:2:0";
                       {| Token.group := Gbinary; Token.name := VStr "@";
                          Token.precedence := Some 0; Token.value := "@" |};
                       value_token "t" "8t";
                       {| Token.group := Gglue; Token.name := VUndef;
                          Token.precedence := None; Token.value := ")" |} ];
           position := -1 |}
  /\ token_text [ value_token "n" "4n";
                  {| Token.group := Gbinary; Token.name := VStr "+";
                     Token.precedence := Some 1; Token.value := "+" |};
                  {| Token.group := Gglue; Token.name := VUndef;
                     Token.precedence := None; Token.value := "(" |};
                  value_token "tr" "1:2:0";
                  {| Token.group := Gbinary; Token.name := VStr "@";
                     Token.precedence := Some 0; Token.value := "@" |};
                  value_token "t" "8t";
                  {| Token.group := Gglue; Token.name := VUndef;
                     Token.precedence := None; Token.value := ")" |} ]
     = "4n+(1:2:0@8t)".
Proof.
  split; [reflexivity|].
  exact (tokens_cover_text " 4n + (1:2:0 @ 8t) " _ eq_refl).
Defined.

(** ** The tokenizer comes to an end *)

Lemma tokenize_loop_finishes fuel : forall expr toks,
  (String.length expr <= fuel)%nat ->
  (exists more,
      tokenize_loop fuel expr toks = Ret (toks ++ more)
      /\ (List.length more <= String.length expr)%nat
      /\ Forall (fun tok => Token.value tok <> EmptyString) more)
  \/ (exists r, tokenize_loop fuel expr toks
                = Throw (SyntaxError ("Unexpected token " +:+ r))).
Proof.
  induction fuel as [|fuel IH]; intros expr toks Hl.
  - destruct expr; simpl in *; [|lia].
    left. exists []. rewrite app_nil_r. repeat split; [simpl; lia | constructor].
  - destruct expr as [|c expr].
    + left. exists []. rewrite app_nil_r. repeat split; [simpl; lia | constructor].
    + cbn [tokenize_loop].
      destruct (getNextToken (trim (String c expr))) as [tok|e|] eqn:Ht.
      * pose proof (getNextToken_length _ _ Ht) as Hlen.
        pose proof (tokenize_turn_length _ _ Ht) as Hturn.
        assert (Hfuel : (String.length (substr (trim (String c expr))
                                         (String.length (Token.value tok))) <= fuel)%nat)
          by (simpl in *; lia).
        destruct (IH _ (toks ++ [tok]) Hfuel) as [(more & -> & Hn & Hall) | [r ->]];
          [|right; eauto].
        left. exists (tok :: more). rewrite <- app_assoc. repeat split.
        -- cbn [List.length]. lia.
        -- constructor; [|exact Hall].
           intros Hv. rewrite Hv in Hlen. simpl in Hlen. lia.
      * right. unfold getNextToken in Ht.
        destruct (first_group_match _ _); [discriminate|].
        injection Ht as <-. eauto.
      * unfold getNextToken in Ht. destruct (first_group_match _ _); discriminate.
Qed.

(** X2: the loop of the tokenizer always ends: every token takes at least one
    character, so a text of [n] characters gives at most [n] tokens, none of
    them empty, with the cursor before the first; the only other outcome is
    the SyntaxError of [getNextToken]. *)
Theorem tokenize_finishes (s : string) :
  (exists lx,
      _tokenize s = Ret lx
      /\ position lx = -1
      /\ (List.length (tokens lx) <= String.length s)%nat
      /\ Forall (fun tok => Token.value tok <> EmptyString) (tokens lx))
  \/ (exists r, _tokenize s = Throw (SyntaxError ("Unexpected token " +:+ r))).
Proof.
  unfold _tokenize.
  destruct (tokenize_loop_finishes (String.length s) s [] (le_n _))
    as [(more & -> & Hn & Hall) | [r ->]]; [left | right; eauto].
  eexists. repeat split; [exact Hn | exact Hall].
Qed.

(** ** No unary token *)

Lemma tokenize_loop_not_unary fuel : forall expr toks toks',
  Forall (fun tok => Token.group tok <> Gunary) toks ->
  tokenize_loop fuel expr toks = Ret toks' ->
  Forall (fun tok => Token.group tok <> Gunary) toks'.
Proof.
  induction fuel as [|fuel IH]; intros expr toks toks' Hall.
  - destruct expr; simpl; [intros [= <-]; exact Hall | discriminate].
  - destruct expr as [|c expr]; [intros [= <-]; exact Hall|].
    cbn [tokenize_loop].
    destruct (getNextToken (trim (String c expr))) as [tok|e|] eqn:Ht;
      [|discriminate..].
    apply IH. apply Forall_app. split; [exact Hall|].
    constructor; [|constructor].
    unfold getNextToken in Ht.
    destruct (first_group_match _ _) as [t|] eqn:Hm; [|discriminate].
    injection Ht as <-. eapply first_group_match_not_unary; eauto.
Qed.

(** X3: the tokenizer gives no token of the unary group, whatever the text:
    a minus or a plus sign is always the binary operator, whose pattern
    comes first. *)
Theorem no_unary_token (s : string) (lx : lexer) :
  _tokenize s = Ret lx ->
  Forall (fun tok => Token.group tok <> Gunary) (tokens lx).
Proof.
  unfold _tokenize.
  destruct (tokenize_loop _ _ _) as [toks| |] eqn:Hl; [|discriminate..].
  intros [= <-]. cbn [tokens].
  eapply tokenize_loop_not_unary; [|exact Hl]. constructor.
Qed.

Lemma no_unary_token_witness :
  _tokenize "+4n-2n"
  = Ret {| tokens := [ plus_token; value_token "n" "4n"; minus_token;
                       value_token "n" "2n" ];
           position := -1 |}
  /\ Forall (fun tok => Token.group tok <> Gunary)
       [ plus_token; value_token "n" "4n"; minus_token; value_token "n" "2n" ].
Proof.
  split; [reflexivity|]. exact (no_unary_token "+4n-2n" _ eq_refl).
Defined.

(** ** What the parser leaves unread *)

(** X4: the parser stops, without an error, at the first token that is not
    a binary operator: after a value, anything else is left unread, and the
    tree is the value alone.  So ["12"], which is two one-digit tokens, is
    parsed as 1. *)
Theorem trailing_tokens_ignored (a t : token) (rest : list token) (h : heap) (k : nat) :
  Token.group a = Gvalue -> Token.group t <> Gbinary ->
  _parseExpression (9 + k) {| tokens := a :: t :: rest; position := -1 |} None h
  = (Ret (TTime (List.length h), {| tokens := a :: t :: rest; position := 0 |}),
     h ++ [primary_object a]).
Proof.
  destruct a as [ga na pa va], t as [gt nt pt vt].
  cbn [Token.group]. intros -> Hgt.
  destruct gt; [reflexivity | reflexivity | congruence | reflexivity].
Qed.

Lemma trailing_tokens_ignored_witness :
  _tokenize "12"
  = Ret {| tokens := [value_token "s" "1"; value_token "s" "2"]; position := -1 |}
  /\ _parseExpression 9
       {| tokens := [value_token "s" "1"; value_token "s" "2"]; position := -1 |} None []
     = (Ret (TTime 0,
             {| tokens := [value_token "s" "1"; value_token "s" "2"]; position := 0 |}),
        [{| _expressions := []; _units := VStr "s"; _value := VNum 1 |}]).
Proof.
  split; [reflexivity|].
  refine (trailing_tokens_ignored (value_token "s" "1") (value_token "s" "2") [] [] 0
            eq_refl _).
  discriminate.
Defined.

(** ** Parentheses *)

(** X5: parentheses do group: in [(a op1 b) op2 c] the node of [op1] is the
    left child of the node of [op2], whatever the tiers of the two
    operators. *)
Theorem parentheses_group (a b c op1 op2 : token) (p1 p2 : Z) (h : heap) (k : nat) :
  Token.group a = Gvalue -> Token.group b = Gvalue -> Token.group c = Gvalue ->
  Token.group op1 = Gbinary -> Token.group op2 = Gbinary ->
  Token.precedence op1 = Some p1 -> Token.precedence op2 = Some p2 ->
  (p1 = 0 \/ p1 = 1) -> (p2 = 0 \/ p2 = 1) ->
  _parseExpression (40 + k)
    {| tokens := [open_paren; a; op1; b; close_paren; op2; c]; position := -1 |} None h
  = (Ret (TBinary (Token.name op2)
            (TBinary (Token.name op1) (TTime (List.length h))
                                      (TTime (List.length h + 1)))
            (TTime (List.length h + 2)),
          {| tokens := [open_paren; a; op1; b; close_paren; op2; c]; position := 6 |}),
     h ++ [primary_object a; primary_object b; primary_object c]).
Proof.
  destruct a as [ga na pa va], b as [gb nb pb vb], c as [gc nc pc vc],
           op1 as [g1 n1 q1 v1], op2 as [g2 n2 q2 v2].
  cbn [Token.group Token.precedence Token.name Token.value].
  intros -> -> -> -> -> -> -> H1 H2.
  rewrite <- alloc3.
  name_addresses h (primary_object (Token.Build_t Gvalue na pa va))
                   (primary_object (Token.Build_t Gvalue nb pb vb)).
  destruct H1 as [-> | ->], H2 as [-> | ->]; reflexivity.
Qed.

Lemma parentheses_group_witness :
  _tokenize "(8n-4n)-2n"
  = Ret {| tokens := [ open_paren; value_token "n" "8n"; minus_token;
                       value_token "n" "4n"; close_paren; minus_token;
                       value_token "n" "2n" ];
           position := -1 |}
  /\ fst (_parseExpression 40
            {| tokens := [ open_paren; value_token "n" "8n"; minus_token;
                           value_token "n" "4n"; close_paren; minus_token;
                           value_token "n" "2n" ];
               position := -1 |} None [])
     = Ret (TBinary (VStr "-") (TBinary (VStr "-") (TTime 0) (TTime 1)) (TTime 2),
            {| tokens := [ open_paren; value_token "n" "8n"; minus_token;
                           value_token "n" "4n"; close_paren; minus_token;
                           value_token "n" "2n" ];
               position := 6 |}).
Proof.
  split; [reflexivity|].
  exact (f_equal fst
           (parentheses_group (value_token "n" "8n") (value_token "n" "4n")
              (value_token "n" "2n") minus_token minus_token 1 1 [] 0
              eq_refl eq_refl eq_refl eq_refl eq_refl eq_refl eq_refl
              (or_intror eq_refl) (or_intror eq_refl))).
Defined.

(** ** Errors of the parser *)

(** X6: a token that cannot start an expression, that is a binary operator or
    a glue token other than the opening parenthesis, makes the parser throw
    a SyntaxError that names the text of the token, and allocate nothing. *)
Theorem parse_error_names_token (t : token) (rest : list token) (h : heap) (k : nat) :
  Token.group t = Gbinary
  \/ (Token.group t = Gglue /\ Token.value t <> "(") ->
  _parseExpression (9 + k) {| tokens := t :: rest; position := -1 |} None h
  = (Throw (SyntaxError ("Parse error, cannot process token " +:+ Token.value t)), h).
Proof.
  destruct t as [gt nt pt vt]. cbn [Token.group Token.value].
  intros [-> | [-> Hv]]; [reflexivity|].
  destruct vt as [|c vt]; [reflexivity|].
  destruct c as [[] [] [] [] [] [] [] []]; try reflexivity.
  destruct vt; [congruence | reflexivity].
Qed.

Lemma parse_error_names_token_witness :
  _tokenize ",4n"
  = Ret {| tokens := [ {| Token.group := Gglue; Token.name := VUndef;
                          Token.precedence := None; Token.value := "," |};
                       value_token "n" "4n" ];
           position := -1 |}
  /\ _parseExpression 9
       {| tokens := [ {| Token.group := Gglue; Token.name := VUndef;
                         Token.precedence := None; Token.value := "," |};
                      value_token "n" "4n" ];
          position := -1 |} None []
     = (Throw (SyntaxError "Parse error, cannot process token ,"), []).
Proof.
  split; [reflexivity|].
  refine (parse_error_names_token
            {| Token.group := Gglue; Token.name := VUndef;
               Token.precedence := None; Token.value := "," |}
            [value_token "n" "4n"] [] 0 (or_intror (conj eq_refl _))).
  discriminate.
Defined.

(** ** Stores the fluent interface builds *)

Lemma wf_obj_longer h more obj : wf_obj h obj -> wf_obj (h ++ more) obj.
Proof.
  intros [Hv Hall]. split; [exact Hv|].
  eapply Forall_impl; [exact Hall|]. cbn. intros expr He.
  rewrite length_app. lia.
Qed.

Lemma wf_obj_same_length h h' obj :
  List.length h' = List.length h -> wf_obj h obj -> wf_obj h' obj.
Proof. intros Hl [Hv Hall]. split; [exact Hv|]. now rewrite Hl. Qed.

Lemma wf_constructed h val units : wf_obj h (constructed val units).
Proof. split; [now destruct val | constructor]. Qed.

Lemma wf_heap_alloc h obj : wf_heap h -> wf_obj (h ++ [obj]) obj -> wf_heap (h ++ [obj]).
Proof.
  intros Hh Hobj. apply Forall_app. split; [|now constructor].
  eapply Forall_impl; [exact Hh|]. intros o. apply wf_obj_longer.
Qed.

Lemma wf_heap_insert h this obj' :
  wf_heap h -> wf_obj h obj' -> wf_heap (<[this := obj']> h).
Proof.
  intros Hh Hobj. unfold wf_heap.
  apply Forall_insert.
  - eapply Forall_impl; [exact Hh|]. intros o.
    apply wf_obj_same_length. apply length_insert.
  - eapply wf_obj_same_length; [apply length_insert | exact Hobj].
Qed.

Lemma wf_pushed h obj type v :
  wf_obj h obj -> (v < List.length h)%nat -> wf_obj h (pushed obj type v).
Proof.
  intros [Hv Hall] Hlt. split; [exact Hv|]. cbn.
  apply Forall_app. split; [exact Hall | now repeat constructor].
Qed.

Lemma _pushExpr_raw (h : heap) this obj v type units :
  h !! this = Some obj ->
  _pushExpr this (AVal v) type units h
  = (Ret this,
     <[this := pushed obj type (List.length h)]> (h ++ [constructed v units])).
Proof.
  intros Hobj. unfold _pushExpr, bind, Tone_Time, alloc, read, write, ret.
  now rewrite (lookup_app_l_Some _ _ _ _ Hobj).
Qed.

Lemma _pushExpr_time (h : heap) this obj a type units :
  h !! this = Some obj ->
  _pushExpr this (ATime a) type units h
  = (Ret this, <[this := pushed obj type a]> h).
Proof.
  intros Hobj. unfold _pushExpr, bind, read, write, ret. now rewrite Hobj.
Qed.

(** X11: the constructor and [_pushExpr] keep the store well formed: every
    magnitude stays defined (an undefined one becomes the now sentinel) and
    every chain element points into the store, provided the receiver and an
    argument that is a Time Value are in the store. *)
Theorem store_stays_well_formed (h : heap) :
  wf_heap h ->
  (forall val units, wf_heap (snd (Tone_Time val units h)))
  /\ (forall this v type units,
        (this < List.length h)%nat ->
        wf_heap (snd (_pushExpr this (AVal v) type units h)))
  /\ (forall this a type units,
        (this < List.length h)%nat -> (a < List.length h)%nat ->
        wf_heap (snd (_pushExpr this (ATime a) type units h))).
Proof.
  intros Hh. split; [|split].
  - intros val units. cbn. apply wf_heap_alloc; [exact Hh | apply wf_constructed].
  - intros this v type units Hthis.
    destruct (lookup_lt_is_Some_2 h this Hthis) as [obj Hobj].
    rewrite (_pushExpr_raw h this obj v type units Hobj). cbn [snd].
    apply wf_heap_insert.
    + apply wf_heap_alloc; [exact Hh | apply wf_constructed].
    + apply wf_pushed.
      * apply wf_obj_longer. unfold wf_heap in Hh. rewrite Forall_lookup in Hh. eauto.
      * rewrite length_app. cbn. lia.
  - intros this a type units Hthis Ha.
    destruct (lookup_lt_is_Some_2 h this Hthis) as [obj Hobj].
    rewrite (_pushExpr_time h this obj a type units Hobj). cbn [snd].
    apply wf_heap_insert; [exact Hh|].
    apply wf_pushed; [|exact Ha].
    unfold wf_heap in Hh. rewrite Forall_lookup in Hh. eauto.
Qed.

Lemma store_stays_well_formed_witness :
  wf_heap []
  /\ wf_heap (snd (Tone_Time (VNum 1) (VStr "s") []))
  /\ wf_heap (snd (chain_example [])).
Proof.
  assert (H0 : wf_heap []) by constructor.
  split; [exact H0|]. split.
  - exact (proj1 (store_stays_well_formed [] H0) (VNum 1) (VStr "s")).
  - repeat constructor.
Defined.

(** ** Evaluation on well-formed stores *)

Section EvaluatorOnStores.

Variable StringToNumber : string -> float.
Variable NumberToString : float -> string.

Abbreviation _evalValue := (_evalValue StringToNumber NumberToString).
Abbreviation eval_case := (eval_case StringToNumber NumberToString).
Abbreviation eval := (eval StringToNumber NumberToString).
Abbreviation eval_loop := (eval_loop StringToNumber NumberToString).
Abbreviation apply_chained := (apply_chained StringToNumber NumberToString).
Abbreviation fold_chain := (fold_chain StringToNumber NumberToString).

Lemma eval_start E fuel this now h :
  eval (S fuel) E this now h
  = bind (_evalValue E this) (fun val => eval_loop fuel E this now 0%nat val) h.
Proof. reflexivity. Qed.

Lemma is_str_true v s : is_str v s = true -> v = VStr s.
Proof.
  destruct v as [|x|s'|xs]; cbn; try discriminate.
  now intros ->%String.eqb_eq.
Qed.

Lemma js_index_returns v i :
  isUndef v = false -> exists x, js_index v i = Ret x.
Proof.
  destruct v as [|x|s|xs]; cbn; [discriminate|eauto| |]; intros _.
  - destruct (String.get i s); eauto.
  - destruct (xs !! i); eauto.
Qed.

(** The base value of an object whose magnitude is defined. *)
Lemma _evalValue_returns E (h : heap) this obj :
  h !! this = Some obj -> isUndef (_value obj) = false ->
  exists base, _evalValue E this h = (Ret base, h).
Proof.
  intros Hobj Hv. unfold _evalValue, bind, read, lift, ret. rewrite Hobj.
  destruct (js_index_returns (_value obj) 0 Hv) as [x0 H0].
  destruct (js_index_returns (_value obj) 1 Hv) as [x1 H1].
  destruct (js_index_returns (_value obj) 2 Hv) as [x2 H2].
  rewrite H0, H1, H2.
  repeat match goal with
         | |- context [if ?b then _ else _] => destruct b
         end; eauto.
Qed.

Lemma eval_case_never_throws E (operand_eval : addr -> M jsval) now val expr h :
  (forall e h', operand_eval (Expr.value expr) h <> (Throw e, h')) ->
  forall e h', eval_case E operand_eval now val expr h <> (Throw e, h').
Proof.
  intros Hop e h'. unfold eval_case, bind, ret.
  repeat match goal with
         | |- context [if ?b then _ else _] => destruct b
         end;
    try discriminate;
    destruct (operand_eval (Expr.value expr) h) as [[v|e'|] h1] eqn:Hcase;
    try discriminate; exfalso; exact (Hop _ _ eq_refl).
Qed.

Lemma eval_never_throws_both (h : heap) E fuel :
  wf_heap h ->
  (forall this now e h', (this < List.length h)%nat ->
      eval fuel E this now h <> (Throw e, h'))
  /\ (forall this now i val e h', (this < List.length h)%nat ->
        eval_loop fuel E this now i val h <> (Throw e, h')).
Proof.
  intros Hh. unfold wf_heap in Hh. rewrite Forall_lookup in Hh.
  induction fuel as [|fuel [IHe IHl]]; split; intros; try discriminate.
  - destruct (lookup_lt_is_Some_2 h this H) as [obj Hobj].
    destruct (Hh _ _ Hobj) as [Hv _].
    destruct (_evalValue_returns E h this obj Hobj Hv) as [base Hbase].
    cbn [eval]. unfold bind. rewrite Hbase. now apply IHl.
  - destruct (lookup_lt_is_Some_2 h this H) as [obj Hobj].
    rewrite (eval_loop_turn StringToNumber NumberToString E fuel this now i val h obj Hobj).
    destruct (_expressions obj !! i) as [expr|] eqn:Hi; [|discriminate].
    destruct (Hh _ _ Hobj) as [_ Hall]. rewrite Forall_lookup in Hall.
    specialize (Hall _ _ Hi). cbn in Hall.
    unfold bind.
    pose proof (eval_case_preserves StringToNumber NumberToString E
                  (fun a => eval fuel E a VUndef) now val expr
                  (fun a => eval_preserves StringToNumber NumberToString fuel E a VUndef) h)
      as Hpres.
    destruct (eval_case E _ now val expr h) as [[v|e'|] h1] eqn:Hcase;
      cbn in Hpres; subst h1; [now apply IHl | | discriminate].
    exfalso. revert Hcase. apply eval_case_never_throws.
    intros e0 h0. now apply IHe.
Qed.

(** X13: on a well-formed store, whose magnitudes are of the documented
    kinds (numbers, strings, arrays of them), [eval] raises no error of its
    own, whatever the units and the chains: within every bound of recursion
    it has either returned a value, with the store as it was, or it is
    still recursing (which never ends on a store with a cycle, where
    JavaScript gives up with the RangeError of the engine). *)
Theorem eval_returns_or_recurses (h : heap) (E : env) (fuel : nat) (this : addr)
    (now : jsval) :
  wf_heap h -> (this < List.length h)%nat ->
  (exists v, eval fuel E this now h = (Ret v, h))
  \/ eval fuel E this now h = (OutOfFuel, h).
Proof.
  intros Hh Hthis.
  pose proof (proj1 (eval_never_throws_both h E fuel Hh) this now) as Hno.
  pose proof (eval_preserves StringToNumber NumberToString fuel E this now h) as Hsame.
  destruct (eval fuel E this now h) as [[v|e|] h1]; cbn in Hsame; subst h1.
  - left. eauto.
  - now destruct (Hno e h Hthis).
  - now right.
Qed.

(** ** Evaluation comes to an end *)

Lemma operand_values E (h : heap) (P : addr -> Prop) :
  (forall a, P a -> exists f v, eval f E a VUndef h = (Ret v, h)) ->
  forall chain : list Expr.t,
  Forall (fun expr => takes_operand (Expr.type expr) = true -> P (Expr.value expr)) chain ->
  exists rs,
    Forall2 (fun expr r => takes_operand (Expr.type expr) = true ->
               exists f, eval f E (Expr.value expr) VUndef h = (Ret r, h)) chain rs.
Proof.
  intros HP chain Hall. induction Hall as [|expr chain Hexpr _ [rs IH]].
  - exists []. constructor.
  - destruct (takes_operand (Expr.type expr)) eqn:Ht.
    + destruct (HP _ (Hexpr eq_refl)) as (f & v & Hf).
      exists (v :: rs). constructor; [eauto | exact IH].
    + exists (VUndef :: rs). constructor; [intros Hx; congruence | exact IH].
Qed.

Lemma eval_returns_below (h : heap) rank E :
  wf_heap h -> ranked h rank ->
  forall n this now, (rank this < n)%nat -> (this < List.length h)%nat ->
  exists fuel v, forall k, eval (fuel + k) E this now h = (Ret v, h).
Proof.
  intros Hh Hr. pose proof Hh as Hwf. unfold wf_heap in Hwf.
  rewrite Forall_lookup in Hwf.
  induction n as [|n IH]; intros this now Hn Hthis; [lia|].
  destruct (lookup_lt_is_Some_2 h this Hthis) as [obj Hobj].
  destruct (Hwf _ _ Hobj) as [Hv Hall].
  destruct (_evalValue_returns E h this obj Hobj Hv) as [base Hbase].
  destruct (operand_values E h
              (fun a => (rank a < n)%nat /\ (a < List.length h)%nat)) with
    (chain := _expressions obj) as [rs Hrs].
  - intros a [Hra Ha]. destruct (IH a VUndef Hra Ha) as (f & v & Hf).
    exists f, v. specialize (Hf 0%nat). now rewrite Nat.add_0_r in Hf.
  - rewrite Forall_forall. intros expr Hin Ht. split.
    + apply list_elem_of_In in Hin. specialize (Hr this obj expr Hobj Hin Ht). lia.
    + rewrite Forall_forall in Hall. now apply Hall.
  - apply common_fuel in Hrs as [F Hrs].
    exists (S (List.length (_expressions obj) + 1 + F)),
           (fold_chain E now base (combine (_expressions obj) rs)).
    intros k. rewrite Nat.add_succ_l.
    exact (eval_fold StringToNumber NumberToString E h this obj now base rs F k
             Hobj Hbase Hrs).
Qed.

(** X14: on a well-formed store without a cycle, [eval] returns a value for
    every object and every reference time: some bound of recursion is
    enough, and every larger one gives the same value. *)
Theorem eval_returns (h : heap) (rank : addr -> nat) (E : env) (this : addr)
    (now : jsval) :
  wf_heap h -> ranked h rank -> (this < List.length h)%nat ->
  exists fuel v, forall k, eval (fuel + k) E this now h = (Ret v, h).
Proof.
  intros Hh Hr Hthis.
  exact (eval_returns_below h rank E Hh Hr (S (rank this)) this now (le_n _) Hthis).
Qed.

(** X15: an object that is its own first operand never evaluates: whatever
    the bound of recursion, the bound is reached (in JavaScript, the stack
    overflows).  [a.add(a)] makes such an object. *)
Theorem self_operand_never_evaluates (h : heap) (E : env) (this : addr)
    (obj : TimeObj) (type : jsval) (rest : list Expr.t) :
  h !! this = Some obj ->
  isUndef (_value obj) = false ->
  _expressions obj = {| Expr.type := type; Expr.value := this |} :: rest ->
  takes_operand type = true ->
  forall fuel now, eval fuel E this now h = (OutOfFuel, h).
Proof.
  intros Hobj Hv Hchain Ht.
  destruct (_evalValue_returns E h this obj Hobj Hv) as [base Hbase].
  induction fuel as [fuel IH] using lt_wf_ind. intros now.
  destruct fuel as [|[|fuel]]; [reflexivity | | ].
  - rewrite eval_start. unfold bind. now rewrite Hbase.
  - rewrite eval_start. unfold bind. rewrite Hbase.
    rewrite (eval_loop_turn StringToNumber NumberToString E fuel this now 0 base h obj Hobj).
    rewrite Hchain. cbn [lookup list_lookup].
    unfold bind.
    assert (Hcase : eval_case E (fun a => eval fuel E a VUndef) now base
                      {| Expr.type := type; Expr.value := this |} h = (OutOfFuel, h)).
    { pose proof (IH fuel (ltac:(lia)) VUndef) as Hself.
      destruct (is_str type TimeType.Now) eqn:Hnow.
      { apply is_str_true in Hnow. subst type. discriminate Ht. }
      unfold eval_case, takes_operand, bind in *. cbn [Expr.type Expr.value] in *.
      rewrite Hnow.
      destruct (is_str type TimeType.Add); [now rewrite Hself|].
      destruct (is_str type TimeType.Subtract); [now rewrite Hself|].
      destruct (is_str type TimeType.Multiply); [now rewrite Hself|].
      destruct (is_str type TimeType.Divide); [now rewrite Hself|].
      destruct (is_str type TimeType.Quantize); [now rewrite Hself | discriminate]. }
    now rewrite Hcase.
Qed.

(** ** Evaluation reads only what it reaches *)

(** The base value depends on the object alone. *)
Lemma _evalValue_of_obj E (h : heap) a obj :
  h !! a = Some obj -> _evalValue E a h = (fst (_evalValue E 0%nat [obj]), h).
Proof.
  intros Hobj. unfold _evalValue, bind, read, lift, ret. rewrite Hobj.
  cbn [lookup list_lookup].
  repeat match goal with
         | |- context [if ?b then _ else _] => destruct b
         | |- context [match js_index ?v ?i with _ => _ end] =>
             destruct (js_index v i)
         end; reflexivity.
Qed.

Lemma _evalValue_same_fields E o1 o2 :
  _units o1 = _units o2 -> _value o1 = _value o2 ->
  fst (_evalValue E 0%nat [o1]) = fst (_evalValue E 0%nat [o2]).
Proof.
  intros Hu Hv. unfold _evalValue, bind, read, lift, ret.
  cbn [lookup list_lookup]. rewrite Hu, Hv.
  repeat match goal with
         | |- context [if ?b then _ else _] => destruct b
         | |- context [match js_index ?v ?i with _ => _ end] =>
             destruct (js_index v i)
         end; reflexivity.
Qed.

Lemma eval_case_inv E (operand_eval : addr -> M jsval) now val expr h v h' :
  eval_case E operand_eval now val expr h = (Ret v, h') ->
  exists r,
    (takes_operand (Expr.type expr) = true ->
     operand_eval (Expr.value expr) h = (Ret r, h'))
    /\ v = apply_chained E now val expr r.
Proof.
  unfold eval_case, apply_chained, takes_operand, bind, ret.
  destruct (is_str (Expr.type expr) TimeType.Add).
  { destruct (operand_eval _ h) as [[r|e|] h1]; [|discriminate..].
    intros [= <- <-]. eauto. }
  destruct (is_str (Expr.type expr) TimeType.Subtract).
  { destruct (operand_eval _ h) as [[r|e|] h1]; [|discriminate..].
    intros [= <- <-]. eauto. }
  destruct (is_str (Expr.type expr) TimeType.Multiply).
  { destruct (operand_eval _ h) as [[r|e|] h1]; [|discriminate..].
    intros [= <- <-]. eauto. }
  destruct (is_str (Expr.type expr) TimeType.Divide).
  { destruct (operand_eval _ h) as [[r|e|] h1]; [|discriminate..].
    intros [= <- <-]. eauto. }
  destruct (is_str (Expr.type expr) TimeType.Now) eqn:Hnow.
  { apply is_str_true in Hnow. rewrite Hnow. cbn.
    intros [= <- <-]. exists VUndef. split; [discriminate | reflexivity]. }
  destruct (is_str (Expr.type expr) TimeType.Quantize).
  { destruct (operand_eval _ h) as [[r|e|] h1]; [|discriminate..].
    intros [= <- <-]. eauto. }
  intros [= <- <-]. exists VUndef. split; [discriminate | reflexivity].
Qed.

Lemma eval_frame_both E (h h1 : heap) (S : addr -> Prop) fuel :
  (forall a obj, S a -> h !! a = Some obj -> h1 !! a = Some obj) ->
  (forall a obj expr, S a -> h !! a = Some obj -> In expr (_expressions obj) ->
     takes_operand (Expr.type expr) = true -> S (Expr.value expr)) ->
  (forall a now v, S a ->
     eval fuel E a now h = (Ret v, h) -> eval fuel E a now h1 = (Ret v, h1))
  /\ (forall a now i val v, S a ->
        eval_loop fuel E a now i val h = (Ret v, h) ->
        eval_loop fuel E a now i val h1 = (Ret v, h1)).
Proof.
  intros Hsame Hclosed.
  induction fuel as [|fuel [IHe IHl]]; split; intros; try discriminate.
  - rewrite eval_start in *. unfold bind in *.
    destruct (h !! a) as [obj|] eqn:Hobj.
    + rewrite (_evalValue_of_obj E h a obj Hobj) in H0.
      rewrite (_evalValue_of_obj E h1 a obj (Hsame a obj H Hobj)).
      destruct (fst (_evalValue E 0%nat [obj])) as [base|e|]; try discriminate.
      now apply IHl.
    + unfold _evalValue, bind, read in H0. rewrite Hobj in H0. discriminate.
  - destruct (h !! a) as [obj|] eqn:Hobj.
    + rewrite (eval_loop_turn StringToNumber NumberToString E fuel a now i val h obj Hobj)
        in H0.
      rewrite (eval_loop_turn StringToNumber NumberToString E fuel a now i val h1 obj
                 (Hsame a obj H Hobj)).
      destruct (_expressions obj !! i) as [expr|] eqn:Hi;
        [|injection H0 as <-; reflexivity].
      unfold bind in *.
      pose proof (eval_case_preserves StringToNumber NumberToString E
                    (fun a => eval fuel E a VUndef) now val expr
                    (fun a => eval_preserves StringToNumber NumberToString fuel E a VUndef) h)
        as Hpres.
      destruct (eval_case E _ now val expr h) as [[v'|e|] h'] eqn:Hcase;
        try discriminate.
      cbn in Hpres. subst h'.
      destruct (eval_case_inv E _ now val expr h v' h Hcase) as (r & Hop & ->).
      rewrite (eval_case_apply StringToNumber NumberToString E _ now val expr r h1).
      * now apply IHl.
      * intros Ht. apply IHe; [|now apply Hop].
        eapply Hclosed; eauto.
        apply list_elem_of_In. eapply list_elem_of_lookup_2. exact Hi.
    + cbn [eval_loop] in H0. unfold bind, read in H0. rewrite Hobj in H0. discriminate.
Qed.

(** X16: objects allocated later do not change what an object evaluates to. *)
Theorem eval_unchanged_by_allocation (E : env) (h more : heap) (fuel : nat)
    (this : addr) (now v : jsval) :
  eval fuel E this now h = (Ret v, h) ->
  eval fuel E this now (h ++ more) = (Ret v, h ++ more).
Proof.
  apply (eval_frame_both E h (h ++ more) (fun _ => True) fuel); auto.
  intros a obj _ Hobj. now apply lookup_app_l_Some.
Qed.

(** ** A chained operation is applied last *)

Lemma eval_unique E (h : heap) this now f1 f2 v1 v2 :
  eval f1 E this now h = (Ret v1, h) -> eval f2 E this now h = (Ret v2, h) -> v1 = v2.
Proof.
  intros H1 H2.
  apply (eval_more_fuel StringToNumber NumberToString f1 f2) in H1.
  apply (eval_more_fuel StringToNumber NumberToString f2 f1) in H2.
  rewrite Nat.add_comm in H2. congruence.
Qed.

Lemma fold_chain_snoc E now base (chain : list Expr.t) rs expr r :
  List.length chain = List.length rs ->
  fold_chain E now base (combine (chain ++ [expr]) (rs ++ [r]))
  = apply_chained E now (fold_chain E now base (combine chain rs)) expr r.
Proof.
  revert rs base. induction chain as [|e chain IH]; intros [|r0 rs] base Hl;
    try discriminate; [reflexivity|].
  cbn in Hl. injection Hl as Hl. cbn. unfold fold_chain in IH. now rewrite IH.
Qed.

Lemma pushed_raw_lookups (h : heap) this obj v type units :
  h !! this = Some obj ->
  let h1 := <[this := pushed obj type (List.length h)]> (h ++ [constructed v units]) in
  h1 !! this = Some (pushed obj type (List.length h))
  /\ h1 !! List.length h = Some (constructed v units)
  /\ (forall a o, a <> this -> h !! a = Some o -> h1 !! a = Some o).
Proof.
  intros Hobj h1. pose proof (lookup_lt_Some _ _ _ Hobj) as Hlt. subst h1.
  split; [|split].
  - apply list_lookup_insert_eq. rewrite length_app. lia.
  - rewrite list_lookup_insert_ne by lia. now apply list_lookup_middle.
  - intros a o Hne Ho. rewrite list_lookup_insert_ne by congruence.
    now apply lookup_app_l_Some.
Qed.

(** X17: chaining comes last.  On a well-formed store without a cycle, if an
    object evaluates to [r], then after [_pushExpr] of a plain value (what
    [add], [sub], [mult], [div], [quantize] and [fromNow] do) it evaluates
    to the operation applied to [r] and the value of the new operand [x]:
    the operations before are neither reordered nor evaluated differently. *)
Theorem eval_after_push (h : heap) (rank : addr -> nat) (E : env) (this : addr)
    (obj : TimeObj) (v type units now r : jsval) (f : nat) :
  wf_heap h -> ranked h rank -> h !! this = Some obj ->
  eval f E this now h = (Ret r, h) ->
  exists f' x,
    (forall k now', eval (2 + k) E (List.length h) now'
                      (snd (_pushExpr this (AVal v) type units h))
                    = (Ret x, snd (_pushExpr this (AVal v) type units h)))
    /\ (forall k, eval (f' + k) E this now (snd (_pushExpr this (AVal v) type units h))
                  = (Ret (apply_chained E now r
                            {| Expr.type := type; Expr.value := List.length h |} x),
                     snd (_pushExpr this (AVal v) type units h))).
Proof.
  intros Hh Hr Hobj Heval.
  rewrite (_pushExpr_raw h this obj v type units Hobj). cbn [snd].
  set (n := List.length h).
  set (h1 := <[this := pushed obj type n]> (h ++ [constructed v units])).
  destruct (pushed_raw_lookups h this obj v type units Hobj) as (Hthis1 & Hnew1 & Hold1).
  fold n in Hthis1, Hnew1. fold h1 in Hthis1, Hnew1, Hold1.
  pose proof Hh as Hwf. unfold wf_heap in Hwf. rewrite Forall_lookup in Hwf.
  destruct (Hwf _ _ Hobj) as [Hv Hall].
  pose proof (lookup_lt_Some _ _ _ Hobj) as Hlt.
  (* the base value, in both stores *)
  destruct (_evalValue_returns E h this obj Hobj Hv) as [base Hbase].
  assert (Hbase1 : _evalValue E this h1 = (Ret base, h1)).
  { rewrite (_evalValue_of_obj E h1 this _ Hthis1).
    rewrite (_evalValue_of_obj E h this obj Hobj) in Hbase.
    injection Hbase as Hbase.
    rewrite (_evalValue_same_fields E (pushed obj type n) obj eq_refl eq_refl).
    now rewrite Hbase. }
  (* the operands, in the store before *)
  destruct (operand_values E h
              (fun a => (rank a < rank this)%nat /\ (a < List.length h)%nat)) with
    (chain := _expressions obj) as [rs Hrs].
  { intros a [Hra Ha].
    destruct (eval_returns_below h rank E Hh Hr (rank this) a VUndef Hra Ha)
      as (fa & va & Hfa).
    exists fa, va. specialize (Hfa 0%nat). now rewrite Nat.add_0_r in Hfa. }
  { rewrite Forall_forall. intros expr Hin Ht. split.
    - apply list_elem_of_In in Hin. exact (Hr this obj expr Hobj Hin Ht).
    - rewrite Forall_forall in Hall. now apply Hall. }
  apply common_fuel in Hrs as [F Hrs].
  pose proof (eval_fold StringToNumber NumberToString E h this obj now base rs F 0
                Hobj Hbase Hrs) as Hfold.
  pose proof (eval_unique E h this now _ _ _ _ Heval Hfold) as ->.
  (* the new operand *)
  destruct (_evalValue_returns E h1 n (constructed v units) Hnew1) as [x Hx];
    [now destruct v|].
  assert (Hnew : forall k now', eval (2 + k) E n now' h1 = (Ret x, h1)).
  { intros k now'.
    now rewrite (eval_no_chain StringToNumber NumberToString E h1 n _ now' k Hnew1 eq_refl). }
  (* the operands, in the store after *)
  assert (Hrs1 : Forall2 (fun expr r0 =>
                    takes_operand (Expr.type expr) = true ->
                    eval (F + 2) E (Expr.value expr) VUndef h1 = (Ret r0, h1))
                  (_expressions (pushed obj type n)) (rs ++ [x])).
  { cbn [_expressions pushed]. apply Forall2_app.
    - apply Forall2_same_length_lookup_2; [now apply Forall2_length in Hrs|].
      intros i expr r0 Hi Hri Ht.
      rewrite Forall2_lookup in Hrs. specialize (Hrs i).
      rewrite Hi, Hri in Hrs. inversion Hrs as [? ? Hop|]; subst.
      apply (eval_more_fuel StringToNumber NumberToString F 2).
      apply (eval_frame_both E h h1 (fun a => (rank a < rank this)%nat) F).
      + intros a o Ha Ho. apply Hold1; [|exact Ho]. intros ->. lia.
      + intros a o e Ha Ho Hin Hte. specialize (Hr a o e Ho Hin Hte). lia.
      + apply (Hr this obj expr Hobj); [|exact Ht].
        apply list_elem_of_In. eapply list_elem_of_lookup_2. exact Hi.
      + now apply Hop.
    - constructor; [|constructor]. intros _. cbn [Expr.value].
      rewrite Nat.add_comm. apply Hnew. }
  exists (S (List.length (_expressions (pushed obj type n)) + 1 + (F + 2))), x.
  split; [exact Hnew|]. intros k. rewrite Nat.add_succ_l.
  rewrite (eval_fold StringToNumber NumberToString E h1 this _ now base (rs ++ [x])
             (F + 2) k Hthis1 Hbase1 Hrs1).
  cbn [_expressions pushed].
  rewrite fold_chain_snoc; [reflexivity|]. now apply Forall2_length in Hrs.
Qed.

(** ** A transport position of two parts *)

Lemma add_nan_r (x : float) : (x + nan)%float = nan.
Proof.
  rewrite <- (SF2Prim_Prim2SF (x + nan)), add_spec.
  change (Prim2SF nan) with S754_nan.
  now destruct (Prim2SF x) as [| | |[] m e].
Qed.

(** X18: a transport position with two components only, as the pattern of
    the tokenizer allows, evaluates to NaN under every Tempo Context: the
    missing sixteenths are [undefined], not 0. *)
Theorem transport_of_two_parts_is_nan (E : env) (h : heap) (this : addr)
    (obj : TimeObj) (now : jsval) (bars beats : float) (k : nat) :
  h !! this = Some obj ->
  _units obj = VStr Units.TransportTime ->
  _value obj = VArr [VNum bars; VNum beats] ->
  _expressions obj = [] ->
  eval (2 + k) E this now h = (Ret (VNum nan), h).
Proof.
  intros Hobj Hunits Hvalue Hnil.
  rewrite (eval_no_chain StringToNumber NumberToString E h this obj now k Hobj Hnil).
  unfold _evalValue, bind, read. rewrite Hobj, Hunits, Hvalue. cbn.
  unfold js_add, js_div, js_mul. cbn.
  now rewrite mul_nan_r, add_nan_r.
Qed.

End EvaluatorOnStores.

(** ** The store stays free of cycles *)

(** X12: the constructor and [_pushExpr] of a plain value keep the store
    free of cycles: if the operands were ranked below their receivers, they
    still are, with the new object at the bottom. *)
Theorem store_stays_acyclic (h : heap) (rank : addr -> nat) :
  ranked h rank ->
  (forall val units, ranked (snd (Tone_Time val units h)) rank)
  /\ (forall this v type units,
        (this < List.length h)%nat ->
        ranked (snd (_pushExpr this (AVal v) type units h))
               (fun a => if Nat.eqb a (List.length h) then 0%nat else S (rank a))).
Proof.
  intros Hr. split.
  - intros val units a obj expr. cbn [snd Tone_Time alloc].
    intros Ha Hin Ht. destruct (decide (a < List.length h)%nat) as [Hlt|Hge].
    + rewrite lookup_app_l in Ha by exact Hlt. eauto.
    + destruct (decide (a = List.length h)) as [->|Hne].
      * rewrite list_lookup_middle in Ha by reflexivity.
        injection Ha as <-. destruct Hin.
      * rewrite lookup_ge_None_2 in Ha; [discriminate|].
        rewrite length_app. cbn. lia.
  - intros this v type units Hthis a obj' expr.
    destruct (lookup_lt_is_Some_2 h this Hthis) as [obj Hobj].
    rewrite (_pushExpr_raw h this obj v type units Hobj). cbn [snd].
    intros Ha Hin Ht.
    assert (Hbelow : forall b o e, h !! b = Some o -> In e (_expressions o) ->
              takes_operand (Expr.type e) = true ->
              ((if Nat.eqb (Expr.value e) (List.length h) then 0 else S (rank (Expr.value e)))
               < S (rank b))%nat).
    { intros b o e Hb He Hte. specialize (Hr b o e Hb He Hte).
      destruct (Nat.eqb (Expr.value e) (List.length h)); lia. }
    destruct (decide (a = this)) as [->|Hne].
    + rewrite list_lookup_insert_eq in Ha by (rewrite length_app; lia).
      injection Ha as <-.
      rewrite (proj2 (Nat.eqb_neq this (List.length h))) by lia.
      cbn [_expressions pushed] in Hin. apply in_app_or in Hin as [Hin | Hin].
      * eauto.
      * destruct Hin as [<- | []]. cbn [Expr.value]. rewrite Nat.eqb_refl. lia.
    + rewrite list_lookup_insert_ne in Ha by congruence.
      destruct (decide (a < List.length h)%nat) as [Hlt|Hge].
      * rewrite lookup_app_l in Ha by exact Hlt.
        rewrite (proj2 (Nat.eqb_neq a (List.length h))) by lia. eauto.
      * destruct (decide (a = List.length h)) as [->|Hne'].
        -- rewrite list_lookup_middle in Ha by reflexivity.
           injection Ha as <-. destruct Hin.
        -- rewrite lookup_ge_None_2 in Ha; [discriminate|].
           rewrite length_app. cbn. lia.
Qed.

(** ** Instances on stores *)

Ltac solve_wf := repeat constructor.

Ltac solve_ranked :=
  let a := fresh "a" in let obj := fresh "obj" in let expr := fresh "expr" in
  let Ha := fresh "Ha" in let Hin := fresh "Hin" in let Ht := fresh "Ht" in
  intros a obj expr Ha Hin Ht;
  repeat (destruct a as [|a]; [injection Ha as <-|]); try discriminate Ha;
  cbn in Hin;
  repeat (destruct Hin as [<- | Hin]; [first [discriminate Ht | cbn; lia]|]);
  destruct Hin.

Lemma chain_heap_wf : wf_heap chain_heap.
Proof. solve_wf. Defined.

Lemma chain_heap_ranked : ranked chain_heap receiver_first.
Proof. solve_ranked. Defined.

Lemma eval_returns_or_recurses_witness :
  wf_heap self_add_heap
  /\ forall sn ns E fuel now,
       (exists v, eval sn ns fuel E 0 now self_add_heap = (Ret v, self_add_heap))
       \/ eval sn ns fuel E 0 now self_add_heap = (OutOfFuel, self_add_heap).
Proof.
  assert (Hwf : wf_heap self_add_heap) by solve_wf.
  split; [exact Hwf|]. intros sn ns E fuel now.
  refine (eval_returns_or_recurses sn ns self_add_heap E fuel 0 now Hwf _).
  cbn. lia.
Defined.

Lemma eval_returns_witness :
  wf_heap chain_heap /\ ranked chain_heap receiver_first
  /\ forall sn ns E now, exists fuel v, forall k,
       eval sn ns (fuel + k) E 0 now chain_heap = (Ret v, chain_heap).
Proof.
  split; [exact chain_heap_wf|]. split; [exact chain_heap_ranked|].
  intros sn ns E now.
  refine (eval_returns sn ns chain_heap receiver_first E 0 now
            chain_heap_wf chain_heap_ranked _).
  cbn. lia.
Defined.

Lemma self_operand_never_evaluates_witness :
  self_add_example [] = (Ret 0%nat, self_add_heap)
  /\ forall sn ns E fuel now, eval sn ns fuel E 0 now self_add_heap = (OutOfFuel, self_add_heap).
Proof.
  split; [reflexivity|]. intros sn ns E.
  exact (self_operand_never_evaluates sn ns self_add_heap E 0 _ (VStr "+") []
           eq_refl eq_refl eq_refl eq_refl).
Defined.

Lemma eval_unchanged_by_allocation_witness :
  (forall sn ns E,
      eval sn ns 8 E 0 (VNum 10) chain_heap = (Ret (VNum 19), chain_heap))
  /\ (forall sn ns E,
        eval sn ns 8 E 0 (VNum 10) (chain_heap ++ self_add_heap)
        = (Ret (VNum 19), chain_heap ++ self_add_heap)).
Proof.
  split; [reflexivity|]. intros sn ns E.
  exact (eval_unchanged_by_allocation sn ns E chain_heap self_add_heap 8 0 (VNum 10)
           (VNum 19) eq_refl).
Defined.

Lemma sum_heap_wf : wf_heap sum_heap.
Proof. solve_wf. Defined.

Lemma sum_heap_ranked : ranked sum_heap receiver_first.
Proof. solve_ranked. Defined.

(** [(1 + 2) * 3]: the sum evaluates to 3, and after [mult(3, "s")] to 9. *)
Lemma eval_after_push_witness :
  sum_example [] = (Ret 0%nat, sum_heap)
  /\ (forall sn ns E now, eval sn ns 4 E 0 now sum_heap = (Ret (VNum 3), sum_heap))
  /\ (forall sn ns E now, exists f' x,
        (forall k now', eval sn ns (2 + k) E 2 now' (snd (mult 0 (AVal (VNum 3)) (VStr "s") sum_heap))
                        = (Ret x, snd (mult 0 (AVal (VNum 3)) (VStr "s") sum_heap)))
        /\ (forall k, eval sn ns (f' + k) E 0 now (snd (mult 0 (AVal (VNum 3)) (VStr "s") sum_heap))
                      = (Ret (apply_chained sn ns E now (VNum 3)
                                {| Expr.type := VStr "*"; Expr.value := 2 |} x),
                         snd (mult 0 (AVal (VNum 3)) (VStr "s") sum_heap)))).
Proof.
  split; [reflexivity|]. split; [reflexivity|]. intros sn ns E now.
  exact (eval_after_push sn ns sum_heap receiver_first E 0 _ (VNum 3) (VStr "*")
           (VStr "s") now (VNum 3) 4 sum_heap_wf sum_heap_ranked eq_refl eq_refl).
Defined.

Lemma store_stays_acyclic_witness :
  ranked sum_heap receiver_first
  /\ ranked (snd (mult 0 (AVal (VNum 3)) (VStr "s") sum_heap))
            (fun a => if Nat.eqb a 2 then 0%nat else S (receiver_first a)).
Proof.
  split; [exact sum_heap_ranked|].
  refine (proj2 (store_stays_acyclic sum_heap receiver_first sum_heap_ranked)
            0%nat (VNum 3) (VStr "*") (VStr "s") _).
  cbn. lia.
Defined.

(** ["1:2"]: one token, parsed into a transport position of two
    components, which evaluates to NaN. *)
Lemma transport_of_two_parts_is_nan_witness :
  _tokenize "1:2" = Ret {| tokens := [value_token "tr" "1:2"]; position := -1 |}
  /\ _parseExpression 9 {| tokens := [value_token "tr" "1:2"]; position := -1 |} None []
     = (Ret (TTime 0, {| tokens := [value_token "tr" "1:2"]; position := 0 |}),
        [{| _expressions := []; _units := VStr "tr"; _value := VArr [VNum 1; VNum 2] |}])
  /\ forall sn ns E now,
       eval sn ns 2 E 0 now
         [{| _expressions := []; _units := VStr "tr"; _value := VArr [VNum 1; VNum 2] |}]
       = (Ret (VNum nan),
          [{| _expressions := []; _units := VStr "tr"; _value := VArr [VNum 1; VNum 2] |}]).
Proof.
  split; [reflexivity|]. split; [reflexivity|]. intros sn ns E now.
  exact (transport_of_two_parts_is_nan sn ns E
           [{| _expressions := []; _units := VStr "tr"; _value := VArr [VNum 1; VNum 2] |}]
           0 {| _expressions := []; _units := VStr "tr"; _value := VArr [VNum 1; VNum 2] |}
           now 1 2 0 eq_refl eq_refl eq_refl eq_refl).
Defined.

(** ** The parser comes to an end *)

Lemma _parseExpression_S fuel lx p :
  _parseExpression (S fuel) lx p
  = let precedence := match p with None => 5 | Some p => p end in
    let* (expr, lx) :=
      if precedence <? 0 then _parseUnary fuel lx
      else _parseExpression fuel lx (Some (precedence - 1)) in
    parseExpression_while fuel lx precedence expr.
Proof. reflexivity. Qed.

Lemma parseExpression_while_S fuel lx precedence expr :
  parseExpression_while (S fuel) lx precedence expr
  = match lexer_peek lx with
    | Some token =>
        if group_eqb (Token.group token) Gbinary
           && precedence_is (Token.precedence token) precedence
        then
          match lexer_next lx with
          | (Some token, lx) =>
              let* (rhs, lx) := _parseExpression fuel lx (Some precedence) in
              parseExpression_while fuel lx precedence
                (TBinary (Token.name token) expr rhs)
          | (None, _) => throw TypeError
          end
        else ret (expr, lx)
    | None => ret (expr, lx)
    end.
Proof. reflexivity. Qed.

Lemma _parseUnary_S fuel lx :
  _parseUnary (S fuel) lx
  = match lexer_peek lx with
    | Some token =>
        if group_eqb (Token.group token) Gunary then
          let '(token, lx) := lexer_next lx in
          let* (expr, lx) := _parseUnary fuel lx in
          match token with
          | Some token => ret (TUnary (Token.value token) VUndef expr, lx)
          | None => throw TypeError
          end
        else _parsePrimary fuel lx
    | None => _parsePrimary fuel lx
    end.
Proof. reflexivity. Qed.

Lemma _parsePrimary_S fuel lx :
  _parsePrimary (S fuel) lx
  = match lexer_peek lx with
    | None => throw (SyntaxError "Unexpected termination of expression")
    | Some token =>
        if group_eqb (Token.group token) Gvalue then
          match lexer_next lx with
          | (Some token, lx) =>
              let units := Token.name token in
              let* a := Tone_Time (primary_value units (Token.value token)) units in
              ret (TTime a, lx)
          | (None, _) => throw TypeError
          end
        else if group_eqb (Token.group token) Gglue
                && String.eqb (Token.value token) "("
        then
          let '(_, lx) := lexer_next lx in
          let* (expr, lx) := _parseExpression fuel lx None in
          let '(token, lx) := lexer_next lx in
          match token with
          | Some token =>
              if group_eqb (Token.group token) Gglue
                 && String.eqb (Token.value token) ")"
              then ret (expr, lx)
              else throw (SyntaxError "Expected )")
          | None => throw (SyntaxError "Expected )")
          end
        else throw (SyntaxError
                      ("Parse error, cannot process token " +:+ Token.value token))
    end.
Proof. reflexivity. Qed.

Lemma array_get_Some {A} (a : list A) i x :
  array_get a i = Some x -> 0 <= i < Z.of_nat (List.length a).
Proof.
  unfold array_get. destruct (Z.ltb_spec i 0); [discriminate|].
  intros Hx%lookup_lt_Some. lia.
Qed.

Lemma lexer_next_peek lx :
  lexer_next lx
  = (lexer_peek lx, {| tokens := tokens lx; position := position lx + 1 |}).
Proof. reflexivity. Qed.

Lemma lexer_peek_Some lx tok :
  lexer_peek lx = Some tok ->
  -1 <= position lx /\ position lx + 1 < Z.of_nat (List.length (tokens lx)).
Proof. unfold lexer_peek. intros H%array_get_Some. lia. Qed.

Lemma remaining_next lx tok :
  lexer_peek lx = Some tok ->
  remaining lx = S (remaining {| tokens := tokens lx; position := position lx + 1 |}).
Proof.
  intros [H1 H2]%lexer_peek_Some. unfold remaining. cbn [tokens position]. lia.
Qed.

Lemma remaining_less lx lx' :
  tokens lx' = tokens lx -> position lx < position lx' ->
  position lx' < Z.of_nat (List.length (tokens lx)) ->
  (remaining lx' < remaining lx)%nat.
Proof. unfold remaining. intros -> H1 H2. lia. Qed.

Lemma remaining_le lx lx' :
  tokens lx' = tokens lx -> position lx <= position lx' ->
  (remaining lx' <= remaining lx)%nat.
Proof. unfold remaining. intros -> H1. lia. Qed.

Lemma levels_pred p : 0 <= p -> levels p = S (levels (p - 1)).
Proof. unfold levels. lia. Qed.

(** All four functions of the parser, by induction on the depth allowed. *)
Lemma parser_advances fuel :
  (forall lx p h,
      (parse_fuel lx p <= fuel)%nat ->
      advances true lx h (_parseExpression fuel lx p h))
  /\ (forall lx p expr h,
        position lx < Z.of_nat (List.length (tokens lx)) ->
        (9 * remaining lx + levels p + 3 <= fuel)%nat ->
        advances false lx h (parseExpression_while fuel lx p expr h))
  /\ (forall lx h,
        (9 * remaining lx + 2 <= fuel)%nat ->
        advances true lx h (_parseUnary fuel lx h))
  /\ (forall lx h,
        (9 * remaining lx + 1 <= fuel)%nat ->
        advances true lx h (_parsePrimary fuel lx h)).
Proof.
  induction fuel as [|fuel (IHe & IHw & IHu & IHp)].
  { repeat split; intros; unfold parse_fuel in *; lia. }
  repeat split.
  - (* _parseExpression *)
    intros lx p h Hfuel. rewrite _parseExpression_S. cbv zeta.
    set (prec := match p with None => 5 | Some q => q end) in *.
    unfold parse_fuel in Hfuel. fold prec in Hfuel.
    assert (Hfirst : advances true lx h
              ((if prec <? 0 then _parseUnary fuel lx
                else _parseExpression fuel lx (Some (prec - 1))) h)).
    { destruct (Z.ltb_spec prec 0).
      - apply IHu. lia.
      - apply IHe. unfold parse_fuel. rewrite (levels_pred prec) in Hfuel by lia. lia. }
    unfold bind.
    destruct Hfirst as [(t & lx1 & new & -> & Htok & Hpos & Hlen) | (m & new & ->)];
      [|right; eauto].
    pose proof (remaining_less lx lx1 Htok Hpos Hlen) as Hrem.
    destruct (IHw lx1 prec t (h ++ new)) as
      [(t2 & lx2 & new2 & -> & Htok2 & Hpos2 & Hlen2) | (m & new2 & ->)].
    + rewrite Htok. exact Hlen.
    + lia.
    + left. exists t2, lx2, (new ++ new2). rewrite app_assoc.
      rewrite Htok in Htok2, Hlen2. repeat split; auto; lia.
    + right. exists m, (new ++ new2). now rewrite app_assoc.
  - (* the loop *)
    intros lx p expr h Hlt Hfuel. rewrite parseExpression_while_S.
    assert (Hstay : advances false lx h (ret (expr, lx) h)).
    { left. exists expr, lx, []. rewrite app_nil_r. repeat split; auto; lia. }
    destruct (lexer_peek lx) as [token|] eqn:Hpeek; [|exact Hstay].
    destruct (group_eqb (Token.group token) Gbinary
              && precedence_is (Token.precedence token) p); [|exact Hstay].
    rewrite lexer_next_peek, Hpeek.
    pose proof (remaining_next lx token Hpeek) as Hrem.
    set (lx0 := {| tokens := tokens lx; position := position lx + 1 |}) in *.
    unfold bind.
    destruct (IHe lx0 (Some p) h) as
      [(t & lx1 & new & -> & Htok & Hpos & Hlen) | (m & new & ->)];
      [unfold parse_fuel; lia | | right; eauto].
    pose proof (remaining_less lx0 lx1 Htok Hpos Hlen) as Hrem1.
    destruct (IHw lx1 p (TBinary (Token.name token) expr t) (h ++ new)) as
      [(t2 & lx2 & new2 & -> & Htok2 & Hpos2 & Hlen2) | (m & new2 & ->)].
    + rewrite Htok. exact Hlen.
    + lia.
    + left. exists t2, lx2, (new ++ new2). rewrite app_assoc.
      rewrite Htok in Htok2, Hlen2. subst lx0; cbn [tokens position] in *.
      repeat split; auto; lia.
    + right. exists m, (new ++ new2). now rewrite app_assoc.
  - (* _parseUnary *)
    intros lx h Hfuel. rewrite _parseUnary_S.
    destruct (lexer_peek lx) as [token|] eqn:Hpeek; [|apply IHp; lia].
    destruct (group_eqb (Token.group token) Gunary); [|apply IHp; lia].
    rewrite lexer_next_peek, Hpeek.
    pose proof (remaining_next lx token Hpeek) as Hrem.
    set (lx0 := {| tokens := tokens lx; position := position lx + 1 |}) in *.
    unfold bind.
    destruct (IHu lx0 h) as
      [(t & lx1 & new & -> & Htok & Hpos & Hlen) | (m & new & ->)];
      [lia | | right; eauto].
    left. exists (TUnary (Token.value token) VUndef t), lx1, new.
    subst lx0; cbn [tokens position] in *. repeat split; auto; lia.
  - (* _parsePrimary *)
    intros lx h Hfuel. rewrite _parsePrimary_S.
    destruct (lexer_peek lx) as [token|] eqn:Hpeek.
    2:{ right. exists "Unexpected termination of expression", [].
        now rewrite app_nil_r. }
    pose proof (remaining_next lx token Hpeek) as Hrem.
    pose proof (lexer_peek_Some lx token Hpeek) as [Hlo Hhi].
    rewrite lexer_next_peek, Hpeek.
    set (lx0 := {| tokens := tokens lx; position := position lx + 1 |}) in *.
    destruct (group_eqb (Token.group token) Gvalue).
    { left. unfold bind, Tone_Time, alloc, ret; cbv zeta.
      eexists _, lx0, [_]. split; [reflexivity|].
      subst lx0. cbn [tokens position]. repeat split; lia. }
    destruct (group_eqb (Token.group token) Gglue && String.eqb (Token.value token) "(").
    2:{ right. eexists _, []. now rewrite app_nil_r. }
    unfold bind.
    destruct (IHe lx0 None h) as
      [(t & lx1 & new & -> & Htok & Hpos & Hlen) | (m & new & ->)];
      [unfold parse_fuel, levels; lia | | right; eauto].
    rewrite lexer_next_peek.
    destruct (lexer_peek lx1) as [token1|] eqn:Hpeek1; [|right; eauto].
    destruct (group_eqb (Token.group token1) Gglue && String.eqb (Token.value token1) ")");
      [|right; eauto].
    pose proof (lexer_peek_Some lx1 token1 Hpeek1) as [Hlo1 Hhi1].
    left. eexists t, _, new. rewrite Htok in Hhi1. subst lx0; cbn [tokens position] in *.
    repeat split; cbn [tokens position]; auto; lia.
Qed.

(** X8: The parser comes to an end on every token list, from every cursor,
    for every precedence the code itself passes (none, or an integer from
    5 down to -1): within the depth [parse_fuel] it returns a tree, the
    cursor moved forward by at least one token and still inside the tokens,
    or it throws one of the syntax errors; the objects of the store are as
    before, new ones are added behind them. *)
Theorem parse_finishes (lx : lexer) (precedence : option Z) (h : heap) (k : nat) :
  code_precedence precedence ->
  (exists t lx' new,
      _parseExpression (parse_fuel lx precedence + k) lx precedence h
      = (Ret (t, lx'), h ++ new)
      /\ tokens lx' = tokens lx
      /\ position lx < position lx' < Z.of_nat (List.length (tokens lx)))
  \/ (exists m new,
        _parseExpression (parse_fuel lx precedence + k) lx precedence h
        = (Throw (SyntaxError m), h ++ new)).
Proof.
  intros _.
  destruct (parser_advances (parse_fuel lx precedence + k)) as (He & _).
  destruct (He lx precedence h) as
    [(t & lx' & new & Heq & Htok & Hpos & Hlen) | (m & new & Heq)]; [lia | |].
  - left. exists t, lx', new. auto.
  - right. eauto.
Qed.

(** The tokens of ["4n+2n"], read at the tier of [+]. *)
Lemma parse_finishes_witness :
  code_precedence (Some 1)
  /\ ((exists t lx' new,
          _parseExpression
            (parse_fuel {| tokens := [value_token "n" "4n"; plus_token; value_token "n" "2n"];
                           position := -1 |} (Some 1) + 0)
            {| tokens := [value_token "n" "4n"; plus_token; value_token "n" "2n"];
               position := -1 |} (Some 1) []
          = (Ret (t, lx'), [] ++ new)
          /\ tokens lx' = [value_token "n" "4n"; plus_token; value_token "n" "2n"]
          /\ -1 < position lx' < 3)
      \/ (exists m new,
          _parseExpression
            (parse_fuel {| tokens := [value_token "n" "4n"; plus_token; value_token "n" "2n"];
                           position := -1 |} (Some 1) + 0)
            {| tokens := [value_token "n" "4n"; plus_token; value_token "n" "2n"];
               position := -1 |} (Some 1) []
          = (Throw (SyntaxError m), [] ++ new))).
Proof.
  assert (Hp : code_precedence (Some 1)) by (cbn; lia).
  split; [exact Hp|].
  exact (parse_finishes
           {| tokens := [value_token "n" "4n"; plus_token; value_token "n" "2n"];
              position := -1 |} (Some 1) [] 0 Hp).
Defined.

(** ** More depth changes no result of the parser *)

Lemma parser_more_fuel fuel :
  (forall lx p h r h' k,
      _parseExpression fuel lx p h = (r, h') -> finished r ->
      _parseExpression (fuel + k) lx p h = (r, h'))
  /\ (forall lx p expr h r h' k,
        parseExpression_while fuel lx p expr h = (r, h') -> finished r ->
        parseExpression_while (fuel + k) lx p expr h = (r, h'))
  /\ (forall lx h r h' k,
        _parseUnary fuel lx h = (r, h') -> finished r ->
        _parseUnary (fuel + k) lx h = (r, h'))
  /\ (forall lx h r h' k,
        _parsePrimary fuel lx h = (r, h') -> finished r ->
        _parsePrimary (fuel + k) lx h = (r, h')).
Proof.
  induction fuel as [|fuel (IHe & IHw & IHu & IHp)].
  { repeat split; intros; cbn in *; unfold out_of_fuel in *; congruence. }
  repeat split.
  - intros lx p h r h' k. rewrite Nat.add_succ_l, !_parseExpression_S. cbv zeta.
    set (prec := match p with None => 5 | Some q => q end).
    unfold bind.
    destruct (prec <? 0).
    + destruct (_parseUnary fuel lx h) as [[[t lx1]|e|] h1] eqn:H1; intros Hr Hfin.
      * rewrite (IHu _ _ _ _ k H1) by discriminate. now apply IHw.
      * rewrite (IHu _ _ _ _ k H1) by discriminate. exact Hr.
      * exfalso. apply Hfin. congruence.
    + destruct (_parseExpression fuel lx (Some (prec - 1)) h) as [[[t lx1]|e|] h1] eqn:H1;
        intros Hr Hfin.
      * rewrite (IHe _ _ _ _ _ k H1) by discriminate. now apply IHw.
      * rewrite (IHe _ _ _ _ _ k H1) by discriminate. exact Hr.
      * exfalso. apply Hfin. congruence.
  - intros lx p expr h r h' k. rewrite Nat.add_succ_l, !parseExpression_while_S.
    destruct (lexer_peek lx) as [token|]; [|auto].
    destruct (group_eqb (Token.group token) Gbinary
              && precedence_is (Token.precedence token) p); [|auto].
    destruct (lexer_next lx) as [[token1|] lx0]; [|auto].
    unfold bind.
    destruct (_parseExpression fuel lx0 (Some p) h) as [[[t lx1]|e|] h1] eqn:H1;
      intros Hr Hfin.
    + rewrite (IHe _ _ _ _ _ k H1) by discriminate. now apply IHw.
    + rewrite (IHe _ _ _ _ _ k H1) by discriminate. exact Hr.
    + exfalso. apply Hfin. congruence.
  - intros lx h r h' k. rewrite Nat.add_succ_l, !_parseUnary_S.
    destruct (lexer_peek lx) as [token|]; [|apply IHp].
    destruct (group_eqb (Token.group token) Gunary); [|apply IHp].
    destruct (lexer_next lx) as [token1 lx0].
    unfold bind.
    destruct (_parseUnary fuel lx0 h) as [[[t lx1]|e|] h1] eqn:H1; intros Hr Hfin.
    + now rewrite (IHu _ _ _ _ k H1) by discriminate.
    + now rewrite (IHu _ _ _ _ k H1) by discriminate.
    + exfalso. apply Hfin. congruence.
  - intros lx h r h' k. rewrite Nat.add_succ_l, !_parsePrimary_S.
    destruct (lexer_peek lx) as [token|]; [|auto].
    destruct (group_eqb (Token.group token) Gvalue); [auto|].
    destruct (group_eqb (Token.group token) Gglue && String.eqb (Token.value token) "(");
      [|auto].
    destruct (lexer_next lx) as [token1 lx0].
    unfold bind.
    destruct (_parseExpression fuel lx0 None h) as [[[t lx1]|e|] h1] eqn:H1;
      intros Hr Hfin.
    + now rewrite (IHe _ _ _ _ _ k H1) by discriminate.
    + now rewrite (IHe _ _ _ _ _ k H1) by discriminate.
    + exfalso. apply Hfin. congruence.
Qed.

(** ** Where the tokens run out, and parentheses that are not closed *)

(** An error of a call made in the course of another is the error of that
    other call: the parser catches none. *)
Lemma calls_throw c fuel lx h c' fuel' lx' h' e h2 :
  calls (c, fuel, lx, h) (c', fuel', lx', h') ->
  run c' fuel' lx' h' = (Throw e, h2) ->
  run c fuel lx h = (Throw e, h2).
Proof.
  intros Hcalls. inversion Hcalls; subst; cbn [run]; intros Hthrow.
  - rewrite _parseExpression_S. cbv zeta. fold (tier_of precedence).
    destruct (Z.ltb_spec (tier_of precedence) 0); [lia|].
    unfold bind. now rewrite Hthrow.
  - rewrite _parseExpression_S. cbv zeta. fold (tier_of precedence).
    destruct (Z.ltb_spec (tier_of precedence) 0); [|lia].
    unfold bind. now rewrite Hthrow.
  - rewrite _parseExpression_S. cbv zeta. fold (tier_of precedence).
    match goal with H : run _ _ _ _ = (Ret _, _) |- _ => rename H into Hfirst end.
    unfold bind. destruct (tier_of precedence <? 0); cbn [run] in Hfirst;
      now rewrite Hfirst.
  - rewrite parseExpression_while_S.
    match goal with H : lexer_peek _ = Some _ |- _ => rename H into Hpeek end.
    match goal with H : operator_of _ _ = true |- _ => rename H into Hop end.
    rewrite lexer_next_peek, Hpeek. unfold operator_of in Hop. rewrite Hop.
    unfold bind. try rewrite lexer_next_peek in Hthrow. cbn [snd] in Hthrow.
    now rewrite Hthrow.
  - rewrite parseExpression_while_S.
    match goal with H : lexer_peek _ = Some _ |- _ => rename H into Hpeek end.
    match goal with H : operator_of _ _ = true |- _ => rename H into Hop end.
    match goal with H : _parseExpression _ _ _ _ = (Ret _, _) |- _ =>
      rename H into Hrhs end.
    rewrite lexer_next_peek, Hpeek. unfold operator_of in Hop. rewrite Hop.
    unfold bind. try rewrite lexer_next_peek in Hrhs. cbn [snd] in Hrhs.
    now rewrite Hrhs.
  - rewrite _parseUnary_S.
    match goal with H : lexer_peek _ = Some _ |- _ => rename H into Hpeek end.
    match goal with H : group_eqb _ _ = true |- _ => rename H into Hg end.
    rewrite lexer_next_peek, Hpeek, Hg.
    unfold bind. try rewrite lexer_next_peek in Hthrow. cbn [snd] in Hthrow.
    now rewrite Hthrow.
  - rewrite _parseUnary_S.
    match goal with
    | H : match lexer_peek ?l with _ => _ end |- _ =>
        destruct (lexer_peek l) as [token|]; [now rewrite H | exact Hthrow]
    end.
  - rewrite _parsePrimary_S.
    match goal with H : lexer_peek _ = Some _ |- _ => rename H into Hpeek end.
    match goal with H : is_open_paren _ = true |- _ => rename H into Hopen end.
    rewrite lexer_next_peek, Hpeek. unfold is_open_paren in Hopen.
    apply andb_prop in Hopen as [[Hv Hg]%andb_prop Hs].
    apply negb_true_iff in Hv. rewrite Hv, Hg, Hs.
    unfold bind. try rewrite lexer_next_peek in Hthrow. cbn [snd andb] in *.
    now rewrite Hthrow.
Qed.

Lemma comes_to_throw s1 s2 :
  comes_to s1 s2 ->
  forall e h2,
    run (fst (fst (fst s2))) (snd (fst (fst s2))) (snd (fst s2)) (snd s2) = (Throw e, h2) ->
    run (fst (fst (fst s1))) (snd (fst (fst s1))) (snd (fst s1)) (snd s1) = (Throw e, h2).
Proof.
  induction 1 as [s|[[[c1 f1] lx1] h1] [[[c2 f2] lx2] h2'] s3 Hcalls _ IH];
    intros e h2 Hthrow; [exact Hthrow|].
  cbn [fst snd]. eapply calls_throw; [exact Hcalls|]. now apply IH.
Qed.

Lemma comes_to_trans s1 s2 s3 : comes_to s1 s2 -> comes_to s2 s3 -> comes_to s1 s3.
Proof.
  induction 1 as [|s1 s2 s2' Hcalls _ IH]; [auto|].
  intros H3. eapply comes_to_call; [exact Hcalls | now apply IH].
Qed.

(** Where an expression must start, [_parsePrimary] is called with the
    cursor where it was, unless a unary token stands there. *)
Lemma expression_comes_to_primary (n : nat) : forall precedence lx h k,
  tier_of precedence = Z.of_nat n - 1 ->
  match lexer_peek lx with
  | Some token => group_eqb (Token.group token) Gunary = false
  | None => True
  end ->
  comes_to (CExpression precedence, (n + 2 + k)%nat, lx, h) (CPrimary, k, lx, h).
Proof.
  induction n as [|n IH]; intros precedence lx h k Htier Hpeek.
  - eapply comes_to_call; [apply calls_unary; lia|].
    eapply comes_to_call; [apply calls_primary; exact Hpeek|]. apply comes_to_here.
  - eapply comes_to_call; [apply calls_next_tier; lia|].
    apply IH; [cbn; lia | exact Hpeek].
Qed.

(** X7: the two errors of running out.  Whenever the parser, in the course
    of any call, comes to [_parsePrimary]: if no token is left there, the
    whole call throws the SyntaxError of an unexpected end; and if an
    opening parenthesis is there and the expression after it is followed by
    anything but a closing parenthesis, or by nothing, the whole call
    throws "Expected )".  The store is then as the calls before left it: the
    objects made for the values read stay.  In particular every call of
    [_parseExpression], at a precedence the code passes, throws the first
    error when no token is left at its cursor. *)
Theorem parse_error_at_end (c : call) (fuel : nat) (lx : lexer) (h : heap)
    (fuel' : nat) (lx' : lexer) (h' : heap) :
  comes_to (c, fuel, lx, h) (CPrimary, S fuel', lx', h') ->
  (lexer_peek lx' = None ->
   run c fuel lx h = (Throw (SyntaxError "Unexpected termination of expression"), h'))
  /\ (forall token t lx1 h1,
        lexer_peek lx' = Some token -> is_open_paren token = true ->
        _parseExpression fuel' (snd (lexer_next lx')) None h' = (Ret (t, lx1), h1) ->
        is_close_paren (lexer_peek lx1) = false ->
        run c fuel lx h = (Throw (SyntaxError "Expected )"), h1))
  /\ (forall precedence lx0 h0 k,
        code_precedence precedence -> lexer_peek lx0 = None ->
        _parseExpression (Z.to_nat (tier_of precedence + 1) + 3 + k) lx0 precedence h0
        = (Throw (SyntaxError "Unexpected termination of expression"), h0)).
Proof.
  intros Hcomes. split; [|split].
  - intros Hpeek.
    apply (comes_to_throw _ _ Hcomes). cbn [fst snd run].
    rewrite _parsePrimary_S. now rewrite Hpeek.
  - intros token t lx1 h1 Hpeek Hopen Hinner Hclose.
    apply (comes_to_throw _ _ Hcomes). cbn [fst snd run].
    rewrite _parsePrimary_S, lexer_next_peek, Hpeek.
    unfold is_open_paren in Hopen.
    apply andb_prop in Hopen as [[Hv Hg]%andb_prop Hs].
    apply negb_true_iff in Hv. rewrite Hv, Hg, Hs.
    try rewrite lexer_next_peek in Hinner. cbn [andb snd] in *.
    unfold bind. rewrite Hinner, lexer_next_peek.
    unfold is_close_paren in Hclose.
    destruct (lexer_peek lx1) as [token1|]; [|reflexivity].
    now rewrite Hclose.
  - intros precedence lx0 h0 k Hcode Hpeek.
    assert (Htier : -1 <= tier_of precedence <= 5)
      by (destruct precedence; cbn in *; lia).
    pose proof (expression_comes_to_primary (Z.to_nat (tier_of precedence + 1))
                  precedence lx0 h0 (S k)) as Hreach.
    replace (Z.to_nat (tier_of precedence + 1) + 2 + S k)%nat
      with (Z.to_nat (tier_of precedence + 1) + 3 + k)%nat in Hreach by lia.
    apply (comes_to_throw _ _ (Hreach ltac:(lia) ltac:(now rewrite Hpeek))).
    cbn [fst snd run]. rewrite _parsePrimary_S. now rewrite Hpeek.
Qed.

(** ["4n+2n*"]: the tokens run out after the second operator; and ["(4n,"]:
    a comma stands where the parenthesis should be closed. *)
Lemma parse_error_at_end_witness :
  _tokenize "4n+2n*"
  = Ret {| tokens := [value_token "n" "4n"; plus_token; value_token "n" "2n"; times_token];
           position := -1 |}
  /\ _parseExpression 30
       {| tokens := [value_token "n" "4n"; plus_token; value_token "n" "2n"; times_token];
          position := -1 |} None []
     = (Throw (SyntaxError "Unexpected termination of expression"),
        [ {| _expressions := []; _units := VStr "n"; _value := VNum 4 |};
          {| _expressions := []; _units := VStr "n"; _value := VNum 2 |} ])
  /\ _tokenize "(4n,"
     = Ret {| tokens := [open_paren; value_token "n" "4n"; comma_token]; position := -1 |}
  /\ _parseExpression 30
       {| tokens := [open_paren; value_token "n" "4n"; comma_token]; position := -1 |}
       None []
     = (Throw (SyntaxError "Expected )"),
        [ {| _expressions := []; _units := VStr "n"; _value := VNum 4 |} ]).
Proof.
  split; [reflexivity|]. split; [|split; [reflexivity|]].
  - refine (proj1 (parse_error_at_end (CExpression None) 30
                     {| tokens := [value_token "n" "4n"; plus_token; value_token "n" "2n";
                                   times_token];
                        position := -1 |} [] 17
                     {| tokens := [value_token "n" "4n"; plus_token; value_token "n" "2n";
                                   times_token];
                        position := 3 |}
                     [ {| _expressions := []; _units := VStr "n"; _value := VNum 4 |};
                       {| _expressions := []; _units := VStr "n"; _value := VNum 2 |} ] _)
              eq_refl).
    do 4 (eapply comes_to_call; [apply calls_next_tier; cbn; lia|]).
    eapply comes_to_call; [eapply calls_loop; reflexivity|].
    eapply comes_to_call; [eapply calls_operand; reflexivity|].
    eapply comes_to_call; [apply calls_next_tier; cbn; lia|].
    eapply comes_to_call; [eapply calls_loop; reflexivity|].
    eapply comes_to_call; [eapply calls_operand; reflexivity|].
    eapply comes_to_call; [apply calls_next_tier; cbn; lia|].
    eapply comes_to_call; [apply calls_unary; cbn; lia|].
    eapply comes_to_call; [apply calls_primary; exact I|].
    apply comes_to_here.
  - refine (proj1 (proj2 (parse_error_at_end (CExpression None) 30
                     {| tokens := [open_paren; value_token "n" "4n"; comma_token];
                        position := -1 |} [] 21
                     {| tokens := [open_paren; value_token "n" "4n"; comma_token];
                        position := -1 |} [] _))
              open_paren _ _ _ eq_refl eq_refl eq_refl eq_refl).
    do 6 (eapply comes_to_call; [apply calls_next_tier; cbn; lia|]).
    eapply comes_to_call; [apply calls_unary; cbn; lia|].
    eapply comes_to_call; [apply calls_primary; reflexivity|].
    apply comes_to_here.
Defined.

(** ** Traversal of the tree: what it does when called with the tree alone *)

Lemma _traverseTree_S fuel left right exprType :
  _traverseTree (S fuel) left right exprType
  = match left, right with
    | Some (TTime l), Some (TTime r) =>
        let* _ := _pushExpr l (ATime r) exprType VUndef in
        ret (Some (TTime l))
    | _, _ =>
        let* (l0, l1, ltype) := node_parts left in
        let* left := _traverseTree fuel l0 l1 ltype in
        let* (r0, r1, rtype) := node_parts right in
        let* right := _traverseTree fuel r0 r1 rtype in
        let* _ := _traverseTree fuel left right VUndef in
        ret None
    end.
Proof. reflexivity. Qed.

Lemma keeps_bind {A B} (P : A -> Prop) (Q : B -> Prop) (m : M A) (f : A -> M B) h :
  keeps P h (m h) ->
  (forall v h1, P v -> List.length h1 = List.length h -> keeps Q h1 (f v h1)) ->
  keeps Q h (bind m f h).
Proof.
  unfold keeps at 1, bind. destruct (m h) as [o h1]. cbn [fst snd].
  intros [Hlen [(v & -> & Hv) | ->]] Hf.
  - destruct (Hf v h1 Hv Hlen) as [Hlen2 Hres]. split; [congruence | exact Hres].
  - split; [exact Hlen | now right].
Qed.

Lemma keeps_ret {A} (P : A -> Prop) (v : A) h : P v -> keeps P h (ret v h).
Proof. intros Hv. split; [reflexivity | left; eauto]. Qed.

Lemma keeps_weaken {A} (P Q : A -> Prop) h r :
  (forall v, P v -> Q v) -> keeps P h r -> keeps Q h r.
Proof.
  intros HPQ [Hlen [(v & Hr & Hv) | Hr]]; (split; [exact Hlen|]); [left | right]; eauto.
Qed.

Lemma node_parts_keeps v h : keeps (parts_of v) h (node_parts v h).
Proof.
  destruct v as [[a|ty l r|o m l]|]; cbn [node_parts].
  - split; [reflexivity | now right].
  - apply keeps_ret. unfold parts_of. cbn. lia.
  - apply keeps_ret. unfold parts_of. cbn. lia.
  - split; [reflexivity | now right].
Qed.

Lemma _pushExpr_keeps l r type h :
  keeps (fun _ => True) h (_pushExpr l (ATime r) type VUndef h).
Proof.
  unfold keeps, _pushExpr, bind, ret, read, write.
  destruct (h !! l) as [obj|]; cbn [fst snd].
  - split; [apply length_insert | left; eauto].
  - split; [reflexivity | now right].
Qed.

Abbreviation traversed := (keeps (fun v => instance_or_undefined v = true)).

(** The last call of a descent is on what two calls returned, and needs
    no depth beyond its own. *)
Lemma traverse_results fuel left right type h :
  instance_or_undefined left = true -> instance_or_undefined right = true ->
  keeps (fun _ => True) h (_traverseTree (S fuel) left right type h).
Proof.
  intros Hl Hr. rewrite _traverseTree_S.
  destruct left as [[l| |]|]; try discriminate;
    destruct right as [[r| |]|]; try discriminate;
    try (apply (keeps_bind (fun _ => True)); [apply _pushExpr_keeps|];
         intros; now apply keeps_ret);
    (split; [reflexivity | now right]).
Qed.

(** Every call of [_traverseTree] comes to an end, within a depth of two
    more than that of its arguments. *)
Lemma _traverseTree_traversed fuel : forall left right type h,
  (2 + Nat.max (depth_of left) (depth_of right) <= fuel)%nat ->
  traversed h (_traverseTree fuel left right type h).
Proof.
  induction fuel as [|fuel IH]; intros left right type h Hfuel; [lia|].
  rewrite _traverseTree_S.
  assert (Hdescend : traversed h
            ((let* (l0, l1, ltype) := node_parts left in
              let* left' := _traverseTree fuel l0 l1 ltype in
              let* (r0, r1, rtype) := node_parts right in
              let* right' := _traverseTree fuel r0 r1 rtype in
              let* _ := _traverseTree fuel left' right' VUndef in
              ret None) h)).
  { apply (keeps_bind (parts_of left)); [apply node_parts_keeps|].
    intros [[l0 l1] ltype] h1 Hl _. unfold parts_of in Hl. cbn [fst snd] in Hl.
    apply (keeps_bind (fun v => instance_or_undefined v = true)); [apply IH; lia|].
    intros left' h2 Hleft _.
    apply (keeps_bind (parts_of right)); [apply node_parts_keeps|].
    intros [[r0 r1] rtype] h3 Hr _. unfold parts_of in Hr. cbn [fst snd] in Hr.
    apply (keeps_bind (fun v => instance_or_undefined v = true)); [apply IH; lia|].
    intros right' h4 Hright _.
    destruct fuel as [|fuel]; [lia|].
    apply (keeps_bind (fun _ => True)); [now apply traverse_results|].
    intros _ h5 _ _. now apply keeps_ret. }
  destruct left as [[l|ty l0 l1|o m l0]|]; try exact Hdescend;
    destruct right as [[r|ty' r0 r1|o' m' r0]|]; try exact Hdescend.
  apply (keeps_bind (fun _ => True)); [apply _pushExpr_keeps|].
  intros; now apply keeps_ret.
Qed.

Lemma traverse_tree_alone (t : tree) (type : jsval) (h : heap) (k : nat) :
  exists h',
    _traverseTree (2 + depth t + k) (Some t) None type h = (Throw TypeError, h')
    /\ List.length h' = List.length h.
Proof.
  change (2 + depth t + k)%nat with (S (S (depth t) + k)).
  rewrite _traverseTree_S.
  assert (Hdescend : exists h',
            (let* (l0, l1, ltype) := node_parts (Some t) in
             let* left' := _traverseTree (S (depth t) + k) l0 l1 ltype in
             let* (r0, r1, rtype) := node_parts (@None tree) in
             let* right' := _traverseTree (S (depth t) + k) r0 r1 rtype in
             let* _ := _traverseTree (S (depth t) + k) left' right' VUndef in
             ret (@None tree)) h = (Throw TypeError, h')
            /\ List.length h' = List.length h).
  { unfold bind at 1.
    destruct t as [a|ty l r|o m l]; cbn [node_parts ret throw]; [eauto | |].
    - unfold bind at 1.
      destruct (_traverseTree_traversed (S (depth (TBinary ty l r)) + k)
                  (Some l) (Some r) ty h) as [Hlen [(v & Hv & _) | Ht]];
        [cbn [depth_of depth]; lia | |];
        destruct (_traverseTree _ (Some l) (Some r) ty h) as [o h1];
        cbn [fst snd] in *; subst o; eauto.
    - unfold bind at 1.
      destruct (_traverseTree_traversed (S (depth (TUnary o m l)) + k)
                  (Some l) None VUndef h) as [Hlen [(v & Hv & _) | Ht]];
        [cbn [depth_of depth]; lia | |];
        destruct (_traverseTree _ (Some l) None VUndef h) as [o' h1];
        cbn [fst snd] in *; subst o'; eauto. }
  destruct t; exact Hdescend.
Qed.

(** X9: Called with the tree alone, as [_parseTree] calls it, [_traverseTree]
    fails on a property access whatever the tree, within a depth of two more
    than that of the tree; it may have added to the chains of instances
    before, and has made no object. *)
Theorem traverse_alone_throws (t : tree) (type : jsval) (h : heap) (k : nat) :
  exists h',
    _traverseTree (2 + depth t + k) (Some t) None type h = (Throw TypeError, h')
    /\ List.length h' = List.length h.
Proof. apply traverse_tree_alone. Qed.

(** X10: [_parseTree] throws on every text, and it is known what: when the
    tokenizer fails, its SyntaxError "Unexpected token ...", with the store
    as it was; when the parser fails, the SyntaxError of the parser, with
    the store the parser left; and in every other case, that is whenever
    the text has tokens and a tree, a [TypeError] from the traversal of the
    tree, with no object more than the parser made. *)
Theorem _parseTree_throws (exprString : string) (h : heap) :
  exists n, forall k,
    (exists r,
        _tokenize exprString = Throw (SyntaxError ("Unexpected token " +:+ r))
        /\ _parseTree (n + k) exprString h
           = (Throw (SyntaxError ("Unexpected token " +:+ r)), h))
    \/ (exists lx m new,
          _tokenize exprString = Ret lx
          /\ _parseExpression (n + k) lx None h = (Throw (SyntaxError m), h ++ new)
          /\ _parseTree (n + k) exprString h = (Throw (SyntaxError m), h ++ new))
    \/ (exists lx t lx' new h',
          _tokenize exprString = Ret lx
          /\ _parseExpression (n + k) lx None h = (Ret (t, lx'), h ++ new)
          /\ _parseTree (n + k) exprString h = (Throw TypeError, h')
          /\ List.length h' = List.length (h ++ new)).
Proof.
  unfold _parseTree, lift. unfold bind at 3 5 7.
  assert (Htok : (exists lx, _tokenize exprString = Ret lx)
                 \/ (exists r, _tokenize exprString
                               = Throw (SyntaxError ("Unexpected token " +:+ r)))).
  { unfold _tokenize.
    destruct (tokenize_loop_finishes (String.length exprString) exprString [] (le_n _))
      as [(more & -> & _) | [r ->]]; eauto. }
  destruct Htok as [[lx Hlx] | [r Hr]].
  2:{ exists 0%nat. intros k. left. exists r. rewrite Hr. auto. }
  rewrite Hlx.
  destruct (proj1 (parser_advances (parse_fuel lx None)) lx None h (le_n _))
    as [(t & lx' & new & Hp & _) | (m & new & Hp)].
  - exists (Nat.max (parse_fuel lx None) (2 + depth t)). intros k.
    set (fuel := (Nat.max (parse_fuel lx None) (2 + depth t) + k)%nat).
    assert (Hp' : _parseExpression fuel lx None h = (Ret (t, lx'), h ++ new)).
    { replace fuel with (parse_fuel lx None + (fuel - parse_fuel lx None))%nat
        by (unfold fuel; lia).
      apply (proj1 (parser_more_fuel _)); [exact Hp | discriminate]. }
    destruct (traverse_tree_alone t VUndef (h ++ new) (fuel - (2 + depth t)))
      as (h' & Ht & Hlen).
    replace (2 + depth t + (fuel - (2 + depth t)))%nat with fuel in Ht
      by (unfold fuel; lia).
    right. right. exists lx, t, lx', new, h'.
    unfold bind. rewrite Hp', Ht. auto.
  - exists (parse_fuel lx None). intros k.
    assert (Hp' : _parseExpression (parse_fuel lx None + k) lx None h
                  = (Throw (SyntaxError m), h ++ new))
      by (apply (proj1 (parser_more_fuel _)); [exact Hp | discriminate]).
    right. left. exists lx, m, new. unfold bind. rewrite Hp'. auto.
Qed.

(** ** The unit of a text and its token *)

Lemma at_end_inv s x : at_end s = Some x -> s = "".
Proof. destruct s; [reflexivity | discriminate]. Qed.

Lemma seq_unfold ci r1 r2 s k :
  match_re ci (RSeq r1 r2) s k = match_re ci r1 s (fun s1 => match_re ci r2 s1 k).
Proof. reflexivity. Qed.

Lemma opt_unfold ci r s k :
  match_re ci (ROpt r) s k = or_else (match_re ci r s k) (k s).
Proof. reflexivity. Qed.

Lemma rep12_unfold ci r s k :
  match_re ci (RRep12 r) s k
  = match_re ci r s (fun s1 => or_else (match_re ci r s1 k) (k s1)).
Proof. reflexivity. Qed.

Lemma or_else_inv {A} (a b : option A) x :
  or_else a b = Some x -> a = Some x \/ (a = None /\ b = Some x).
Proof. destruct a; cbn; auto. Qed.

(** What [\d+] has matched when the match went on. *)
Lemma match_digits_inv s : forall k x,
  match_digits s k = Some x ->
  exists N rest, s = N +:+ rest /\ is_count N = true /\ k rest = Some x.
Proof.
  induction s as [|c s IH]; intros k x; cbn [match_digits]; [discriminate|].
  destruct (is_digit c) eqn:Hc; [|discriminate].
  intros [Hm | [_ Hk]]%or_else_inv.
  - destruct (IH k x Hm) as (N & rest & -> & HN & Hk).
    exists (String c N), rest. rewrite append_cons. repeat split; auto.
    unfold is_count in *. cbn. rewrite Hc. now apply andb_prop in HN as [_ ->].
  - exists (String c ""), s. repeat split; auto. unfold is_count. cbn. now rewrite Hc.
Qed.

Lemma match_char_inv ci p s k x :
  match_re ci (RChar p) s k = Some x ->
  exists c rest, s = String c rest /\ char_matches ci p c = true /\ k rest = Some x.
Proof.
  cbn [match_re]. destruct s as [|c rest]; [discriminate|].
  destruct (char_matches ci p c) eqn:Hc; [|discriminate]. eauto.
Qed.

Lemma punctuation_matches ci p c :
  p = "."%char \/ p = ":"%char -> char_matches ci p c = true -> c = p.
Proof.
  intros [-> | ->]; destruct ci; destruct c as [[] [] [] [] [] [] [] []];
    try discriminate; reflexivity.
Qed.

Lemma is_count_decimal N : is_count N = true -> is_decimal N = true.
Proof.
  intros HN. unfold is_decimal.
  rewrite <- (append_empty_r N) at 1.
  rewrite span_digits_app by auto using is_count_all_digits.
  unfold is_count in HN. apply andb_prop in HN as [-> _]. reflexivity.
Qed.

Lemma is_count_dot_decimal N F :
  is_count N = true -> is_count F = true -> is_decimal (N +:+ String "." F) = true.
Proof.
  intros HN HF. unfold is_decimal.
  rewrite span_digits_app by auto using is_count_all_digits.
  unfold is_count in HN. apply andb_prop in HN as [-> _]. exact HF.
Qed.

(** What [\d+(\.\d+)?] has matched when the match went on. *)
Lemma match_decimal_inv ci s k x :
  match_re ci re_decimal s k = Some x ->
  exists d rest, s = d +:+ rest /\ is_decimal d = true /\ k rest = Some x.
Proof.
  unfold re_decimal. rewrite seq_unfold.
  change (match_re ci RDigits s ?k) with (match_digits s k).
  intros (N & rest1 & -> & HN & Hk)%match_digits_inv.
  rewrite opt_unfold in Hk. apply or_else_inv in Hk as [Hk | [_ Hk]].
  - rewrite seq_unfold in Hk.
    apply match_char_inv in Hk as (c & rest2 & -> & Hc & Hk).
    apply punctuation_matches in Hc as ->; [|now left].
    change (match_re ci RDigits rest2 k) with (match_digits rest2 k) in Hk.
    apply match_digits_inv in Hk as (F & rest3 & -> & HF & Hk).
    exists (N +:+ String "." F), rest3.
    rewrite append_assoc, append_cons. auto using is_count_dot_decimal.
  - exists N, rest1. auto using is_count_decimal.
Qed.

(** What [\d+(\.\d+)?\:] has matched when the match went on. *)
Lemma match_part_inv ci s k x :
  match_re ci (RSeq re_decimal (RChar ":")) s k = Some x ->
  exists d rest, s = d +:+ String ":" rest /\ is_decimal d = true /\ k rest = Some x.
Proof.
  rewrite seq_unfold.
  intros (d & rest0 & -> & Hd & Hk)%match_decimal_inv.
  apply match_char_inv in Hk as (c & rest & -> & Hc & Hk).
  apply punctuation_matches in Hc as ->; [|now right]. eauto.
Qed.

Lemma match_last_part_inv ci s x :
  match_re ci (ROpt re_decimal) s at_end = Some x -> last_part s.
Proof.
  rewrite opt_unfold. intros [Hm | [_ Hk]]%or_else_inv.
  - apply match_decimal_inv in Hm as (d & rest & -> & Hd & ->%at_end_inv).
    right. now rewrite append_empty_r.
  - left. now apply at_end_inv in Hk.
Qed.

(** The texts on which the tests of [_parseUnits] succeed. *)
Lemma test_count_unit p s :
  test_to_end {| re := RSeq RDigits (RChar p); ignore_case := true |} s = true ->
  exists N c, s = N +:+ String c "" /\ is_count N = true /\ char_matches true p c = true.
Proof.
  unfold test_to_end. cbn [re ignore_case].
  destruct (match_re _ _ _ _) as [x|] eqn:Hm; [intros _|discriminate].
  rewrite seq_unfold in Hm.
  change (match_re true RDigits s ?k) with (match_digits s k) in Hm.
  apply match_digits_inv in Hm as (N & rest & -> & HN & Hk).
  apply match_char_inv in Hk as (c & rest' & -> & Hc & ->%at_end_inv). eauto.
Qed.

Lemma test_hertz s :
  test_to_end {| re := RSeq RDigits (RSeq (RChar "h") (RChar "z")); ignore_case := true |} s
  = true ->
  exists N c1 c2, s = N +:+ String c1 (String c2 "") /\ is_count N = true
                  /\ char_matches true "h" c1 = true /\ char_matches true "z" c2 = true.
Proof.
  unfold test_to_end. cbn [re ignore_case].
  destruct (match_re _ _ _ _) as [x|] eqn:Hm; [intros _|discriminate].
  rewrite seq_unfold in Hm.
  change (match_re true RDigits s ?k) with (match_digits s k) in Hm.
  apply match_digits_inv in Hm as (N & rest & -> & HN & Hk).
  rewrite seq_unfold in Hk.
  apply match_char_inv in Hk as (c1 & rest' & -> & Hc1 & Hk).
  apply match_char_inv in Hk as (c2 & rest'' & -> & Hc2 & ->%at_end_inv).
  exists N, c1, c2. auto.
Qed.

Lemma test_transport s :
  test_to_end {| re := RSeq (RRep12 (RSeq re_decimal (RChar ":"))) (ROpt re_decimal);
                 ignore_case := true |} s = true ->
  exists d rest, s = d +:+ String ":" rest /\ is_decimal d = true /\ later_parts rest.
Proof.
  unfold test_to_end. cbn [re ignore_case].
  destruct (match_re _ _ _ _) as [x|] eqn:Hm; [intros _|discriminate].
  rewrite seq_unfold, rep12_unfold in Hm.
  apply match_part_inv in Hm as (d & rest & -> & Hd & Hk).
  exists d, rest. repeat split; auto.
  apply or_else_inv in Hk as [Hk | [_ Hk]].
  - apply match_part_inv in Hk as (d2 & rest2 & -> & Hd2 & Hk).
    right. exists d2, rest2. eauto using match_last_part_inv.
  - left. eauto using match_last_part_inv.
Qed.

Lemma unit_letter p c :
  In p ["n"; "t"; "m"; "i"; "h"; "z"]%char -> char_matches true p c = true ->
  c = p \/ c = upcase p.
Proof.
  intros Hp.
  repeat (destruct Hp as [<- | Hp];
          [destruct c as [[] [] [] [] [] [] [] []]; cbv; intros;
           try discriminate; auto|]).
  destruct Hp.
Qed.

(** The token of a count and a unit letter, in either case. *)
Lemma getNextToken_count_unit N suffix u :
  is_count N = true -> In (suffix, u) unit_suffixes ->
  getNextToken (N +:+ suffix) = Ret (value_token u (N +:+ suffix)).
Proof.
  intros HN Hin. unfold unit_suffixes in Hin.
  repeat (destruct Hin as [[= <- <-] | Hin];
    [table_step; repeat skip_unit_pattern;
     try (now rewrite unit_pattern_whole by auto)|]);
    try (now destruct Hin).
  all: match goal with
       | |- context [str_match ?s ?p] =>
           replace (str_match s p) with (Some s); [reflexivity|]
       end.
  all: symmetry; apply str_match_whole; cbn [re ignore_case];
    change (match_re true (RSeq RDigits ?t) ?s ?k)
      with (match_digits s (fun s1 => match_re true t s1 k));
    now apply match_digits_app.
Qed.

(** A pattern cannot match a text without colon when what follows it needs
    a colon. *)
Lemma match_re_no_colon ci r : forall s k,
  (forall t, no_char ":" t = true -> k t = None) ->
  no_char ":" s = true -> match_re ci r s k = None.
Proof.
  induction r as [p| | |r1 IH1 r2 IH2|r1 IH1|r1 IH1]; intros s k Hk Hs.
  - destruct s as [|c s]; [reflexivity|]. cbn in *.
    apply andb_prop in Hs as [_ Hs]. rewrite (Hk s Hs). now destruct (char_matches ci p c).
  - destruct s as [|c s]; [reflexivity|]. cbn in *.
    apply andb_prop in Hs as [_ Hs]. rewrite (Hk s Hs). now destruct (is_digit c).
  - cbn [match_re]. induction s as [|c s IHs]; [reflexivity|]. cbn in *.
    apply andb_prop in Hs as [_ Hs]. rewrite (IHs Hs), (Hk s Hs).
    now destruct (is_digit c).
  - rewrite seq_unfold. apply IH1; [|exact Hs]. intros t Ht. now apply IH2.
  - rewrite opt_unfold. now rewrite IH1, Hk.
  - rewrite rep12_unfold. apply IH1; [|exact Hs].
    intros t Ht. now rewrite IH1, Hk.
Qed.

Lemma colon_needs_colon ci k t :
  no_char ":" t = true -> match_re ci (RChar ":") t k = None.
Proof.
  destruct t as [|c t]; [reflexivity|]. cbn.
  intros [Hc _]%andb_prop. apply negb_true_iff in Hc.
  replace (char_matches ci ":" c) with false; [reflexivity|].
  revert Hc. destruct ci, c as [[] [] [] [] [] [] [] []]; try discriminate; reflexivity.
Qed.

Lemma last_part_no_colon s : last_part s -> no_char ":" s = true.
Proof. intros [-> | Hs]; [reflexivity | now apply is_decimal_no_colon]. Qed.

Lemma last_part_no_ws s : last_part s -> no_ws s = true.
Proof. intros [-> | Hs]; [reflexivity | now apply is_decimal_no_ws]. Qed.

(** No further part starts in a last part. *)
Lemma match_part_last ci s k :
  last_part s -> match_re ci (RSeq re_decimal (RChar ":")) s k = None.
Proof.
  intros Hs. rewrite seq_unfold.
  apply match_re_no_colon; auto using last_part_no_colon.
  intros t Ht. now apply colon_needs_colon.
Qed.

Lemma match_part d rest k x :
  is_decimal d = true -> k rest = Some x ->
  match_re false (RSeq re_decimal (RChar ":")) (d +:+ String ":" rest) k = Some x.
Proof.
  intros Hd Hk. rewrite seq_unfold. apply match_decimal; auto.
Qed.

Lemma match_last_part s :
  last_part s -> match_re false (ROpt re_decimal) s Some = Some "".
Proof.
  rewrite opt_unfold. intros [-> | Hs]; [reflexivity|].
  replace (match_re false re_decimal s Some) with (Some ""); [reflexivity|].
  symmetry. rewrite <- (append_empty_r s). now apply match_decimal.
Qed.

(** The pattern of a transport position takes the whole of every text the
    test of [_parseUnits] accepts. *)
Lemma transport_pattern_all d rest :
  is_decimal d = true -> later_parts rest ->
  str_match (d +:+ String ":" rest)
    {| re := RSeq (RRep12 (RSeq re_decimal (RChar ":"))) (ROpt re_decimal);
       ignore_case := false |}
  = Some (d +:+ String ":" rest).
Proof.
  intros Hd Hrest. apply str_match_whole. cbn [re ignore_case].
  rewrite seq_unfold, rep12_unfold. apply match_part; [exact Hd|].
  destruct Hrest as [Hlast | (d2 & rest2 & -> & Hd2 & Hlast)].
  - now rewrite match_part_last, match_last_part.
  - now rewrite (match_part d2 rest2 _ "") by auto using match_last_part.
Qed.

Lemma later_parts_no_ws rest : later_parts rest -> no_ws rest = true.
Proof.
  intros [Hlast | (d2 & rest2 & -> & Hd2 & Hlast)]; [now apply last_part_no_ws|].
  rewrite no_ws_app. cbn. now rewrite is_decimal_no_ws, last_part_no_ws.
Qed.

Lemma getNextToken_transport_all d rest :
  is_decimal d = true -> later_parts rest ->
  getNextToken (d +:+ String ":" rest) = Ret (value_token "tr" (d +:+ String ":" rest)).
Proof.
  intros Hd Hrest. table_step.
  rewrite (transport_pattern_all d rest Hd Hrest).
  do 4 (rewrite decimal_unit_pattern_none by auto).
  now rewrite decimal_hz_pattern_none by auto.
Qed.

Lemma tokenize_count_unit N suffix u :
  is_count N = true -> In (suffix, u) unit_suffixes ->
  _tokenize (N +:+ suffix)
  = Ret {| tokens := [value_token u (N +:+ suffix)]; position := -1 |}.
Proof.
  intros HN Hin. apply tokenize_single; auto using getNextToken_count_unit.
  rewrite no_ws_app, all_digits_no_ws by auto using is_count_all_digits.
  unfold unit_suffixes in Hin.
  repeat (destruct Hin as [[= <- <-] | Hin]; [reflexivity|]). destruct Hin.
Qed.

Lemma tokenize_transport_all d rest :
  is_decimal d = true -> later_parts rest ->
  _tokenize (d +:+ String ":" rest)
  = Ret {| tokens := [value_token "tr" (d +:+ String ":" rest)]; position := -1 |}.
Proof.
  intros Hd Hrest. apply tokenize_single; auto using getNextToken_transport_all.
  rewrite no_ws_app. cbn. now rewrite is_decimal_no_ws, later_parts_no_ws.
Qed.

(** The text of a count and a letter the pattern of a unit accepts. *)
Lemma count_unit_suffix p c u :
  In (p, u) [("n"%char, "n"); ("t"%char, "t"); ("m"%char, "m"); ("i"%char, "i")] ->
  char_matches true p c = true -> In (String c "", u) unit_suffixes.
Proof.
  intros Hin Hc.
  repeat (destruct Hin as [[= <- <-] | Hin];
          [apply unit_letter in Hc as [-> | ->]; cbn; intuition auto|]).
  destruct Hin.
Qed.

Section UnitsOfTextFacts.

Variable isNumber : jsval -> bool.
Variable isString : jsval -> bool.
Variable StringToNumber : string -> float.
Variable NumberToString : float -> string.

Abbreviation _parseUnits := (_parseUnits isNumber isString StringToNumber NumberToString).
Abbreviation ToString := (ToString NumberToString).

(** X19: [_parseUnits] and the tokenizer read a text alike: when [_parseUnits]
    gives a unit other than seconds, the tokenizer makes of the text one
    token, of that unit and with the whole text as its value. *)
Theorem _parseUnits_token (val : jsval) (u : string) :
  _parseUnits val = VStr u -> u <> Units.Seconds ->
  _tokenize (ToString val)
  = Ret {| tokens := [value_token u (ToString val)]; position := -1 |}.
Proof.
  unfold _parseUnits. cbv zeta. set (text := ToString val).
  destruct (isNumber val); [intros [= <-]; congruence|].
  destruct (isString val); [|discriminate].
  destruct (PrimFloat.eqb _ _); [intros [= <-]; congruence|].
  destruct (test_to_end _ text) eqn:Hn.
  { intros [= <-] _. apply test_count_unit in Hn as (N & c & -> & HN & Hc).
    apply tokenize_count_unit; [exact HN|].
    apply (count_unit_suffix "n"); cbn; auto. }
  clear Hn. destruct (test_to_end _ text) eqn:Ht.
  { intros [= <-] _. apply test_count_unit in Ht as (N & c & -> & HN & Hc).
    apply tokenize_count_unit; [exact HN|].
    apply (count_unit_suffix "t"); cbn; auto. }
  clear Ht. destruct (test_to_end _ text) eqn:Hm.
  { intros [= <-] _. apply test_count_unit in Hm as (N & c & -> & HN & Hc).
    apply tokenize_count_unit; [exact HN|].
    apply (count_unit_suffix "m"); cbn; auto. }
  clear Hm. destruct (test_to_end _ text) eqn:Hi.
  { intros [= <-] _. apply test_count_unit in Hi as (N & c & -> & HN & Hc).
    apply tokenize_count_unit; [exact HN|].
    apply (count_unit_suffix "i"); cbn; auto. }
  clear Hi. destruct (test_to_end _ text) eqn:Hhz.
  { intros [= <-] _. apply test_hertz in Hhz as (N & c1 & c2 & -> & HN & Hc1 & Hc2).
    apply tokenize_count_unit; [exact HN|].
    pose proof (unit_letter "h" c1 ltac:(cbn; auto 10) Hc1) as [-> | ->];
      pose proof (unit_letter "z" c2 ltac:(cbn; auto 10) Hc2) as [-> | ->];
      cbn; repeat (first [left; reflexivity | right]). }
  clear Hhz. destruct (test_to_end _ text) eqn:Htr; [|discriminate].
  intros [= <-] _. apply test_transport in Htr as (d & rest & -> & Hd & Hrest).
  now apply tokenize_transport_all.
Qed.

End UnitsOfTextFacts.

(** ["1:2.5"], with [typeof] for [isNumber] and [isString], and a conversion
    to numbers that reads no number in it. *)
Lemma _parseUnits_token_witness :
  _parseUnits (fun v => match v with VNum _ => true | _ => false end)
              (fun v => match v with VStr _ => true | _ => false end)
              (fun _ => nan) (fun _ => "x") (VStr "1:2.5")
  = VStr "tr"
  /\ _tokenize "1:2.5"
     = Ret {| tokens := [value_token "tr" "1:2.5"]; position := -1 |}.
Proof.
  split; [vm_compute; reflexivity|].
  refine (_parseUnits_token (fun v => match v with VNum _ => true | _ => false end)
            (fun v => match v with VStr _ => true | _ => false end)
            (fun _ => nan) (fun _ => "x") (VStr "1:2.5") "tr" _ _).
  - vm_compute. reflexivity.
  - discriminate.
Defined.

(** ** The sample names of [Tone.Simpler] are the dotted paths *)

Lemma flat_map_same {A B} (f g : A -> list B) l :
  (forall e, f e = g e) -> flat_map f l = flat_map g l.
Proof.
  intros Hfg. induction l as [|e l IH]; [reflexivity|].
  cbn. now rewrite Hfg, IH.
Qed.

Lemma paths_unfold ob : paths ob = flat_map path_step ob.
Proof.
  unfold paths. cbn [paths_of]. apply flat_map_same.
  intros [i [props|v]]; reflexivity.
Qed.

(** [for ... in] visits every property, once. *)
Lemma In_insert_index {A} (e x : string * A) l :
  In e (insert_index x l) <-> e = x \/ In e l.
Proof.
  induction l as [|e' l IH]; cbn; [intuition congruence|].
  destruct (digits_val 10 (fst x) <=? digits_val 10 (fst e')); cbn;
    [intuition congruence|].
  rewrite IH. intuition congruence.
Qed.

Lemma In_sorted_indices {A} (e : string * A) l :
  In e (fold_right insert_index [] l) <-> In e l.
Proof.
  induction l as [|x l IH]; cbn; [reflexivity|].
  rewrite In_insert_index, IH. intuition congruence.
Qed.

Lemma In_for_in_order {A} (e : string * A) o : In e (for_in_order o) <-> In e o.
Proof.
  unfold for_in_order. rewrite in_app_iff, In_sorted_indices, !filter_In.
  destruct (is_index (fst e)); cbn; intuition congruence.
Qed.

Lemma In_assign {A} (k k' : string) (v v' : A) o :
  In (k, v) (assign k' v' o) -> (k = k' /\ v = v') \/ In (k, v) o.
Proof.
  induction o as [|[k0 v0] o IH]; cbn.
  - intros [[= <- <-] | []]. auto.
  - destruct (String.eqb k0 k'); cbn.
    + intros [[= <- <-] | H]; auto.
    + intros [H | H]; auto. destruct (IH H); auto.
Qed.

Lemma In_store_property {A} (k k' : string) (v v' : A) o :
  In (k, v) (store_property k' v' o) -> (k = k' /\ v = v') \/ In (k, v) o.
Proof.
  unfold store_property. destruct (String.eqb k' "__proto__"); [auto|].
  apply In_assign.
Qed.

Lemma get_In {A} (k : string) (v : A) o : get k o = Some v -> In (k, v) o.
Proof.
  induction o as [|[k0 v0] o IH]; cbn; [discriminate|].
  destruct (String.eqb_spec k0 k) as [->|]; [intros [= ->]; auto | auto].
Qed.

Lemma get_assign {A} (k k' : string) (v' : A) o :
  get k (assign k' v' o) = if String.eqb k' k then Some v' else get k o.
Proof.
  induction o as [|[k0 v0] o IH]; cbn; [reflexivity|].
  destruct (String.eqb_spec k0 k') as [->|Hne]; cbn.
  - now destruct (String.eqb k' k).
  - rewrite IH. destruct (String.eqb_spec k0 k) as [->|]; [|reflexivity].
    destruct (String.eqb_spec k' k); congruence.
Qed.

Lemma store_property_keeps {A} (k k' : string) (v' : A) o :
  is_Some (get k o) -> is_Some (get k (store_property k' v' o)).
Proof.
  unfold store_property. destruct (String.eqb k' "__proto__"); [auto|].
  rewrite get_assign. destruct (String.eqb k' k); eauto.
Qed.

Lemma store_property_sets {A} (k : string) (v : A) o :
  k <> "__proto__" -> is_Some (get k (store_property k v o)).
Proof.
  intros Hk. unfold store_property.
  destruct (String.eqb_spec k "__proto__"); [congruence|].
  rewrite get_assign, String.eqb_refl. eauto.
Qed.

(** A name with a dot in it is not [__proto__]. *)
Lemma dotted_name_not_proto i x : i +:+ "." +:+ x <> "__proto__".
Proof.
  intros Heq. assert (H : no_char "." (i +:+ "." +:+ x) = true) by now rewrite Heq.
  rewrite no_char_app in H. apply andb_prop in H as [_ H]. discriminate.
Qed.

Lemma In_fold_store i (flat : list (string * jsval)) : forall acc k v,
  In (k, v) (fold_left (fun t e => store_property (i +:+ "." +:+ fst e) (snd e) t)
                       flat acc) ->
  (exists x, k = i +:+ "." +:+ x /\ In (x, v) flat) \/ In (k, v) acc.
Proof.
  induction flat as [|[x0 v0] flat IH]; intros acc k v; cbn [fold_left]; [auto|].
  intros [(x & -> & Hx) | H]%IH.
  - left. exists x. cbn. auto.
  - apply In_store_property in H as [[-> ->] | H]; [|auto].
    left. exists x0. cbn. auto.
Qed.

Lemma In_flatten_into i flat acc k v :
  In (k, v) (flatten_into i flat acc) ->
  (exists x, k = i +:+ "." +:+ x /\ In (x, v) flat) \/ In (k, v) acc.
Proof.
  unfold flatten_into. intros [(x & -> & Hx) | H]%In_fold_store; [|auto].
  left. exists x. split; [reflexivity|]. exact (proj1 (In_for_in_order _ _) Hx).
Qed.

Lemma fold_store_keeps i (flat : list (string * jsval)) : forall acc k,
  is_Some (get k acc) ->
  is_Some (get k (fold_left (fun t e => store_property (i +:+ "." +:+ fst e) (snd e) t)
                            flat acc)).
Proof.
  induction flat as [|[x0 v0] flat IH]; intros acc k Hk; cbn [fold_left]; [exact Hk|].
  apply IH. now apply store_property_keeps.
Qed.

Lemma flatten_into_keeps i flat acc k :
  is_Some (get k acc) -> is_Some (get k (flatten_into i flat acc)).
Proof. apply fold_store_keeps. Qed.

Lemma fold_store_sets i (flat : list (string * jsval)) : forall acc x v,
  In (x, v) flat ->
  is_Some (get (i +:+ "." +:+ x)
             (fold_left (fun t e => store_property (i +:+ "." +:+ fst e) (snd e) t)
                        flat acc)).
Proof.
  induction flat as [|[x0 v0] flat IH]; intros acc x v; [intros []|].
  intros [[= -> ->] | Hin]; cbn [fold_left fst snd].
  - apply fold_store_keeps, store_property_sets, dotted_name_not_proto.
  - apply (IH _ x v Hin).
Qed.

Lemma flatten_into_sets i flat acc x v :
  In (x, v) flat -> is_Some (get (i +:+ "." +:+ x) (flatten_into i flat acc)).
Proof.
  intros Hin. apply (fold_store_sets i _ acc x v).
  exact (proj2 (In_for_in_order _ _) Hin).
Qed.

(** A path is not empty, and its dotted name starts with its first name. *)
Lemma dotted_one i : dotted [i] = i.
Proof. reflexivity. Qed.

Lemma dotted_cons i p : p <> [] -> dotted (i :: p) = i +:+ "." +:+ dotted p.
Proof. destruct p; [congruence | reflexivity]. Qed.

Lemma paths_nonempty ob p v : In (p, v) (paths ob) -> p <> [].
Proof.
  rewrite paths_unfold. intros (e & _ & Hp)%in_flat_map. revert Hp.
  unfold path_step. destruct (snd e).
  - intros (q & [= <- _] & _)%in_map_iff. discriminate.
  - intros [[= <- _] | []]. discriminate.
Qed.

Lemma _flattenUrls_S fuel ob :
  _flattenUrls (S fuel) ob
  = flatten_loop (_flattenUrls fuel) (has_key "hasOwnProperty" ob) (for_in_order ob) [].
Proof. reflexivity. Qed.

(** Every property of the result is the dotted name of a path, with the
    value at the end of the path. *)
Lemma flatten_sound fuel : forall ob r,
  _flattenUrls fuel ob = Ret r ->
  forall k v, In (k, v) r -> exists p, In (p, v) (paths ob) /\ dotted p = k.
Proof.
  induction fuel as [|fuel IH]; intros ob r; [discriminate|].
  rewrite _flattenUrls_S, paths_unfold.
  generalize (has_key "hasOwnProperty" ob) as b.
  assert (Hsub : forall e, In e (for_in_order ob) -> In e ob)
    by (intros e He; exact (proj1 (In_for_in_order _ _) He)).
  revert Hsub. generalize (for_in_order ob) as es.
  assert (Hnil : forall k v, In (k, v) (@nil (string * jsval)) ->
                   exists p, In (p, v) (flat_map path_step ob) /\ dotted p = k)
    by (intros k v []).
  revert Hnil. generalize (@nil (string * jsval)) as acc.
  intros acc Hacc es. revert acc Hacc.
  induction es as [|[i obi] es IHes]; intros acc Hacc Hsub b; cbn [flatten_loop].
  - intros [= <-]. exact Hacc.
  - destruct b; [discriminate|].
    assert (He : In (i, obi) ob) by (apply Hsub; now left).
    destruct obi as [props|v0].
    + destruct (_flattenUrls fuel props) as [flat|e|] eqn:Hflat; try discriminate.
      apply IHes; [|intros; apply Hsub; now right].
      intros k v [(x & -> & Hx) | Hin]%In_flatten_into; [|now apply Hacc].
      destruct (IH props flat Hflat x v Hx) as (p & Hp & <-).
      exists (i :: p). split.
      * apply in_flat_map. exists (i, UObject props). split; [exact He|].
        unfold path_step. cbn [fst snd]. apply in_map_iff. now exists (p, v).
      * apply dotted_cons. now apply paths_nonempty in Hp.
    + apply IHes; [|intros; apply Hsub; now right].
      intros k v [[-> ->] | Hin]%In_store_property; [|now apply Hacc].
      exists [i]. split; [|reflexivity].
      apply in_flat_map. exists (i, UOther v0). split; [exact He | now left].
Qed.

(** The depth and the own properties of the objects inside an object. *)
Lemma urls_depth_inside i props (ob : list (string * urlval)) :
  In (i, UObject props) ob ->
  (urls_depth (UObject props) < urls_depth (UObject ob))%nat.
Proof.
  cbn [urls_depth]. induction ob as [|e ob IH]; [intros []|].
  intros [-> | Hin]; cbn [fold_right snd urls_depth].
  - lia.
  - specialize (IH Hin). lia.
Qed.

Lemma hasOwnProperty_free_inside i props (ob : list (string * urlval)) :
  hasOwnProperty_free (UObject ob) = true ->
  In (i, UObject props) ob -> hasOwnProperty_free (UObject props) = true.
Proof.
  cbn [hasOwnProperty_free]. intros [_ Hall]%andb_prop Hin.
  rewrite forallb_forall in Hall. exact (Hall _ Hin).
Qed.

(** The last name of a path. *)
Lemma last_path_cons i p : p <> [] -> List.last (i :: p) "" = List.last p "".
Proof. destruct p; [congruence | reflexivity]. Qed.

(** With no property named [hasOwnProperty] in the way, [_flattenUrls]
    returns, and the dotted name of every path whose last name is not
    [__proto__] is a property of the result. *)
Lemma flatten_complete fuel : forall ob,
  (urls_depth (UObject ob) <= fuel)%nat ->
  hasOwnProperty_free (UObject ob) = true ->
  exists r,
    _flattenUrls fuel ob = Ret r
    /\ forall p v, In (p, v) (paths ob) -> List.last p "" <> "__proto__" ->
                   is_Some (get (dotted p) r).
Proof.
  induction fuel as [|fuel IH]; intros ob Hdepth Hfree; [cbn in Hdepth; lia|].
  rewrite _flattenUrls_S.
  assert (Hb : has_key "hasOwnProperty" ob = false).
  { cbn [hasOwnProperty_free] in Hfree. apply andb_prop in Hfree as [Hb _].
    now apply negb_true_iff in Hb. }
  rewrite Hb.
  assert (Hloop : forall es acc,
             (forall e, In e es -> In e ob) ->
             exists r,
               flatten_loop (_flattenUrls fuel) false es acc = Ret r
               /\ (forall k, is_Some (get k acc) -> is_Some (get k r))
               /\ (forall e p v, In e es -> In (p, v) (path_step e) ->
                                 List.last p "" <> "__proto__" ->
                                 is_Some (get (dotted p) r))).
  { induction es as [|[i obi] es IHes]; intros acc Hsub; cbn [flatten_loop].
    - exists acc. repeat split; [auto | intros e p v []].
    - assert (He : In (i, obi) ob) by (apply Hsub; now left).
      destruct obi as [props|v0].
      + destruct (IH props) as (flat & -> & Hflat).
        { pose proof (urls_depth_inside i props ob He). lia. }
        { exact (hasOwnProperty_free_inside i props ob Hfree He). }
        destruct (IHes (flatten_into i flat acc)) as (r & Hr & Hkeep & Hset);
          [intros; apply Hsub; now right|].
        exists r. split; [exact Hr|]. split.
        * intros k Hk. now apply Hkeep, flatten_into_keeps.
        * intros e p v [<- | Hin] Hp Hlast; [|exact (Hset e p v Hin Hp Hlast)].
          unfold path_step in Hp. cbn [fst snd] in Hp.
          apply in_map_iff in Hp as ([p0 v1] & [= <- <-] & Hq). cbn [fst snd] in *.
          pose proof (paths_nonempty _ _ _ Hq) as Hne.
          rewrite last_path_cons in Hlast by exact Hne.
          destruct (Hflat p0 v1 Hq Hlast) as [v' Hv'%get_In].
          rewrite dotted_cons by exact Hne.
          apply Hkeep. now apply (flatten_into_sets i flat acc _ v').
      + destruct (IHes (store_property i v0 acc)) as (r & Hr & Hkeep & Hset);
          [intros; apply Hsub; now right|].
        exists r. split; [exact Hr|]. split.
        * intros k Hk. now apply Hkeep, store_property_keeps.
        * intros e p v [<- | Hin] Hp Hlast; [|exact (Hset e p v Hin Hp Hlast)].
          unfold path_step in Hp. cbn [fst snd] in Hp.
          destruct Hp as [[= <- <-] | []]. cbn in Hlast.
          rewrite dotted_one. now apply Hkeep, store_property_sets. }
  destruct (Hloop (for_in_order ob) []) as (r & Hr & _ & Hset);
    [intros e He; exact (proj1 (In_for_in_order _ _) He)|].
  exists r. split; [exact Hr|].
  intros p v. rewrite paths_unfold.
  intros (e & He & Hp)%in_flat_map Hlast.
  apply (Hset e p v); auto. exact (proj2 (In_for_in_order _ _) He).
Qed.

Lemma forallb_fails {A} (f : A -> bool) l :
  forallb f l = false -> exists x, In x l /\ f x = false.
Proof.
  induction l as [|x l IH]; cbn; [discriminate|].
  destruct (f x) eqn:Hx; cbn.
  - intros (y & Hy & Hfy)%IH. eauto.
  - intros _. eauto.
Qed.

(** A property named [hasOwnProperty], in the object or in an object
    inside it, makes [_flattenUrls] throw. *)
Lemma flatten_throws fuel : forall ob,
  (urls_depth (UObject ob) <= fuel)%nat ->
  hasOwnProperty_free (UObject ob) = false ->
  _flattenUrls fuel ob = Throw TypeError.
Proof.
  induction fuel as [|fuel IH]; intros ob Hdepth Hfree; [cbn in Hdepth; lia|].
  rewrite _flattenUrls_S.
  cbn [hasOwnProperty_free] in Hfree.
  destruct (has_key "hasOwnProperty" ob) eqn:Hb.
  - destruct (for_in_order ob) as [|[i obi] es] eqn:Hes; [|reflexivity].
    exfalso. unfold has_key in Hb. apply existsb_exists in Hb as (e & He & _).
    apply (proj2 (In_for_in_order _ _)) in He. rewrite Hes in He. destruct He.
  - cbn [negb andb] in Hfree.
    assert (Hbad : exists e, In e (for_in_order ob) /\ hasOwnProperty_free (snd e) = false).
    { destruct (forallb _ ob) eqn:Hall; [discriminate|].
      apply forallb_fails in Hall as (e & He & Hne).
      exists e. split; [exact (proj2 (In_for_in_order _ _) He) | exact Hne]. }
    assert (Hsub : forall e, In e (for_in_order ob) -> In e ob)
      by (intros e He; exact (proj1 (In_for_in_order _ _) He)).
    revert Hbad Hsub. generalize (for_in_order ob) as es.
    generalize (@nil (string * jsval)) as acc.
    intros acc es. revert acc.
    induction es as [|[i obi] es IHes]; intros acc (e & He & Hne) Hsub;
      [destruct He|]. cbn [flatten_loop].
    assert (Hin : In (i, obi) ob) by (apply Hsub; now left).
    destruct obi as [props|v0].
    + destruct (hasOwnProperty_free (UObject props)) eqn:Hp.
      * destruct (flatten_complete fuel props) as (flat & -> & _);
          [pose proof (urls_depth_inside i props ob Hin); lia | exact Hp |].
        apply IHes; [|intros; apply Hsub; now right].
        destruct He as [<- | He]; [cbn [snd] in Hne; congruence | eauto].
      * rewrite IH; [reflexivity | | exact Hp].
        pose proof (urls_depth_inside i props ob Hin). lia.
    + apply IHes; [|intros; apply Hsub; now right].
      destruct He as [<- | He]; [discriminate | eauto].
Qed.

(** X20: every sample name that [_flattenUrls] makes is the dotted name of a
    path of the object given, down to a value that is no object, and the
    url under the name is that value: nothing else gets into the result, an
    object without such values (an empty one) leaves no trace. *)
Theorem flatten_names_are_paths (fuel : nat) (ob : list (string * urlval))
    (r : list (string * jsval)) (k : string) (v : jsval) :
  _flattenUrls fuel ob = Ret r ->
  get k r = Some v ->
  exists p, In (p, v) (paths ob) /\ dotted p = k.
Proof.
  intros Hr Hk%get_In. exact (flatten_sound fuel ob r Hr k v Hk).
Qed.


(** X22: a property named [hasOwnProperty], of the object given or of an
    object inside it, makes [_flattenUrls] throw a TypeError: the loop
    calls [ob.hasOwnProperty], which is then that property and no
    function. *)
Theorem flatten_throws_on_own_hasOwnProperty (ob : list (string * urlval)) (k : nat) :
  hasOwnProperty_free (UObject ob) = false ->
  _flattenUrls (urls_depth (UObject ob) + k) ob = Throw TypeError.
Proof.
  intros Hfree. apply flatten_throws; [lia | exact Hfree].
Qed.

Lemma flatten_names_are_paths_witness :
  _flattenUrls 2 drum_urls
  = Ret [ ("kick", VStr "kick.mp3"); ("snare.hard", VStr "sh.mp3");
          ("snare.soft", VStr "ss.mp3") ]
  /\ exists p, In (p, VStr "ss.mp3") (paths drum_urls) /\ dotted p = "snare.soft".
Proof.
  split; [reflexivity|].
  exact (flatten_names_are_paths 2 drum_urls _ "snare.soft" (VStr "ss.mp3")
           eq_refl eq_refl).
Defined.


Lemma flatten_throws_on_own_hasOwnProperty_witness :
  hasOwnProperty_free (UObject shadowing_urls) = false
  /\ _flattenUrls 1 shadowing_urls = Throw TypeError.
Proof.
  split; [reflexivity|].
  exact (flatten_throws_on_own_hasOwnProperty shadowing_urls 0 eq_refl).
Defined.

(** Names that are array indices are visited first, and [__proto__] makes
    no property of the result. *)
Lemma flatten_special_names :
  _flattenUrls 1 [ ("b", UOther (VStr "b.mp3")); ("__proto__", UOther (VStr "x.mp3"));
                   ("1", UOther (VStr "one.mp3")) ]
  = Ret [ ("1", VStr "one.mp3"); ("b", VStr "b.mp3") ].
Proof. reflexivity. Qed.
